(** * ts-function-similarity: the pairwise similarity comparison engine

    A shallow embedding of the edit-distance core ([levenshtein.ts], in its
    form with two rolling rows and the thresholded variants, and the
    distance in its earlier form with the full table), of [normalizeCode],
    of the comparison driver ([comparator.ts], in its form with the three
    filters), of the worker ([worker.ts]) and of the parallel layer
    ([comparatorParallel.ts]), with the properties the specification states
    about them and further properties of the code.

    Conventions of the embedding.
    - A JavaScript string is a finite sequence of UTF-16 code units.  The
      engine only takes [.length], indexes ([s[i]]) and compares code units
      for equality, so a string is a [list codeunit] with [codeunit := N].
    - Array indices, lengths and cells of the cost rows are natural numbers.
    - The remaining values of type [number] (thresholds, scores) are exact
      rationals ([Q]); the rounding of IEEE-754 doubles is not modelled, and
      neither are [NaN] and the infinities, except that the one division
      that can be [0/0] in the source is guarded where it occurs.
    - [onProgress] is a callback that does not influence the returned list;
      it is left out.
    - The three regular expressions of [normalizeCode] are embedded as the
      scans that [String.prototype.replace] performs with them. *)

From Stdlib Require Import QArith Qround Lqa.
From stdpp Require Import gmap list strings sorting.

Local Open Scope nat_scope.
Set Warnings "-clear-no-such-hyp".

(** ** Strings *)

Abbreviation codeunit := N.
Abbreviation jsstring := (list codeunit).

(** [js "abc"] is the JavaScript string with the code units of the ASCII
    literal. *)
Definition js (s : string) : jsstring :=
  map Ascii.N_of_ascii (String.list_ascii_of_string s).

(** ** Edit distance, as the specification words it

    "the minimum number of single-element insertions, deletions, or
    substitutions to transform one into the other". *)

Inductive edit1 : jsstring → jsstring → Prop :=
  | edit1_insert u c v : edit1 (u ++ v) (u ++ c :: v)
  | edit1_delete u c v : edit1 (u ++ c :: v) (u ++ v)
  | edit1_subst u c c' v : edit1 (u ++ c :: v) (u ++ c' :: v).

Inductive edits : nat → jsstring → jsstring → Prop :=
  | edits_nil s : edits 0 s s
  | edits_step n s t u : edit1 s t → edits n t u → edits (S n) s u.

(** [d] is the least number of single-element edits turning [a] into [b]. *)
Definition is_edit_distance (d : nat) (a b : jsstring) : Prop :=
  edits d a b ∧ ∀ n, edits n a b → d ≤ n.

(** The textbook recursion on the first elements, used as the link between
    the edit scripts above and the cost rows of the code. *)
Fixpoint lev (s : jsstring) : jsstring → nat :=
  fix lev_s (t : jsstring) : nat :=
    match s, t with
    | [], _ => length t
    | _, [] => length s
    | a :: s', b :: t' =>
        Nat.min (Nat.min (lev s' t + 1) (lev_s t' + 1))
                (lev s' t' + if decide (a = b) then 0 else 1)
    end.

(** The cell of the cost table in row [i] and column [j], the distance
    between the first [i] elements of [str1] and the first [j] of [str2],
    and the row [i] of the table.  They state what the rolling rows of the
    code hold. *)
Definition cell (str1 str2 : jsstring) (i j : nat) : nat :=
  lev (reverse (take i str1)) (reverse (take j str2)).

Definition costRow (str1 str2 : jsstring) (i : nat) : list nat :=
  cell str1 str2 i <$> seq 0 (length str2 + 1).

(** ** levenshtein.ts *)

(** [Math.min(x, y, z)] *)
Definition min3 (x y z : nat) : nat := Nat.min (Nat.min x y) z.

(** The body of the inner loop at column [j], [1 <= j <= len2]:
<<
      const cost = str1[i - 1] === str2[j - 1] ? 0 : 1;
      currRow[j] = Math.min(prevRow[j] + 1, currRow[j - 1] + 1,
                            prevRow[j - 1] + cost);
>> *)
Definition cellCost (str1 str2 : jsstring) (i j : nat) : nat :=
  if decide (str1 !! (i - 1) = str2 !! (j - 1)) then 0 else 1.

Definition cellValue (str1 str2 : jsstring) (i : nat)
    (prevRow currRow : list nat) (j : nat) : nat :=
  min3 (prevRow !!! j + 1) (currRow !!! (j - 1) + 1)
       (prevRow !!! (j - 1) + cellCost str1 str2 i j).

(** [for (let j = 1; j <= len2; j++) currRow[j] = ...], after
    [currRow[0] = i]. *)
Definition fillRow (str1 str2 : jsstring) (i : nat)
    (prevRow currRow : list nat) : list nat :=
  foldl (λ cur j, <[j := cellValue str1 str2 i prevRow cur j]> cur)
        (<[0 := i]> currRow) (seq 1 (length str2)).

(** [for (let i = 1; i <= len1; i++) { ...; [prevRow, currRow] = [currRow, prevRow]; }]
    over the remaining values of [i]; the result is the final [prevRow]. *)
Fixpoint rowLoop (str1 str2 : jsstring) (rows : list nat)
    (prevRow currRow : list nat) : list nat :=
  match rows with
  | [] => prevRow
  | i :: rows' =>
      let currRow' := fillRow str1 str2 i prevRow currRow in
      rowLoop str1 str2 rows' currRow' prevRow
  end.

(** [new Array(len2 + 1)]: the cells are written before they are read. *)
Definition newArray (n : nat) : list nat := replicate n 0.

(** [for (let j = 0; j <= len2; j++) prevRow[j] = j;] *)
Definition firstRow (len2 : nat) : list nat :=
  foldl (λ row j, <[j := j]> row) (newArray (len2 + 1)) (seq 0 (len2 + 1)).

(** The part of [levenshteinDistance] after the swap, with [str1] the
    shorter string. *)
Definition distanceRows (str1 str2 : jsstring) : nat :=
  let len1 := length str1 in
  let len2 := length str2 in
  rowLoop str1 str2 (seq 1 len1) (firstRow len2) (newArray (len2 + 1)) !!! len2.

Definition levenshteinDistance (str1 str2 : jsstring) : nat :=
  let len1 := length str1 in
  let len2 := length str2 in
  if decide (len1 = 0) then len2
  else if decide (len2 = 0) then len1
  else if decide (str1 = str2) then 0
  else if decide (len2 < len1) then distanceRows str2 str1
  else distanceRows str1 str2.

(** The early return [if (maxDistance !== undefined && x > maxDistance)
    return maxDistance + 1;]: [Some] of the returned value when the guard
    holds, [None] when the code goes on. *)
Definition overThreshold (maxDistance : option Z) (x : Z) : option Z :=
  match maxDistance with
  | Some c => if decide (c < x)%Z then Some (c + 1)%Z else None
  | None => None
  end.

(** The inner loop of [levenshteinDistanceWithThreshold]: as [fillRow], and
    [minInRow] starts at [i] and follows the least cell written. *)
Definition fillRowMin (str1 str2 : jsstring) (i : nat)
    (prevRow currRow : list nat) : list nat * nat :=
  foldl (λ '(cur, minInRow) j,
           let cur' := <[j := cellValue str1 str2 i prevRow cur j]> cur in
           (cur', if decide (cur' !!! j < minInRow) then cur' !!! j
                  else minInRow))
        (<[0 := i]> currRow, i) (seq 1 (length str2)).

Fixpoint rowLoopThreshold (str1 str2 : jsstring) (maxDistance : option Z)
    (rows : list nat) (prevRow currRow : list nat) : Z :=
  match rows with
  | [] => Z.of_nat (prevRow !!! length str2)
  | i :: rows' =>
      let '(currRow', minInRow) := fillRowMin str1 str2 i prevRow currRow in
      match overThreshold maxDistance (Z.of_nat minInRow) with
      | Some r => r
      | None => rowLoopThreshold str1 str2 maxDistance rows' currRow' prevRow
      end
  end.

Definition distanceRowsThreshold (str1 str2 : jsstring)
    (maxDistance : option Z) : Z :=
  let len1 := length str1 in
  let len2 := length str2 in
  rowLoopThreshold str1 str2 maxDistance (seq 1 len1)
    (firstRow len2) (newArray (len2 + 1)).

Definition levenshteinDistanceWithThreshold (str1 str2 : jsstring)
    (maxDistance : option Z) : Z :=
  let len1 := length str1 in
  let len2 := length str2 in
  if decide (len1 = 0) then Z.of_nat len2
  else if decide (len2 = 0) then Z.of_nat len1
  else if decide (str1 = str2) then 0%Z
  else
    match overThreshold maxDistance (Z.abs (Z.of_nat len2 - Z.of_nat len1)) with
    | Some r => r
    | None =>
        if decide (len2 < len1) then distanceRowsThreshold str2 str1 maxDistance
        else distanceRowsThreshold str1 str2 maxDistance
    end.

(** Comparisons of numbers. *)
#[global] Instance Qle_decision : RelDecision Qle.
Proof.
  intros x y. destruct (Qlt_le_dec y x) as [H | H].
  - right. apply Qlt_not_le, H.
  - left. exact H.
Defined.

#[global] Instance Qlt_decision : RelDecision Qlt.
Proof.
  intros x y. destruct (Qlt_le_dec x y) as [H | H].
  - left. exact H.
  - right. apply Qle_not_lt, H.
Defined.

(** [Math.round]: the nearest integer, a half rounded up. *)
Definition mathRound (x : Q) : Q := inject_Z (Qfloor (x + (1 # 2))%Q).

(** [Math.floor(maxLength * (1 - minSimilarity / 100))] *)
Definition distanceCeiling (maxLength : Z) (minSimilarity : Q) : Z :=
  Qfloor (inject_Z maxLength * (1 - minSimilarity / 100))%Q.

Definition calculateSimilarityWithThreshold (str1 str2 : jsstring)
    (minSimilarity : option Q) : Q :=
  if decide (str1 = str2) then 100%Q
  else if decide (length str1 = 0 ∧ length str2 = 0) then 100%Q
  else if decide (length str1 = 0 ∨ length str2 = 0) then 0%Q
  else
    let maxLength := Z.max (Z.of_nat (length str1)) (Z.of_nat (length str2)) in
    let maxDistance := distanceCeiling maxLength <$> minSimilarity in
    let distance := levenshteinDistanceWithThreshold str1 str2 maxDistance in
    match overThreshold maxDistance distance with
    | Some _ => 0%Q
    | None =>
        (mathRound ((inject_Z (maxLength - distance) / inject_Z maxLength)
                    * 10000) / 100)%Q
    end.

Definition calculateSimilarity (str1 str2 : jsstring) : Q :=
  if decide (str1 = str2) then 100%Q
  else if decide (length str1 = 0 ∧ length str2 = 0) then 100%Q
  else if decide (length str1 = 0 ∨ length str2 = 0) then 0%Q
  else
    let distance := Z.of_nat (levenshteinDistance str1 str2) in
    let maxLength := Z.max (Z.of_nat (length str1)) (Z.of_nat (length str2)) in
    let similarity :=
      ((inject_Z (maxLength - distance) / inject_Z maxLength) * 100)%Q in
    (mathRound (similarity * 100) / 100)%Q.

(** [freq.set(char, (freq.get(char) || 0) + 1)] for every code unit of the
    string. *)
Definition charFrequencies (str : jsstring) : gmap codeunit nat :=
  foldl (λ freq char, <[char := default 0 (freq !! char) + 1]> freq) ∅ str.

(** The loop of [failsFrequencyCheck] that sums the differences of the
    counts into [minEdits].  [allChars] is the set of the keys of both maps;
    the sum does not depend on the order in which the set is traversed. *)
Definition minEdits (str1 str2 : jsstring) : Z :=
  let freq1 := charFrequencies str1 in
  let freq2 := charFrequencies str2 in
  let allChars : gset codeunit := dom freq1 ∪ dom freq2 in
  set_fold (λ char minEdits,
              let count1 := default 0 (freq1 !! char) in
              let count2 := default 0 (freq2 !! char) in
              (minEdits + Z.abs (Z.of_nat count1 - Z.of_nat count2))%Z)
           0%Z allChars.

(** [return minEdits / 2 > maxDistance;] *)
Definition failsFrequencyCheck (str1 str2 : jsstring) (maxDistance : Q) : bool :=
  bool_decide (maxDistance < inject_Z (minEdits str1 str2) / 2)%Q.

(** The number of occurrences of a code unit in a string, and the sum of a
    function over a finite set of code units: what the frequency maps and
    [minEdits] hold. *)
Fixpoint occurrences (c : codeunit) (str : jsstring) : nat :=
  match str with
  | [] => 0
  | c' :: str' => (if decide (c' = c) then 1 else 0) + occurrences c str'
  end.

Definition sumOver (X : gset codeunit) (g : codeunit → Z) : Z :=
  set_fold (λ c acc, (acc + g c)%Z) 0%Z X.

Definition countDiff (str1 str2 : jsstring) (c : codeunit) : Z :=
  Z.abs (Z.of_nat (occurrences c str1) - Z.of_nat (occurrences c str2)).

(** ** levenshtein.ts, the version with the full table

    The version of [levenshteinDistance] before the rolling rows: it fills
    the whole table [dp] and, where the two code units are equal, copies the
    cell of the diagonal. *)
Module FullTable.

(** [Array(len1 + 1).fill(null).map(() => Array(len2 + 1).fill(0))]: every
    row is an array of its own. *)
Definition newTable (len1 len2 : nat) : list (list nat) :=
  replicate (len1 + 1) (replicate (len2 + 1) 0).

(** [dp[i][j] = v] *)
Definition setCell (dp : list (list nat)) (i j v : nat) : list (list nat) :=
  <[i := <[j := v]> (dp !!! i)]> dp.

(** The two loops of the base cases, [dp[i][0] = i] and [dp[0][j] = j]. *)
Definition baseCases (len1 len2 : nat) (dp : list (list nat))
    : list (list nat) :=
  let dp := foldl (λ dp i, setCell dp i 0 i) dp (seq 0 (len1 + 1)) in
  foldl (λ dp j, setCell dp 0 j j) dp (seq 0 (len2 + 1)).

(** The body of the inner loop, the value written to [dp[i][j]]. *)
Definition cellValue (str1 str2 : jsstring) (dp : list (list nat))
    (i j : nat) : nat :=
  if decide (str1 !! (i - 1) = str2 !! (j - 1))
  then (dp !!! (i - 1)) !!! (j - 1)
  else min3 ((dp !!! (i - 1)) !!! j + 1) ((dp !!! i) !!! (j - 1) + 1)
            ((dp !!! (i - 1)) !!! (j - 1) + 1).

(** [for (let j = 1; j <= len2; j++) ...], the row [i], and
    [for (let i = 1; i <= len1; i++) ...] *)
Definition fillTableRow (str1 str2 : jsstring) (dp : list (list nat))
    (i : nat) : list (list nat) :=
  foldl (λ dp j, setCell dp i j (cellValue str1 str2 dp i j))
        dp (seq 1 (length str2)).

Definition fillTable (str1 str2 : jsstring) (dp : list (list nat))
    : list (list nat) :=
  foldl (fillTableRow str1 str2) dp (seq 1 (length str1)).

Definition levenshteinDistance (str1 str2 : jsstring) : nat :=
  let len1 := length str1 in
  let len2 := length str2 in
  let dp := newTable len1 len2 in
  let dp := baseCases len1 len2 dp in
  let dp := fillTable str1 str2 dp in
  (dp !!! len1) !!! len2.

(** The table while it is filled: the rows up to [i] hold the distances
    of the prefixes, and the rows after it their first cell. *)
Definition filledTo (str1 str2 : jsstring) (i : nat) (dp : list (list nat))
    : Prop :=
  length dp = length str1 + 1
  ∧ (∀ k, k ≤ i → dp !! k = Some (costRow str1 str2 k))
  ∧ (∀ k row, i < k → dp !! k = Some row →
       length row = length str2 + 1 ∧ row !! 0 = Some k).

End FullTable.

(** ** [normalizeCode]

    The three patterns work on code units (none has the [u] flag), and
    [replace] with a global pattern replaces the matches found from left to
    right, each search starting where the match before it ended. *)

(** The code units of [/], [*] and the space. *)
Definition slash : codeunit := 47%N.
Definition star : codeunit := 42%N.
Definition space : codeunit := 32%N.

(** The line terminators, which [.] does not match and before which [$]
    matches under the [m] flag: LF, CR, LS and PS. *)
Definition isLineTerminator (c : codeunit) : bool :=
  bool_decide (c ∈ [10; 13; 8232; 8233]%N).

(** What [\s] matches and [trim] removes: the white space and the line
    terminators of ECMAScript. *)
Definition isWhiteSpace (c : codeunit) : bool :=
  bool_decide (c ∈ [9; 10; 11; 12; 13; 32; 160; 5760; 8232; 8233; 8239; 8287;
                    12288; 65279]%N)
  || bool_decide (8192 ≤ c ≤ 8202)%N.

(** [.replace(/\/\/.*$/gm, '')]: a match starts at the first [//] and runs
    up to the next line terminator, or to the end of the text; the line
    terminator stays.  [inComment] tells whether the scan is inside a
    match. *)
Fixpoint removeLineComments (inComment : bool) (code : jsstring) : jsstring :=
  match code with
  | [] => []
  | c :: rest =>
      if inComment then
        if isLineTerminator c then c :: removeLineComments false rest
        else removeLineComments true rest
      else if decide (c = slash ∧ head rest = Some slash)
           then removeLineComments true rest
           else c :: removeLineComments false rest
  end.

(** The index of the first [*/] of a text, if there is one. *)
Fixpoint closingIndex (code : jsstring) : option nat :=
  match code with
  | [] => None
  | c :: rest =>
      if decide (c = star ∧ head rest = Some slash) then Some 0
      else S <$> closingIndex rest
  end.

(** [.replace(/\/\*(?:[^*]|\*(?!\/))*\*\//g, '')]: after [/*] the loop of
    the pattern takes every code unit but a [*] that is followed by [/], so
    it stops at the first [*/] after the [/*], where the pattern ends, or
    at the end of the text, where the pattern fails and the [/] stays.  A
    match is therefore a [/*], the text up to the first [*/] after it, and
    this [*/].  [skip] is the number of code units of the match that are
    still to be dropped. *)
Fixpoint removeBlockComments (skip : nat) (code : jsstring) : jsstring :=
  match code with
  | [] => []
  | c :: rest =>
      match skip with
      | S skip' => removeBlockComments skip' rest
      | 0 =>
          if decide (c = slash ∧ head rest = Some star) then
            match closingIndex (tail rest) with
            | Some k => removeBlockComments (k + 3) rest
            | None => c :: removeBlockComments 0 rest
            end
          else c :: removeBlockComments 0 rest
      end
  end.

(** [.replace(/\s+/g, ' ')]: every maximal run of white space becomes one
    space.  [inRun] tells whether the code unit before was white space. *)
Fixpoint collapseWhitespace (inRun : bool) (code : jsstring) : jsstring :=
  match code with
  | [] => []
  | c :: rest =>
      if isWhiteSpace c then
        if inRun then collapseWhitespace true rest
        else space :: collapseWhitespace true rest
      else c :: collapseWhitespace false rest
  end.

(** [.trim()] *)
Fixpoint trimStart (code : jsstring) : jsstring :=
  match code with
  | [] => []
  | c :: rest => if isWhiteSpace c then trimStart rest else code
  end.

Definition trimEnd (code : jsstring) : jsstring :=
  reverse (trimStart (reverse code)).

Definition trim (code : jsstring) : jsstring := trimEnd (trimStart code).

Definition normalizeCode (code : jsstring) : jsstring :=
  trim (collapseWhitespace false
          (removeBlockComments 0 (removeLineComments false code))).

(** Whether a text holds a [//], and whether it holds a [/*] with a [*/]
    after it, that is, a match of the patterns of the comments. *)
Fixpoint hasLineComment (code : jsstring) : bool :=
  match code with
  | [] => false
  | c :: rest =>
      bool_decide (c = slash ∧ head rest = Some slash) || hasLineComment rest
  end.

Fixpoint hasBlockComment (code : jsstring) : bool :=
  match code with
  | [] => false
  | c :: rest =>
      bool_decide (c = slash ∧ head rest = Some star)
        && bool_decide (is_Some (closingIndex (tail rest)))
      || hasBlockComment rest
  end.

(** White space in a text is single spaces: every white-space code unit is
    a space and is not followed by white space. *)
Fixpoint singleSpaces (code : jsstring) : bool :=
  match code with
  | [] => true
  | c :: rest =>
      (if isWhiteSpace c
       then bool_decide (c = space)
            && negb (from_option isWhiteSpace false (head rest))
       else true)
      && singleSpaces rest
  end.

(** ** [Array.prototype.sort]

    The sort of an array by a comparison function is stable (ECMAScript
    2019, 23.1.3.30); with a comparison function that is a total preorder
    every stable sort returns the same array, the one built here by
    inserting each element, from the last to the first, in front of the
    elements it does not have to follow. *)
Section arraySort.
Context {A : Type} (compareFn : A → A → Q).

Fixpoint insertSorted (x : A) (l : list A) : list A :=
  match l with
  | [] => [x]
  | y :: l' =>
      if decide (compareFn x y <= 0)%Q then x :: y :: l'
      else y :: insertSorted x l'
  end.

Definition arraySort (l : list A) : list A := foldr insertSorted [] l.
End arraySort.

(** The order of a sorted array whose elements carry a [key]: a larger key
    first, and among equal keys the order [earlier] in which the elements
    were pushed. *)
Definition ranked {A : Type} (key : A → Q) (earlier : relation A) : relation A :=
  λ a b, (key b < key a)%Q ∨ (key a == key b ∧ earlier a b).

(** The pairs [(i, j)] of a strip of the upper triangle in the order of the
    two nested loops, [start <= i < start + count] and [i < j < len], and
    what the body of the loops pushes for each. *)
Definition pairLoop {B : Type} (start count len : nat)
    (body : nat → nat → list B) : list B :=
  i ← seq start count; j ← seq (i + 1) (len - (i + 1)); body i j.

(** The order of the pairs: [(i, j)] before [(i', j')]. *)
Definition pairBefore (p q : nat * nat) : Prop :=
  p.1 < q.1 ∨ (p.1 = q.1 ∧ p.2 < q.2).

(** ** functionExtractor.ts: the fragment records *)

Record ExtractedFunction := {
  name : jsstring;
  code : jsstring;
  normalizedCode : jsstring;
  filePath : jsstring;
  startLine : Z;
  endLine : Z;
}.

#[global] Instance ExtractedFunction_inhabited : Inhabited ExtractedFunction :=
  populate {| name := []; code := []; normalizedCode := []; filePath := [];
              startLine := 0; endLine := 0 |}.

(** ** comparator.ts *)

Record FunctionReference := {
  refName : jsstring;
  refFilePath : jsstring;
  refStartLine : Z;
  refEndLine : Z;
}.

Record SimilarityResult := {
  function1 : FunctionReference;
  function2 : FunctionReference;
  similarityScore : Q;
  normalizedScore : Q;
  lines1 : Z;
  lines2 : Z;
}.

(** The fields are optional; a field that is absent is [None]. *)
Record ComparisonOptions := {
  minSimilarity : option Q;
  minLines : option Q;
  normalize : option bool;
  excludeSelf : option bool;
}.

(** [options = {}] *)
Definition noOptions : ComparisonOptions :=
  {| minSimilarity := None; minLines := None; normalize := None;
     excludeSelf := None |}.

(** [{ name: f.name, filePath: f.filePath, startLine: f.startLine,
      endLine: f.endLine }] *)
Definition reference (f : ExtractedFunction) : FunctionReference :=
  {| refName := name f; refFilePath := filePath f;
     refStartLine := startLine f; refEndLine := endLine f |}.

(** [f.endLine - f.startLine + 1] *)
Definition lineCount (f : ExtractedFunction) : Z :=
  (endLine f - startLine f + 1)%Z.

(** [func1.filePath === func2.filePath && func1.startLine === func2.startLine] *)
Definition sameIdentity (func1 func2 : ExtractedFunction) : Prop :=
  filePath func1 = filePath func2 ∧ startLine func1 = startLine func2.

#[global] Instance sameIdentity_dec func1 func2 :
  Decision (sameIdentity func1 func2).
Proof. unfold sameIdentity. apply _. Defined.

(** [minLines > 0 ? functions.filter((f) => f.endLine - f.startLine + 1 >= minLines) : functions] *)
Definition filterByMinLines (minLines : Q)
    (functions : list ExtractedFunction) : list ExtractedFunction :=
  if decide (0 < minLines)%Q
  then filter (λ f, (minLines <= inject_Z (lineCount f))%Q) functions
  else functions.

(** Filter 1, [(minLength / maxLength) * 100 < minSimilarity].  When both
    texts are empty the quotient is [0 / 0], that is [NaN], and a comparison
    with [NaN] is false. *)
Definition failsRatioCheck (len1 len2 : Z) (minSimilarity : Q) : bool :=
  let maxLength := Z.max len1 len2 in
  let minLength := Z.min len1 len2 in
  if decide (maxLength = 0)%Z then false
  else bool_decide
         ((inject_Z minLength / inject_Z maxLength) * 100 < minSimilarity)%Q.

(** Filter 2, [Math.abs(len1 - len2) > maxAllowedDiff] with
    [maxAllowedDiff = Math.floor(maxLength * (1 - minSimilarity / 100))]. *)
Definition failsAbsDiffCheck (len1 len2 : Z) (minSimilarity : Q) : bool :=
  let maxAllowedDiff := distanceCeiling (Z.max len1 len2) minSimilarity in
  bool_decide (maxAllowedDiff < Z.abs (len1 - len2))%Z.

(** Filter 3, [minSimilarity > 0 && failsFrequencyCheck(norm1, norm2, maxAllowedDiff)]. *)
Definition failsFrequencyFilter (norm1 norm2 : jsstring)
    (minSimilarity : Q) : bool :=
  let len1 := Z.of_nat (length norm1) in
  let len2 := Z.of_nat (length norm2) in
  let maxAllowedDiff := distanceCeiling (Z.max len1 len2) minSimilarity in
  bool_decide (0 < minSimilarity)%Q
  && failsFrequencyCheck norm1 norm2 (inject_Z maxAllowedDiff).

(** The three filters in the order of the source; [true] when the pair is
    skipped. *)
Definition prunes (norm1 norm2 : jsstring) (minSimilarity : Q) : bool :=
  let len1 := Z.of_nat (length norm1) in
  let len2 := Z.of_nat (length norm2) in
  failsRatioCheck len1 len2 minSimilarity
  || failsAbsDiffCheck len1 len2 minSimilarity
  || failsFrequencyFilter norm1 norm2 minSimilarity.

(** What is left of the body of the inner loop once the pair was not skipped
    as a self pair: the filters, the two scores and the result pushed, if
    any.  [raw1] and [raw2] are the raw codes of the two functions. *)
Definition scorePair (minSimilarity : Q) (normalize : bool)
    (func1 func2 : ExtractedFunction) (raw1 raw2 : jsstring)
    : list SimilarityResult :=
  let norm1 := if normalize then normalizedCode func1 else code func1 in
  let norm2 := if normalize then normalizedCode func2 else code func2 in
  if prunes norm1 norm2 minSimilarity then []
  else
    let normalizedScore :=
      calculateSimilarityWithThreshold norm1 norm2 (Some minSimilarity) in
    if decide (minSimilarity <= normalizedScore)%Q then
      let rawScore :=
        if normalize
        then calculateSimilarityWithThreshold raw1 raw2 (Some minSimilarity)
        else normalizedScore in
      [ {| function1 := reference func1; function2 := reference func2;
           similarityScore := rawScore; normalizedScore := normalizedScore;
           lines1 := lineCount func1; lines2 := lineCount func2 |} ]
    else [].

(** [results.sort((a, b) => b.normalizedScore - a.normalizedScore)] *)
Definition byScoreDescending (a b : SimilarityResult) : Q :=
  (normalizedScore b - normalizedScore a)%Q.

Definition compareAll (functions : list ExtractedFunction)
    (options : ComparisonOptions) : list SimilarityResult :=
  let minSimilarity := default 0%Q (minSimilarity options) in
  let minLines := default 0%Q (minLines options) in
  let normalize := default true (normalize options) in
  let excludeSelf := default true (excludeSelf options) in
  let filteredFunctions := filterByMinLines minLines functions in
  let rawCodes := code <$> filteredFunctions in
  let results :=
    i ← seq 0 (length filteredFunctions);
    let func1 := filteredFunctions !!! i in
    j ← seq (i + 1) (length filteredFunctions - (i + 1));
    let func2 := filteredFunctions !!! j in
    if decide (excludeSelf = true ∧ sameIdentity func1 func2) then []
    else scorePair minSimilarity normalize func1 func2
                   (rawCodes !!! i) (rawCodes !!! j) in
  arraySort byScoreDescending results.

(** [findDuplicates] *)
Definition findDuplicates (functions : list ExtractedFunction)
    (threshold : option Q) : list SimilarityResult :=
  compareAll functions
    {| minSimilarity := Some (default 90%Q threshold); minLines := None;
       normalize := Some true; excludeSelf := Some true |}.

(** [compareOne]: no filter chain, the unconstrained scorer, and the raw
    score computed for every candidate. *)
Definition compareOne (targetFunction : ExtractedFunction)
    (allFunctions : list ExtractedFunction) (options : ComparisonOptions)
    : list SimilarityResult :=
  let minSimilarity := default 0%Q (minSimilarity options) in
  let minLines := default 0%Q (minLines options) in
  let normalize := default true (normalize options) in
  let lines1 := lineCount targetFunction in
  if decide (0 < minLines ∧ inject_Z lines1 < minLines)%Q then []
  else
    let results :=
      func ← allFunctions;
      let lines2 := lineCount func in
      if decide (0 < minLines ∧ inject_Z lines2 < minLines)%Q then []
      else if decide (sameIdentity func targetFunction) then []
      else
        let normalizedScore :=
          if normalize
          then calculateSimilarity (normalizedCode targetFunction)
                                   (normalizedCode func)
          else calculateSimilarity (code targetFunction) (code func) in
        let rawScore :=
          calculateSimilarity (code targetFunction) (code func) in
        if decide (minSimilarity <= normalizedScore)%Q then
          [ {| function1 := reference targetFunction;
               function2 := reference func;
               similarityScore := rawScore;
               normalizedScore := normalizedScore;
               lines1 := lines1; lines2 := lines2 |} ]
        else [] in
    arraySort byScoreDescending results.

(** What the nested loops over [filteredFunctions] push before the sort,
    each result with the pair [(i, j)] it is pushed for.  With
    [excludeSelf] the pairs of two functions of the same identity are
    skipped first, as in [compareAll]; without, no pair is, as in the
    worker.  This is the list the statements about the order of the output
    refer to. *)
Definition emittedPairs (excludeSelf : bool) (minSimilarity : Q)
    (normalize : bool) (filteredFunctions : list ExtractedFunction)
    : list (nat * nat * SimilarityResult) :=
  pairLoop 0 (length filteredFunctions) (length filteredFunctions)
    (λ i j,
       let func1 := filteredFunctions !!! i in
       let func2 := filteredFunctions !!! j in
       if decide (excludeSelf = true ∧ sameIdentity func1 func2) then []
       else (λ r, (i, j, r))
              <$> scorePair minSimilarity normalize func1 func2
                    (code func1) (code func2)).

(** A larger normalized score first, and among equal scores the pair
    pushed first. *)
Definition rankedPairs : relation (nat * nat * SimilarityResult) :=
  ranked (λ p, normalizedScore p.2) (λ p q, pairBefore p.1 q.1).

(** ** worker.ts *)

Module Worker.

Record WorkerData := {
  functions : list ExtractedFunction;
  startIdx : nat;
  endIdx : nat;
  minSimilarity : Q;
  normalize : bool;
}.

Record WorkerResult := {
  idx1 : nat;
  idx2 : nat;
  normalizedScore : Q;
  rawScore : Q;
  lines1 : Z;
  lines2 : Z;
}.

(** The body of the inner loop of the worker for the pair [(i, j)]. *)
Definition scorePair (minSimilarity : Q) (normalize : bool)
    (functions : list ExtractedFunction) (i j : nat) : list WorkerResult :=
  let func1 := functions !!! i in
  let norm1 := if normalize then normalizedCode func1 else code func1 in
  let func2 := functions !!! j in
  let norm2 := if normalize then normalizedCode func2 else code func2 in
  if prunes norm1 norm2 minSimilarity then []
  else
    let normalizedScore :=
      calculateSimilarityWithThreshold norm1 norm2 (Some minSimilarity) in
    if decide (minSimilarity <= normalizedScore)%Q then
      let rawScore :=
        if normalize
        then calculateSimilarityWithThreshold (code func1) (code func2)
               (Some minSimilarity)
        else normalizedScore in
      [ {| idx1 := i; idx2 := j; normalizedScore := normalizedScore;
           rawScore := rawScore; lines1 := lineCount func1;
           lines2 := lineCount func2 |} ]
    else [].

(** The list posted to the parent: the rows [startIdx <= i < endIdx],
    each against every [j] after [i]. *)
Definition run (workerData : WorkerData) : list WorkerResult :=
  let functions := functions workerData in
  i ← seq (startIdx workerData) (endIdx workerData - startIdx workerData);
  j ← seq (i + 1) (length functions - (i + 1));
  scorePair (minSimilarity workerData) (normalize workerData) functions i j.

End Worker.

(** ** comparatorParallel.ts *)

(** [Math.ceil(n / numWorkers)] *)
Definition ceilDiv (n numWorkers : nat) : nat :=
  Z.to_nat (Qceiling (inject_Z (Z.of_nat n) / inject_Z (Z.of_nat numWorkers))).

(** The loop that starts the workers, over the remaining values of [w]:
    the row ranges handed out, until [startIdx >= length] breaks the loop. *)
Fixpoint chunkRanges (chunkSize len : nat) (ws : list nat) : list (nat * nat) :=
  match ws with
  | [] => []
  | w :: ws' =>
      let startIdx := w * chunkSize in
      let endIdx := Nat.min ((w + 1) * chunkSize) len in
      if decide (len ≤ startIdx) then []
      else (startIdx, endIdx) :: chunkRanges chunkSize len ws'
  end.

(** The conversion of a worker result in the merge loop. *)
Definition toSimilarityResult (filteredFunctions : list ExtractedFunction)
    (result : Worker.WorkerResult) : SimilarityResult :=
  let func1 := filteredFunctions !!! Worker.idx1 result in
  let func2 := filteredFunctions !!! Worker.idx2 result in
  {| function1 := reference func1; function2 := reference func2;
     similarityScore := Worker.rawScore result;
     normalizedScore := Worker.normalizedScore result;
     lines1 := Worker.lines1 result; lines2 := Worker.lines2 result |}.

(** [compareAllParallel]; [numCores] is [os.cpus().length].  The workers are
    pure, so each promise resolves with the list its worker posts, and
    [Promise.all] yields these lists in the order in which the workers were
    started, whatever the order in which they finish. *)
Definition compareAllParallel (numCores : nat)
    (functions : list ExtractedFunction) (options : ComparisonOptions)
    : list SimilarityResult :=
  let minSimilarity := default 0%Q (minSimilarity options) in
  let minLines := default 0%Q (minLines options) in
  let normalize := default true (normalize options) in
  let filteredFunctions := filterByMinLines minLines functions in
  if decide (length filteredFunctions < 100) then
    compareAll filteredFunctions options
  else
    let numWorkers := Nat.max 1 (Nat.min (numCores - 1) 8) in
    let chunkSize := ceilDiv (length filteredFunctions) numWorkers in
    let allWorkerResults :=
      (λ '(startIdx, endIdx),
         Worker.run {| Worker.functions := filteredFunctions;
                       Worker.startIdx := startIdx;
                       Worker.endIdx := endIdx;
                       Worker.minSimilarity := minSimilarity;
                       Worker.normalize := normalize |})
      <$> chunkRanges chunkSize (length filteredFunctions) (seq 0 numWorkers) in
    let mergedResults :=
      workerResults ← allWorkerResults;
      result ← workerResults;
      [toSimilarityResult filteredFunctions result] in
    arraySort byScoreDescending mergedResults.

(** [compareAllFast] *)
Definition compareAllFast (numCores : nat)
    (functions : list ExtractedFunction) (options : ComparisonOptions)
    : list SimilarityResult :=
  let minLines := default 0%Q (minLines options) in
  let filteredFunctions := filterByMinLines minLines functions in
  if decide (500 ≤ length filteredFunctions)
  then compareAllParallel numCores functions options
  else compareAll functions options.

(** ** The statements about the results

    The notions the statements about the two drivers are made of. *)

(** Two references with the same identity: file path and start line. *)
Definition sameReference (ref1 ref2 : FunctionReference) : Prop :=
  refFilePath ref1 = refFilePath ref2 ∧ refStartLine ref1 = refStartLine ref2.

(** The invariant of a result: the score is a percentage, it reaches the
    threshold configured, and the result is made of two functions of the
    input, the first one at the lower index. *)
Definition validResult (functions : list ExtractedFunction)
    (options : ComparisonOptions) (r : SimilarityResult) : Prop :=
  (0 <= normalizedScore r)%Q ∧ (normalizedScore r <= 100)%Q
  ∧ (default 0%Q (minSimilarity options) <= normalizedScore r)%Q
  ∧ ∃ i j func1 func2,
      i < j ∧ functions !! i = Some func1 ∧ functions !! j = Some func2
      ∧ function1 r = reference func1 ∧ function2 r = reference func2.

(** [(i, j, r)]: the result [r] is the pair of the functions at the indices
    [i < j] of the sequence compared. *)
Definition pairOf (filteredFunctions : list ExtractedFunction)
    (p : nat * nat * SimilarityResult) : Prop :=
  p.1.1 < p.1.2
  ∧ ∃ func1 func2,
      filteredFunctions !! p.1.1 = Some func1
      ∧ filteredFunctions !! p.1.2 = Some func2
      ∧ function1 p.2 = reference func1 ∧ function2 p.2 = reference func2.

(** The order of an output: descending by normalized score, and it is the
    list of the results of a list of pairs in which, among equal scores,
    the pair of the lower [(i, j)] comes first. *)
Definition sortedOutput (filteredFunctions : list ExtractedFunction)
    (output : list SimilarityResult) : Prop :=
  StronglySorted (λ a b, normalizedScore b <= normalizedScore a)%Q output
  ∧ ∃ pairs : list (nat * nat * SimilarityResult),
      pairs.*2 = output
      ∧ Forall (pairOf filteredFunctions) pairs
      ∧ StronglySorted rankedPairs pairs.

(** [{ ...options, excludeSelf }] and [{ ...options, minLines: undefined }] *)
Definition withExcludeSelf (b : option bool) (options : ComparisonOptions)
    : ComparisonOptions :=
  {| minSimilarity := minSimilarity options; minLines := minLines options;
     normalize := normalize options; excludeSelf := b |}.

Definition withoutMinLines (options : ComparisonOptions) : ComparisonOptions :=
  {| minSimilarity := minSimilarity options; minLines := None;
     normalize := normalize options; excludeSelf := excludeSelf options |}.

(** [{ ...options, minSimilarity }] *)
Definition withMinSimilarity (m : Q) (options : ComparisonOptions)
    : ComparisonOptions :=
  {| minSimilarity := Some m; minLines := minLines options;
     normalize := normalize options; excludeSelf := excludeSelf options |}.

(** The text of a function that is compared: [normalize ? f.normalizedCode
    : f.code]. *)
Definition comparedText (normalize : bool) (f : ExtractedFunction) : jsstring :=
  if normalize then normalizedCode f else code f.

(** ** Concrete inputs *)

(** A one-line function [x] of the file [a.ts]; the functions [0] and [1]
    are both at line 1, as when a file is handed over twice. *)
Definition lineFunction (k : nat) : ExtractedFunction :=
  {| name := js "f"; code := js "x"; normalizedCode := js "x";
     filePath := js "a.ts";
     startLine := Z.of_nat (Nat.max k 1); endLine := Z.of_nat (Nat.max k 1) |}.

(** A hundred functions, two of which share their identity. *)
Definition hundredFunctions : list ExtractedFunction :=
  lineFunction <$> seq 0 100.

(** The scenario of the specification for [minLines]: a function of three
    lines and one of ten. *)
Definition threeLines : ExtractedFunction :=
  {| name := js "small"; code := js "a b c"; normalizedCode := js "a b c";
     filePath := js "a.ts"; startLine := 1; endLine := 3 |}.

Definition tenLines : ExtractedFunction :=
  {| name := js "large"; code := js "a b d"; normalizedCode := js "a b d";
     filePath := js "a.ts"; startLine := 5; endLine := 14 |}.

(** What the loop of [compareOne] pushes for one function of
    [allFunctions], and the results pushed for a list of functions, each
    with the index of its function, from [start] on. *)
Definition compareOneBody (targetFunction : ExtractedFunction)
    (options : ComparisonOptions) (func : ExtractedFunction)
    : list SimilarityResult :=
  let minSimilarity := default 0%Q (minSimilarity options) in
  let minLines := default 0%Q (minLines options) in
  let normalize := default true (normalize options) in
  if decide (0 < minLines ∧ inject_Z (lineCount func) < minLines)%Q then []
  else if decide (sameIdentity func targetFunction) then []
  else
    let normalizedScore :=
      if normalize
      then calculateSimilarity (normalizedCode targetFunction)
                               (normalizedCode func)
      else calculateSimilarity (code targetFunction) (code func) in
    if decide (minSimilarity <= normalizedScore)%Q then
      [ {| function1 := reference targetFunction;
           function2 := reference func;
           similarityScore :=
             calculateSimilarity (code targetFunction) (code func);
           normalizedScore := normalizedScore;
           lines1 := lineCount targetFunction; lines2 := lineCount func |} ]
    else [].

Fixpoint indexedFrom {A B : Type} (start : nat) (body : A → list B)
    (l : list A) : list (nat * B) :=
  match l with
  | [] => []
  | x :: l' => ((λ r, (start, r)) <$> body x) ++ indexedFrom (S start) body l'
  end.

(** The two one-line functions of the scenario of the specification. *)
Definition addFunction : ExtractedFunction :=
  {| name := js "f"; code := js "function f(a,b){return a+b;}";
     normalizedCode := js "function f(a,b){return a+b;}";
     filePath := js "a.ts"; startLine := 1; endLine := 1 |}.

Definition sumFunction : ExtractedFunction :=
  {| name := js "g"; code := js "function g(x,y){return x+y;}";
     normalizedCode := js "function g(x,y){return x+y;}";
     filePath := js "a.ts"; startLine := 2; endLine := 2 |}.

(** * Properties *)

(** ** Edit scripts *)

Section edit_scripts.
Implicit Types (s t u v : jsstring) (a b c : codeunit).

Lemma edit1_cons a s t : edit1 s t → edit1 (a :: s) (a :: t).
Proof.
  destruct 1 as [u c v | u c v | u c c' v].
  - apply (edit1_insert (a :: u)).
  - apply (edit1_delete (a :: u)).
  - apply (edit1_subst (a :: u)).
Qed.

Lemma edit1_sym s t : edit1 s t → edit1 t s.
Proof. destruct 1; constructor. Qed.

Lemma edit1_rev s t : edit1 s t → edit1 (reverse s) (reverse t).
Proof.
  destruct 1 as [u c v | u c v | u c c' v];
    rewrite ?reverse_app, ?reverse_cons, <- ?(assoc_L (++)); constructor.
Qed.

Lemma edits_cons a n s t : edits n s t → edits n (a :: s) (a :: t).
Proof.
  induction 1 as [s | n s t u Hst _ IH]; [constructor |].
  eapply edits_step; [apply edit1_cons, Hst | exact IH].
Qed.

Lemma edits_app n m s t u :
  edits n s t → edits m t u → edits (n + m) s u.
Proof.
  induction 1 as [s | n s t' t Hst _ IH]; intros Htu; [exact Htu |].
  simpl. eapply edits_step; [exact Hst | apply IH, Htu].
Qed.

Lemma edits_one s t : edit1 s t → edits 1 s t.
Proof. intros H. eapply edits_step; [exact H | constructor]. Qed.

Lemma edits_sym n s t : edits n s t → edits n t s.
Proof.
  induction 1 as [s | n s t u Hst _ IH]; [constructor |].
  replace (S n) with (n + 1) by lia.
  eapply edits_app; [exact IH | apply edits_one, edit1_sym, Hst].
Qed.

Lemma edits_rev n s t : edits n s t → edits n (reverse s) (reverse t).
Proof.
  induction 1 as [s | n s t u Hst _ IH]; [constructor |].
  eapply edits_step; [apply edit1_rev, Hst | exact IH].
Qed.

(** Inserting every element of [t] into the empty string. *)
Lemma edits_from_nil t : edits (length t) [] t.
Proof.
  induction t as [| b t IH]; [constructor |].
  simpl. replace (S (length t)) with (length t + 1) by lia.
  eapply edits_app; [exact IH |]. apply edits_one, (edit1_insert []).
Qed.

Lemma edit1_length s t :
  edit1 s t → length s ≤ S (length t) ∧ length t ≤ S (length s).
Proof. destruct 1; rewrite ?length_app; simpl; lia. Qed.

Lemma edits_length n s t :
  edits n s t → length s ≤ length t + n ∧ length t ≤ length s + n.
Proof.
  induction 1 as [s | n s t u Hst _ IH]; [lia |].
  apply edit1_length in Hst. lia.
Qed.
End edit_scripts.

(** ** The recursion [lev] computes the least number of edits *)

Section lev_facts.
Implicit Types (s t u v : jsstring) (a b c : codeunit).

Lemma lev_nil_l t : lev [] t = length t.
Proof. by destruct t. Qed.

Lemma lev_nil_r s : lev s [] = length s.
Proof. by destruct s. Qed.

Lemma lev_cons a s b t :
  lev (a :: s) (b :: t) =
    min3 (lev s (b :: t) + 1) (lev (a :: s) t + 1)
         (lev s t + if decide (a = b) then 0 else 1).
Proof. reflexivity. Qed.

Lemma lev_refl s : lev s s = 0.
Proof.
  induction s as [| a s IH]; [done |].
  rewrite lev_cons, IH, decide_True by done. unfold min3. lia.
Qed.

Lemma lev_cons_l a s t : lev (a :: s) t ≤ S (lev s t).
Proof.
  destruct t as [| b t]; [rewrite !lev_nil_r; simpl; lia |].
  rewrite lev_cons. unfold min3. lia.
Qed.

Lemma lev_cons_r s b t : lev s (b :: t) ≤ S (lev s t).
Proof.
  destruct s as [| a s]; [rewrite !lev_nil_l; simpl; lia |].
  rewrite lev_cons. unfold min3. lia.
Qed.

Lemma lev_uncons_l a s t : lev s t ≤ S (lev (a :: s) t).
Proof.
  induction t as [| b t IH]; [rewrite !lev_nil_r; simpl; lia |].
  rewrite lev_cons. pose proof (lev_cons_r s b t). unfold min3.
  case_decide; lia.
Qed.

Lemma lev_subst_l a a' s t : lev (a :: s) t ≤ S (lev (a' :: s) t).
Proof.
  induction t as [| b t IH]; [rewrite !lev_nil_r; simpl; lia |].
  rewrite !lev_cons. unfold min3. repeat case_decide; lia.
Qed.

(** One edit of the first string changes [lev] by one at most. *)
Lemma lev_edit1_l s s' t : edit1 s s' → lev s t ≤ S (lev s' t).
Proof.
  intros H. revert t.
  assert (Hctx : ∀ u s0 s0',
    (∀ t, lev s0 t ≤ S (lev s0' t)) → ∀ t, lev (u ++ s0) t ≤ S (lev (u ++ s0') t)).
  { induction u as [| a u IHu]; intros s0 s0' H0; [exact H0 |].
    specialize (IHu _ _ H0). rewrite <- !app_comm_cons.
    induction t as [| b t IHt].
    - rewrite !lev_nil_r. specialize (IHu []). rewrite !lev_nil_r in IHu.
      simpl. lia.
    - rewrite !lev_cons. unfold min3.
      pose proof (IHu (b :: t)). pose proof (IHu t). case_decide; lia. }
  destruct H as [u c v | u c v | u c c' v]; apply Hctx; intros t.
  - apply lev_uncons_l.
  - apply lev_cons_l.
  - apply lev_subst_l.
Qed.

Lemma lev_lower n s t : edits n s t → lev s t ≤ n.
Proof.
  induction 1 as [s | n s t u Hst _ IH]; [by rewrite lev_refl |].
  pose proof (lev_edit1_l _ _ u Hst). lia.
Qed.

Lemma lev_upper s t : edits (lev s t) s t.
Proof.
  revert t. induction s as [| a s IHs]; intros t.
  { rewrite lev_nil_l. apply edits_from_nil. }
  induction t as [| b t IHt].
  { rewrite lev_nil_r. apply edits_sym, (edits_from_nil (a :: s)). }
  rewrite lev_cons. unfold min3.
  destruct (Nat.min_spec (Nat.min (lev s (b :: t) + 1) (lev (a :: s) t + 1))
              (lev s t + if decide (a = b) then 0 else 1)) as [[_ ->] | [_ ->]].
  - destruct (Nat.min_spec (lev s (b :: t) + 1) (lev (a :: s) t + 1))
      as [[_ ->] | [_ ->]].
    + rewrite Nat.add_comm. eapply edits_step; [| apply IHs].
      apply (edit1_delete []).
    + eapply edits_app; [apply IHt |]. apply edits_one, (edit1_insert []).
  - case_decide as Hab.
    + subst b. rewrite Nat.add_0_r. apply edits_cons, IHs.
    + rewrite Nat.add_comm. eapply edits_step; [apply (edit1_subst [] a b) |].
      apply edits_cons, IHs.
Qed.

Lemma lev_is_edit_distance s t : is_edit_distance (lev s t) s t.
Proof. split; [apply lev_upper | intros n; apply lev_lower]. Qed.

Lemma is_edit_distance_unique d d' s t :
  is_edit_distance d s t → is_edit_distance d' s t → d = d'.
Proof. intros [H1 H2] [H1' H2']. apply Nat.le_antisymm; auto. Qed.

Lemma is_edit_distance_sym d s t :
  is_edit_distance d s t → is_edit_distance d t s.
Proof.
  intros [H1 H2]. split; [apply edits_sym, H1 |].
  intros n Hn. apply H2, edits_sym, Hn.
Qed.

Lemma is_edit_distance_rev d s t :
  is_edit_distance d (reverse s) (reverse t) → is_edit_distance d s t.
Proof.
  intros [H1 H2]. split.
  - apply edits_rev in H1. by rewrite !reverse_involutive in H1.
  - intros n Hn. apply H2, edits_rev, Hn.
Qed.

Lemma lev_sym s t : lev s t = lev t s.
Proof.
  eapply is_edit_distance_unique; [apply lev_is_edit_distance |].
  apply is_edit_distance_sym, lev_is_edit_distance.
Qed.

Lemma lev_rev s t : lev (reverse s) (reverse t) = lev s t.
Proof.
  eapply is_edit_distance_unique; [| apply lev_is_edit_distance].
  apply is_edit_distance_rev, lev_is_edit_distance.
Qed.

Lemma lev_length_diff s t :
  length s ≤ length t + lev s t ∧ length t ≤ length s + lev s t.
Proof. apply edits_length, lev_upper. Qed.

Lemma lev_le_max s t : lev s t ≤ Nat.max (length s) (length t).
Proof.
  revert t. induction s as [| a s IH]; intros t; [rewrite lev_nil_l; lia |].
  destruct t as [| b t]; [rewrite lev_nil_r; lia |].
  rewrite lev_cons. unfold min3. specialize (IH t). simpl.
  case_decide; lia.
Qed.
End lev_facts.

(** ** The rolling rows hold the rows of the cost table *)

(** A loop that writes the cells [start, start + n) of an array from left
    to right, each from the cells before it. *)
Lemma foldl_insert_seq (f : list nat → nat → nat) (g : nat → nat)
    (row0 : list nat) (start n : nat) :
  start + n ≤ length row0 →
  (∀ cur j, start ≤ j < start + n → length cur = length row0 →
            (∀ k, k < j → cur !! k = Some (g k)) → f cur j = g j) →
  (∀ k, k < start → row0 !! k = Some (g k)) →
  let r := foldl (λ cur j, <[j := f cur j]> cur) row0 (seq start n) in
  length r = length row0 ∧ ∀ k, k < start + n → r !! k = Some (g k).
Proof.
  intros Hlen Hf H0. cbv zeta. induction n as [| n IH].
  { simpl. split; [done |]. intros k Hk. apply H0. lia. }
  rewrite seq_S, foldl_snoc.
  destruct IH as [IHlen IHk]; [lia | intros; apply Hf; auto with lia |].
  set (cur := foldl _ row0 (seq start n)) in *.
  split; [by rewrite length_insert |].
  intros k Hk. destruct (decide (k = start + n)) as [-> | Hne].
  - rewrite list_lookup_insert_eq by lia. f_equal. apply Hf; auto with lia.
  - rewrite list_lookup_insert_ne by lia. apply IHk. lia.
Qed.

Section cost_rows.
Context (str1 str2 : jsstring).

Lemma cell_0_l j : cell str1 str2 0 j = Nat.min j (length str2).
Proof.
  unfold cell. rewrite take_0, lev_nil_l, length_reverse, length_take. done.
Qed.

Lemma cell_0_r i : cell str1 str2 i 0 = Nat.min i (length str1).
Proof.
  unfold cell. rewrite take_0, lev_nil_r, length_reverse, length_take. done.
Qed.

Lemma cell_S_S i j :
  i < length str1 → j < length str2 →
  cell str1 str2 (S i) (S j) =
    min3 (cell str1 str2 i (S j) + 1) (cell str1 str2 (S i) j + 1)
         (cell str1 str2 i j + if decide (str1 !! i = str2 !! j) then 0 else 1).
Proof.
  intros Hi Hj.
  destruct (lookup_lt_is_Some_2 str1 i Hi) as [a Ha].
  destruct (lookup_lt_is_Some_2 str2 j Hj) as [b Hb].
  unfold cell. rewrite (take_S_r str1 i a Ha), (take_S_r str2 j b Hb).
  rewrite !reverse_snoc, lev_cons, Ha, Hb.
  do 2 f_equal. repeat case_decide; congruence.
Qed.

Lemma cell_full :
  cell str1 str2 (length str1) (length str2) = lev str1 str2.
Proof. unfold cell. by rewrite !take_ge, lev_rev by lia. Qed.

Lemma length_costRow i : length (costRow str1 str2 i) = length str2 + 1.
Proof. unfold costRow. by rewrite length_fmap, length_seq. Qed.

Lemma lookup_costRow i j :
  j ≤ length str2 → costRow str1 str2 i !! j = Some (cell str1 str2 i j).
Proof.
  intros Hj. unfold costRow. rewrite list_lookup_fmap, lookup_seq_lt by lia.
  done.
Qed.

Lemma lookup_total_costRow i j :
  j ≤ length str2 → costRow str1 str2 i !!! j = cell str1 str2 i j.
Proof. intros Hj. apply list_lookup_total_correct, lookup_costRow, Hj. Qed.

Lemma costRow_intro i (row : list nat) :
  length row = length str2 + 1 →
  (∀ k, k < length str2 + 1 → row !! k = Some (cell str1 str2 i k)) →
  row = costRow str1 str2 i.
Proof.
  intros Hlen Hrow.
  apply (list_eq_same_length _ _ (length str2 + 1));
    [apply length_costRow | done |].
  intros k x y Hk Hx Hy. rewrite Hrow in Hx by done.
  rewrite lookup_costRow in Hy by lia. congruence.
Qed.

Lemma firstRow_costRow : firstRow (length str2) = costRow str1 str2 0.
Proof.
  unfold firstRow.
  destruct (foldl_insert_seq (λ _ j, j) (cell str1 str2 0)
              (newArray (length str2 + 1)) 0 (length str2 + 1)) as [Hl Hk].
  - unfold newArray. rewrite length_replicate. lia.
  - intros cur j Hj _ _. rewrite cell_0_l. lia.
  - intros k Hk. lia.
  - apply costRow_intro; [| exact Hk].
    rewrite Hl. unfold newArray. by rewrite length_replicate.
Qed.

(** The value the inner loop writes in column [j] of row [i]. *)
Lemma cellValue_cell i j (cur : list nat) :
  1 ≤ i ≤ length str1 → 1 ≤ j ≤ length str2 →
  (∀ k, k < j → cur !! k = Some (cell str1 str2 i k)) →
  cellValue str1 str2 i (costRow str1 str2 (i - 1)) cur j = cell str1 str2 i j.
Proof.
  intros Hi Hj Hcur. unfold cellValue, cellCost.
  destruct i as [| i]; [lia |]. destruct j as [| j]; [lia |].
  replace (S i - 1) with i by lia. replace (S j - 1) with j by lia.
  rewrite !lookup_total_costRow by lia.
  rewrite (list_lookup_total_correct cur j (cell str1 str2 (S i) j))
    by (apply Hcur; lia).
  rewrite cell_S_S by lia. done.
Qed.

Lemma fillRow_costRow i (currRow : list nat) :
  1 ≤ i ≤ length str1 → length currRow = length str2 + 1 →
  fillRow str1 str2 i (costRow str1 str2 (i - 1)) currRow
  = costRow str1 str2 i.
Proof.
  intros Hi Hlen. unfold fillRow.
  destruct (foldl_insert_seq
              (cellValue str1 str2 i (costRow str1 str2 (i - 1)))
              (cell str1 str2 i) (<[0 := i]> currRow) 1 (length str2))
    as [Hl Hk].
  - rewrite length_insert. lia.
  - intros cur j Hj _ Hcur. apply cellValue_cell; [lia | lia | exact Hcur].
  - intros k Hk. replace k with 0 by lia.
    rewrite list_lookup_insert_eq by lia. rewrite cell_0_r. f_equal. lia.
  - apply costRow_intro.
    + rewrite Hl, length_insert. done.
    + intros k Hk'. apply Hk. lia.
Qed.

Lemma rowLoop_costRow k : ∀ i (currRow : list nat),
  i + k ≤ length str1 → length currRow = length str2 + 1 →
  rowLoop str1 str2 (seq (S i) k) (costRow str1 str2 i) currRow
  = costRow str1 str2 (i + k).
Proof.
  induction k as [| k IH]; intros i currRow Hi Hlen; simpl.
  { f_equal. lia. }
  replace (costRow str1 str2 i) with (costRow str1 str2 (S i - 1)) at 1
    by (f_equal; lia).
  rewrite fillRow_costRow by (done || lia).
  replace (S i - 1) with i by lia.
  rewrite IH by (rewrite ?length_costRow; lia). f_equal. lia.
Qed.

Lemma distanceRows_lev : distanceRows str1 str2 = lev str1 str2.
Proof.
  unfold distanceRows. rewrite firstRow_costRow.
  rewrite rowLoop_costRow
    by (unfold newArray; rewrite ?length_replicate; lia).
  rewrite lookup_total_costRow by lia. apply cell_full.
Qed.

(** Every cell of a row is at least the least cell of the row before. *)
Lemma cell_row_bound (m i : nat) :
  i < length str1 →
  (∀ j, j ≤ length str2 → m ≤ cell str1 str2 i j) →
  ∀ j, j ≤ length str2 → m ≤ cell str1 str2 (S i) j.
Proof.
  intros Hi Hrow. induction j as [| j IH]; intros Hj.
  - specialize (Hrow 0). rewrite cell_0_r in *. lia.
  - rewrite cell_S_S by lia. unfold min3.
    pose proof (Hrow (S j)). pose proof (Hrow j). case_decide; lia.
Qed.

Lemma cell_rows_bound (m i k : nat) :
  i + k ≤ length str1 →
  (∀ j, j ≤ length str2 → m ≤ cell str1 str2 i j) →
  ∀ j, j ≤ length str2 → m ≤ cell str1 str2 (i + k) j.
Proof.
  induction k as [| k IH]; intros Hk Hrow.
  { by rewrite Nat.add_0_r. }
  replace (i + S k) with (S (i + k)) by lia.
  apply cell_row_bound; [lia |]. apply IH; [lia | done].
Qed.
End cost_rows.

(** ** The thresholded rows *)

Section threshold_rows.
Context (str1 str2 : jsstring).

(** The row written by the thresholded inner loop is the row written by
    the plain one. *)
Lemma fillRowMin_fst i (prevRow currRow : list nat) :
  (fillRowMin str1 str2 i prevRow currRow).1
  = fillRow str1 str2 i prevRow currRow.
Proof.
  unfold fillRowMin, fillRow.
  set (F := λ '(cur, minInRow) j, _).
  set (G := λ cur j, _).
  assert (H : ∀ cols cur m, (foldl F (cur, m) cols).1 = foldl G cur cols).
  { intros cols. induction cols as [| j cols IH]; intros cur m; [done |].
    simpl. apply IH. }
  apply H.
Qed.

(** [minInRow] is below every cell of the row. *)
Lemma fillRowMin_snd i (currRow : list nat) :
  1 ≤ i ≤ length str1 → length currRow = length str2 + 1 →
  ∀ j, j ≤ length str2 →
    (fillRowMin str1 str2 i (costRow str1 str2 (i - 1)) currRow).2
    ≤ cell str1 str2 i j.
Proof.
  intros Hi Hlen. unfold fillRowMin.
  set (F := λ '(cur, minInRow) j, _).
  assert (Hn : ∀ n, n ≤ length str2 →
    let st := foldl F (<[0 := i]> currRow, i) (seq 1 n) in
    length st.1 = length str2 + 1
    ∧ (∀ k, k ≤ n → st.1 !! k = Some (cell str1 str2 i k))
    ∧ (∀ k, k ≤ n → st.2 ≤ cell str1 str2 i k)).
  { induction n as [| n IH]; intros Hn; cbv zeta.
    - simpl. rewrite length_insert. split; [done |].
      split; intros k Hk; replace k with 0 by lia; rewrite cell_0_r.
      + rewrite list_lookup_insert_eq by lia. f_equal. lia.
      + lia.
    - rewrite seq_S, foldl_snoc. destruct IH as (IHl & IHc & IHm); [lia |].
      destruct (foldl F _ (seq 1 n)) as [cur m]. simpl in *.
      assert (Hv : cellValue str1 str2 i (costRow str1 str2 (i - 1)) cur (S n)
                   = cell str1 str2 i (S n)).
      { apply cellValue_cell; [lia | lia |]. intros k Hk. apply IHc. lia. }
      rewrite Hv. rewrite list_lookup_total_insert_eq by lia.
      rewrite length_insert. split; [done |]. split; intros k Hk.
      + destruct (decide (k = S n)) as [-> | Hne].
        * by rewrite list_lookup_insert_eq by lia.
        * rewrite list_lookup_insert_ne by lia. apply IHc. lia.
      + destruct (decide (k = S n)) as [-> | Hne].
        * case_decide; lia.
        * specialize (IHm k). case_decide; lia. }
  intros j Hj. apply (Hn (length str2)); [lia | done].
Qed.

Lemma rowLoopThreshold_cases (maxDistance : option Z) k :
  ∀ i (currRow : list nat),
  i + k = length str1 → length currRow = length str2 + 1 →
  let r := rowLoopThreshold str1 str2 maxDistance (seq (S i) k)
             (costRow str1 str2 i) currRow in
  r = Z.of_nat (lev str1 str2)
  ∨ ∃ c, maxDistance = Some c ∧ r = (c + 1)%Z
         ∧ (c < Z.of_nat (lev str1 str2))%Z.
Proof.
  induction k as [| k IH]; intros i currRow Hi Hlen; cbv zeta; simpl.
  { left. rewrite lookup_total_costRow by lia.
    replace i with (length str1) by lia. by rewrite cell_full. }
  pose proof (fillRowMin_fst (S i) (costRow str1 str2 i) currRow) as Hfst.
  pose proof (fillRowMin_snd (S i) currRow) as Hsnd.
  replace (S i - 1) with i in Hsnd by lia.
  replace (costRow str1 str2 i) with (costRow str1 str2 (S i - 1)) in Hfst at 2
    by (f_equal; lia).
  rewrite fillRow_costRow in Hfst by (done || lia).
  destruct (fillRowMin str1 str2 (S i) (costRow str1 str2 i) currRow)
    as [currRow' minInRow]. simpl in Hfst, Hsnd. subst currRow'.
  unfold overThreshold. destruct maxDistance as [c |].
  - case_decide as Hc.
    + right. exists c. split; [done |]. split; [done |].
      assert (minInRow ≤ cell str1 str2 (S i + k) (length str2)) as Hm.
      { apply cell_rows_bound; [lia | | lia].
        intros j Hj. apply Hsnd; [lia | done | done]. }
      replace (S i + k) with (length str1) in Hm by lia.
      rewrite cell_full in Hm. lia.
    + apply (IH (S i)); [lia | apply (length_costRow str1 str2)].
  - apply (IH (S i)); [lia | apply (length_costRow str1 str2)].
Qed.

Lemma distanceRowsThreshold_cases (maxDistance : option Z) :
  let r := distanceRowsThreshold str1 str2 maxDistance in
  r = Z.of_nat (lev str1 str2)
  ∨ ∃ c, maxDistance = Some c ∧ r = (c + 1)%Z
         ∧ (c < Z.of_nat (lev str1 str2))%Z.
Proof.
  unfold distanceRowsThreshold. rewrite (firstRow_costRow str1 str2).
  apply rowLoopThreshold_cases; [lia |].
  unfold newArray. by rewrite length_replicate.
Qed.
End threshold_rows.

(** ** The two distance functions against [lev] *)

Lemma levenshteinDistance_lev (str1 str2 : jsstring) :
  levenshteinDistance str1 str2 = lev str1 str2.
Proof.
  unfold levenshteinDistance. repeat case_decide.
  - destruct str1; [by rewrite lev_nil_l | done].
  - destruct str2; [by rewrite lev_nil_r | done].
  - subst. by rewrite lev_refl.
  - by rewrite distanceRows_lev, lev_sym.
  - apply distanceRows_lev.
Qed.

(** The thresholded function returns the distance, or [maxDistance + 1]
    when the distance is above [maxDistance]. *)
Lemma levenshteinDistanceWithThreshold_cases (str1 str2 : jsstring)
    (maxDistance : option Z) :
  let r := levenshteinDistanceWithThreshold str1 str2 maxDistance in
  r = Z.of_nat (lev str1 str2)
  ∨ ∃ c, maxDistance = Some c ∧ r = (c + 1)%Z
         ∧ (c < Z.of_nat (lev str1 str2))%Z.
Proof.
  cbv zeta. unfold levenshteinDistanceWithThreshold. repeat case_decide.
  - left. destruct str1; [by rewrite lev_nil_l | done].
  - left. destruct str2; [by rewrite lev_nil_r | done].
  - left. subst. by rewrite lev_refl.
  - unfold overThreshold. destruct maxDistance as [c |]; [case_decide |].
    + right. exists c. pose proof (lev_length_diff str1 str2). split; [done |].
      split; [done | lia].
    + rewrite (lev_sym str1 str2). apply distanceRowsThreshold_cases.
    + rewrite (lev_sym str1 str2). apply distanceRowsThreshold_cases.
  - unfold overThreshold. destruct maxDistance as [c |]; [case_decide |].
    + right. exists c. pose proof (lev_length_diff str1 str2). split; [done |].
      split; [done | lia].
    + apply distanceRowsThreshold_cases.
    + apply distanceRowsThreshold_cases.
Qed.

Lemma levenshteinDistance_is_edit_distance (str1 str2 : jsstring) :
  is_edit_distance (levenshteinDistance str1 str2) str1 str2.
Proof. rewrite levenshteinDistance_lev. apply lev_is_edit_distance. Qed.

(** With a ceiling [c]: the distance when it is at most [c], and otherwise
    a value above [c] that is [c + 1] or the distance. *)
Lemma levenshteinDistanceWithThreshold_ceiling (str1 str2 : jsstring) (c : Z) :
  let d := Z.of_nat (levenshteinDistance str1 str2) in
  let r := levenshteinDistanceWithThreshold str1 str2 (Some c) in
  ((d ≤ c)%Z → r = d)
  ∧ ((c < d)%Z → (c < r)%Z ∧ (r = (c + 1)%Z ∨ r = d)).
Proof.
  cbv zeta. rewrite levenshteinDistance_lev.
  destruct (levenshteinDistanceWithThreshold_cases str1 str2 (Some c))
    as [-> | (c' & [= <-] & -> & Hc)].
  - split; [done |]. intros Hd. split; [done | by right].
  - split; [lia |]. intros _. split; [lia | by left].
Qed.

(** Without a ceiling the thresholded function is the plain one. *)
Lemma levenshteinDistanceWithThreshold_None (str1 str2 : jsstring) :
  levenshteinDistanceWithThreshold str1 str2 None
  = Z.of_nat (levenshteinDistance str1 str2).
Proof.
  rewrite levenshteinDistance_lev.
  destruct (levenshteinDistanceWithThreshold_cases str1 str2 None)
    as [-> | (c' & [=] & _)]. done.
Qed.

(** ** The frequency bound *)

Section sums.
Implicit Types (X Y : gset codeunit) (g h : codeunit → Z).

Lemma sumOver_empty g : sumOver ∅ g = 0%Z.
Proof. unfold sumOver. by rewrite set_fold_empty. Qed.

Lemma sumOver_insert x X g :
  x ∉ X → sumOver ({[x]} ∪ X) g = (sumOver X g + g x)%Z.
Proof.
  intros Hx. unfold sumOver, set_fold. simpl.
  assert (Hperm : ∀ l l' : list codeunit, l ≡ₚ l' →
    foldr (λ c acc, (acc + g c)%Z) 0%Z l = foldr (λ c acc, (acc + g c)%Z) 0%Z l').
  { induction 1; simpl; lia. }
  rewrite (Hperm _ _ (elements_union_singleton X x Hx)). done.
Qed.

Lemma sumOver_le X g h :
  (∀ c, c ∈ X → (g c ≤ h c)%Z) → (sumOver X g ≤ sumOver X h)%Z.
Proof.
  induction X as [| x X Hx IH] using set_ind_L; intros Hgh.
  { by rewrite !sumOver_empty. }
  rewrite !sumOver_insert by done.
  specialize (Hgh x ltac:(set_solver)) as Hx'.
  enough (sumOver X g ≤ sumOver X h)%Z by lia.
  apply IH. intros c Hc. apply Hgh. set_solver.
Qed.

Lemma sumOver_ext X g h :
  (∀ c, c ∈ X → g c = h c) → sumOver X g = sumOver X h.
Proof.
  intros Hgh. apply Z.le_antisymm; apply sumOver_le;
    intros c Hc; rewrite Hgh by done; lia.
Qed.

Lemma sumOver_plus X g h :
  sumOver X (λ c, (g c + h c)%Z) = (sumOver X g + sumOver X h)%Z.
Proof.
  induction X as [| x X Hx IH] using set_ind_L.
  { by rewrite !sumOver_empty. }
  rewrite !sumOver_insert by done. lia.
Qed.

Lemma sumOver_indicator X x :
  (sumOver X (λ c, if decide (c = x) then 1 else 0) ≤ 1)%Z.
Proof.
  induction X as [| y X Hy IH] using set_ind_L.
  { rewrite sumOver_empty. lia. }
  rewrite sumOver_insert by done. case_decide as Hyx; [| lia].
  subst y. enough (sumOver X (λ c, if decide (c = x) then 1 else 0) = 0)%Z by lia.
  rewrite <- (sumOver_empty (λ _, 0%Z)) at 1.
  transitivity (sumOver X (λ _, 0%Z)).
  - apply sumOver_ext. intros c Hc. case_decide; [set_solver | done].
  - clear. induction X as [| y X Hy IH] using set_ind_L; [done |].
    rewrite sumOver_insert, IH by done. by rewrite sumOver_empty.
Qed.

(** Elements at which the function is zero do not count. *)
Lemma sumOver_subseteq Y : ∀ X g,
  X ⊆ Y → (∀ c, c ∈ Y → c ∉ X → g c = 0%Z) → sumOver Y g = sumOver X g.
Proof.
  induction Y as [| y Y Hy IH] using set_ind_L; intros X g HXY Hzero.
  { by replace X with (∅ : gset codeunit) by set_solver. }
  rewrite sumOver_insert by done.
  destruct (decide (y ∈ X)) as [HyX | HyX].
  - replace X with ({[y]} ∪ X ∖ {[y]})
      by (apply set_eq; intros c; destruct (decide (c = y)); set_solver).
    rewrite sumOver_insert by set_solver. f_equal.
    apply IH; [set_solver |]. intros c Hc Hc'. apply Hzero; set_solver.
  - rewrite (Hzero y) by set_solver. rewrite Z.add_0_r.
    apply IH; [set_solver |]. intros c Hc Hc'. apply Hzero; set_solver.
Qed.
End sums.

Section frequencies.
Implicit Types (s t : jsstring) (a b c : codeunit).

Lemma occurrences_not_elem c s : c ∉ s → occurrences c s = 0.
Proof.
  induction s as [| a s IH]; [done |]. intros Hc. simpl.
  rewrite decide_False by set_solver. apply IH. set_solver.
Qed.

(** The map built by the counting loop. *)
Lemma charFrequencies_foldl s : ∀ (freq : gmap codeunit nat) c,
  default 0
    (foldl (λ freq char, <[char := default 0 (freq !! char) + 1]> freq) freq s
       !! c)
  = default 0 (freq !! c) + occurrences c s.
Proof.
  induction s as [| a s IH]; intros freq c; simpl; [lia |].
  rewrite IH. destruct (decide (a = c)) as [-> | Hne].
  - rewrite lookup_insert_eq. simpl. lia.
  - rewrite lookup_insert_ne by done. lia.
Qed.

Lemma charFrequencies_lookup s c :
  default 0 (charFrequencies s !! c) = occurrences c s.
Proof. unfold charFrequencies. by rewrite charFrequencies_foldl. Qed.

Lemma charFrequencies_dom s :
  dom (charFrequencies s) = (list_to_set s : gset codeunit).
Proof.
  unfold charFrequencies.
  enough (H : ∀ freq : gmap codeunit nat,
    dom (foldl (λ freq char, <[char := default 0 (freq !! char) + 1]> freq)
           freq s) = dom freq ∪ (list_to_set s : gset codeunit)).
  { rewrite H, dom_empty_L. set_solver. }
  induction s as [| a s IH]; intros freq; simpl; [set_solver |].
  rewrite IH, dom_insert_L. set_solver.
Qed.

Lemma minEdits_sumOver s t :
  minEdits s t = sumOver (list_to_set s ∪ list_to_set t) (countDiff s t).
Proof.
  unfold minEdits. rewrite !charFrequencies_dom.
  apply (sumOver_ext _ _ (countDiff s t)). intros c _.
  unfold countDiff. by rewrite !charFrequencies_lookup.
Qed.

(** The sum may be taken over any set that holds the code units of both
    strings. *)
Lemma minEdits_sumOver_sup (U : gset codeunit) s t :
  list_to_set s ∪ list_to_set t ⊆ U → minEdits s t = sumOver U (countDiff s t).
Proof.
  intros HU. rewrite minEdits_sumOver. symmetry.
  apply sumOver_subseteq; [done |]. intros c _ Hc. unfold countDiff.
  rewrite !occurrences_not_elem by set_solver. done.
Qed.

Lemma minEdits_nil : minEdits [] [] = 0%Z.
Proof. rewrite minEdits_sumOver. simpl. rewrite union_empty_l_L. apply sumOver_empty. Qed.

Lemma minEdits_cons_l a s t : (minEdits (a :: s) t ≤ minEdits s t + 1)%Z.
Proof.
  set (U := (list_to_set (a :: s) ∪ list_to_set t : gset codeunit)).
  rewrite (minEdits_sumOver_sup U), (minEdits_sumOver_sup U s t)
    by (subst U; set_solver).
  pose proof (sumOver_indicator U a) as Hind.
  etransitivity; [| apply Z.add_le_mono_l, Hind].
  rewrite <- sumOver_plus. apply sumOver_le. intros c _.
  unfold countDiff. simpl. repeat case_decide; try congruence; lia.
Qed.

Lemma minEdits_cons_r s b t : (minEdits s (b :: t) ≤ minEdits s t + 1)%Z.
Proof.
  set (U := (list_to_set s ∪ list_to_set (b :: t) : gset codeunit)).
  rewrite (minEdits_sumOver_sup U), (minEdits_sumOver_sup U s t)
    by (subst U; set_solver).
  pose proof (sumOver_indicator U b) as Hind.
  etransitivity; [| apply Z.add_le_mono_l, Hind].
  rewrite <- sumOver_plus. apply sumOver_le. intros c _.
  unfold countDiff. simpl. repeat case_decide; try congruence; lia.
Qed.

Lemma minEdits_cons_cons a s t : minEdits (a :: s) (a :: t) = minEdits s t.
Proof.
  set (U := (list_to_set (a :: s) ∪ list_to_set (a :: t) : gset codeunit)).
  rewrite (minEdits_sumOver_sup U), (minEdits_sumOver_sup U s t)
    by (subst U; set_solver).
  apply sumOver_ext. intros c _. unfold countDiff. simpl. case_decide; lia.
Qed.

(** "Frequency difference gives lower bound on edit distance": half of
    the sum of the differences is at most the distance. *)
Lemma minEdits_lev s : ∀ t, (minEdits s t ≤ 2 * Z.of_nat (lev s t))%Z.
Proof.
  induction s as [| a s IHs]; intros t.
  { rewrite lev_nil_l. induction t as [| b t IHt].
    - rewrite minEdits_nil. simpl. lia.
    - pose proof (minEdits_cons_r [] b t). simpl length. lia. }
  induction t as [| b t IHt].
  { rewrite lev_nil_r. pose proof (minEdits_cons_l a s []).
    specialize (IHs []). rewrite lev_nil_r in IHs. simpl length. lia. }
  rewrite lev_cons. unfold min3.
  pose proof (minEdits_cons_l a s (b :: t)).
  pose proof (minEdits_cons_r (a :: s) b t).
  pose proof (minEdits_cons_r s b t).
  pose proof (IHs (b :: t)). pose proof (IHs t).
  case_decide as Hab.
  - subst b. pose proof (minEdits_cons_cons a s t). lia.
  - lia.
Qed.
End frequencies.

(** ** Numbers *)

Lemma Z_le_Qfloor (z : Z) (x : Q) : (inject_Z z <= x)%Q → (z ≤ Qfloor x)%Z.
Proof. intros H. apply Qfloor_resp_le in H. by rewrite Qfloor_Z in H. Qed.

Lemma Qfloor_le_Z (z : Z) (x : Q) : (z ≤ Qfloor x)%Z → (inject_Z z <= x)%Q.
Proof.
  intros H. eapply Qle_trans; [| apply Qfloor_le]. by rewrite <- Zle_Qle.
Qed.

Lemma half_not_above (m c : Z) :
  (m ≤ 2 * c)%Z → ¬ (inject_Z c < inject_Z m / 2)%Q.
Proof.
  intros H. apply Qle_not_lt, Qle_shift_div_r; [done |].
  change 2%Q with (inject_Z 2). rewrite <- inject_Z_mult, <- Zle_Qle. lia.
Qed.

Lemma inject_Z_minus (x y : Z) :
  inject_Z (x - y) = (inject_Z x - inject_Z y)%Q.
Proof.
  unfold Z.sub, Qminus. by rewrite inject_Z_plus, inject_Z_opp.
Qed.

(** ** The filters against the distance ceiling *)

Section pruning.
Context (norm1 norm2 : jsstring) (minSimilarity : Q).
Let len1 := Z.of_nat (length norm1).
Let len2 := Z.of_nat (length norm2).
Let maxLength := Z.max len1 len2.
Let distance := Z.of_nat (levenshteinDistance norm1 norm2).

(** The distance is within the ceiling the driver computes as
    [maxAllowedDiff]. *)
Hypothesis within : (distance ≤ distanceCeiling maxLength minSimilarity)%Z.

Lemma distance_le_share :
  (inject_Z distance <= inject_Z maxLength * (1 - minSimilarity / 100))%Q.
Proof using within. apply Qfloor_le_Z, within. Qed.

Lemma length_gap_le_distance : (Z.abs (len1 - len2) ≤ distance)%Z.
Proof using Type.
  subst distance len1 len2. rewrite levenshteinDistance_lev.
  pose proof (lev_length_diff norm1 norm2). lia.
Qed.

(** The shorter length is at least the share [minSimilarity] of the
    longer. *)
Lemma failsRatioCheck_within :
  failsRatioCheck len1 len2 minSimilarity = false.
Proof using within.
  unfold failsRatioCheck. fold maxLength. case_decide as HL; [done |].
  apply bool_decide_eq_false, Qle_not_lt.
  assert (0 < inject_Z maxLength)%Q as Hpos.
  { change 0%Q with (inject_Z 0). rewrite <- Zlt_Qlt. subst maxLength len1 len2. lia. }
  assert (inject_Z maxLength
            * (1 - inject_Z (Z.min len1 len2) / inject_Z maxLength)
          <= inject_Z maxLength * (1 - minSimilarity / 100))%Q as H.
  { eapply Qle_trans; [| exact distance_le_share].
    apply (Qle_trans _ (inject_Z (maxLength - Z.min len1 len2))).
    - rewrite inject_Z_minus. apply Qle_lteq. right. field.
      intros H0. rewrite H0 in Hpos. by apply Qlt_irrefl in Hpos.
    - rewrite <- Zle_Qle. pose proof length_gap_le_distance.
      subst maxLength. lia. }
  apply Qmult_le_l in H; [| exact Hpos].
  unfold Qdiv in H. change (/ 100)%Q with (1 # 100)%Q in H.
  unfold Qdiv. lra.
Qed.

Lemma failsAbsDiffCheck_within :
  failsAbsDiffCheck len1 len2 minSimilarity = false.
Proof using within.
  unfold failsAbsDiffCheck. apply bool_decide_eq_false.
  pose proof length_gap_le_distance. fold maxLength. lia.
Qed.

Lemma failsFrequencyFilter_within :
  failsFrequencyFilter norm1 norm2 minSimilarity = false.
Proof using within.
  unfold failsFrequencyFilter. apply andb_false_iff. right.
  unfold failsFrequencyCheck. apply bool_decide_eq_false, half_not_above.
  pose proof within as Hc. pose proof (minEdits_lev norm1 norm2).
  subst distance. rewrite levenshteinDistance_lev in Hc.
  fold len1 len2 maxLength. lia.
Qed.

Lemma prunes_within : prunes norm1 norm2 minSimilarity = false.
Proof using within.
  unfold prunes. fold len1 len2.
  by rewrite failsRatioCheck_within, failsAbsDiffCheck_within,
             failsFrequencyFilter_within.
Qed.
End pruning.

(** ** The stable sort *)

Section arraySort_facts.
Context {A : Type} (compareFn : A → A → Q).

Lemma insertSorted_perm x l : insertSorted compareFn x l ≡ₚ x :: l.
Proof.
  induction l as [| y l IH]; simpl; [done |].
  case_decide; [done |]. rewrite IH. apply Permutation_swap.
Qed.

Lemma arraySort_perm l : arraySort compareFn l ≡ₚ l.
Proof.
  induction l as [| x l IH]; simpl; [done |].
  by rewrite insertSorted_perm, IH.
Qed.

Lemma elem_of_arraySort x l : x ∈ arraySort compareFn l ↔ x ∈ l.
Proof. by rewrite arraySort_perm. Qed.

Lemma length_arraySort l : length (arraySort compareFn l) = length l.
Proof. by rewrite arraySort_perm. Qed.

Lemma arraySort_fmap {B : Type} (f : B → A) (l : list B) :
  arraySort compareFn (f <$> l)
  = f <$> arraySort (λ a b, compareFn (f a) (f b)) l.
Proof.
  unfold arraySort. induction l as [| x l IH]; csimpl; [done |]. rewrite IH.
  generalize (foldr (insertSorted (λ a b, compareFn (f a) (f b))) [] l) as l'.
  induction l' as [| y l' IH']; csimpl; [done |].
  case_decide; [done |]. csimpl. by rewrite IH'.
Qed.
End arraySort_facts.

Section arraySort_stable.
Context {A : Type} (key : A → Q) (earlier : relation A).

Lemma insertSorted_ranked x l :
  StronglySorted (ranked key earlier) l → Forall (earlier x) l →
  StronglySorted (ranked key earlier)
    (insertSorted (λ a b, key b - key a)%Q x l).
Proof.
  induction 1 as [| y l Hl IH Hy]; intros Hx; simpl.
  { repeat constructor. }
  apply Forall_cons in Hx as [Hxy Hx]. case_decide as Hcmp.
  - constructor; [by constructor |].
    assert (key y <= key x)%Q as Hle by lra.
    constructor.
    + destruct (Qle_lt_or_eq _ _ Hle) as [Hlt | Heq]; [by left |].
      right. split; [by symmetry | done].
    + rewrite Forall_forall in Hy, Hx |- *. intros z Hz.
      destruct (Hy z Hz) as [Hlt | [Heq Hyz]].
      * left. lra.
      * destruct (Qle_lt_or_eq _ _ Hle) as [Hlt | Heq']; [left; lra |].
        right. split; [lra | by apply Hx].
  - constructor; [by apply IH |].
    rewrite Forall_forall in Hy |- *. intros z Hz.
    rewrite insertSorted_perm in Hz. apply elem_of_cons in Hz as [-> | Hz].
    + left. lra.
    + by apply Hy.
Qed.

Lemma arraySort_ranked l :
  StronglySorted earlier l →
  StronglySorted (ranked key earlier)
    (arraySort (λ a b, key b - key a)%Q l).
Proof.
  induction 1 as [| x l Hl IH Hx]; simpl; [constructor |].
  apply insertSorted_ranked; [done |]. by rewrite arraySort_perm.
Qed.

Lemma ranked_descending l :
  StronglySorted (ranked key earlier) l →
  StronglySorted (λ a b, key b <= key a)%Q l.
Proof.
  induction 1 as [| x l Hl IH Hx]; constructor; [done |].
  eapply Forall_impl; [exact Hx |]. intros y [Hlt | [Heq _]]; lra.
Qed.
End arraySort_stable.

(** ** The nested loops *)

Lemma bind_ext_elem {X Y : Type} (f g : X → list Y) (l : list X) :
  (∀ x, x ∈ l → f x = g x) → l ≫= f = l ≫= g.
Proof.
  induction l as [| x l IH]; intros Hfg; [done |].
  rewrite !bind_cons, Hfg, IH by set_solver. done.
Qed.

Lemma fmap_bind_list {X Y Z : Type} (h : Y → Z) (g : X → list Y) (l : list X) :
  h <$> (l ≫= g) = l ≫= (λ x, h <$> g x).
Proof.
  induction l as [| x l IH]; [done |]. by rewrite !bind_cons, fmap_app, IH.
Qed.

Section pairLoop_facts.
Context {B : Type}.
Implicit Types (body : nat → nat → list B).

Lemma pairLoop_nil start len body : pairLoop start 0 len body = [].
Proof. done. Qed.

Lemma pairLoop_app start count1 count2 len body :
  pairLoop start (count1 + count2) len body
  = pairLoop start count1 len body
    ++ pairLoop (start + count1) count2 len body.
Proof. unfold pairLoop. by rewrite seq_app, bind_app. Qed.

Lemma elem_of_pairLoop x start count len body :
  x ∈ pairLoop start count len body
  ↔ ∃ i j, start ≤ i < start + count ∧ i < j < len ∧ x ∈ body i j.
Proof.
  unfold pairLoop. rewrite list_elem_of_bind. split.
  - intros (i & Hx & Hi). apply list_elem_of_bind in Hx as (j & Hx & Hj).
    apply elem_of_seq in Hi, Hj. exists i, j. split; [lia |]. split; [lia | done].
  - intros (i & j & Hi & Hj & Hx). exists i. split; [| apply elem_of_seq; lia].
    apply list_elem_of_bind. exists j. split; [done |]. apply elem_of_seq. lia.
Qed.

Lemma pairLoop_ext start count len body body' :
  (∀ i j, start ≤ i < start + count → i < j < len → body i j = body' i j) →
  pairLoop start count len body = pairLoop start count len body'.
Proof.
  intros Hext. unfold pairLoop.
  apply bind_ext_elem. intros i Hi. apply bind_ext_elem. intros j Hj.
  apply elem_of_seq in Hi, Hj. apply Hext; lia.
Qed.

Lemma pairLoop_fmap {C : Type} (f : B → C) start count len body :
  f <$> pairLoop start count len body
  = pairLoop start count len (λ i j, f <$> body i j).
Proof.
  unfold pairLoop. rewrite fmap_bind_list.
  apply bind_ext_elem. intros i _. apply fmap_bind_list.
Qed.

(** The loops push the pairs in increasing order. *)
Lemma pairLoop_sorted (idx : B → nat * nat) start count len body :
  (∀ i j x, x ∈ body i j → idx x = (i, j)) →
  (∀ i j, length (body i j) ≤ 1) →
  StronglySorted (λ x y, pairBefore (idx x) (idx y))
    (pairLoop start count len body).
Proof.
  intros Hidx Hone. unfold pairLoop.
  assert (Hrow : ∀ i first n,
    StronglySorted (λ x y, pairBefore (idx x) (idx y))
      (seq first n ≫= body i)).
  { intros i first n. revert first.
    induction n as [| n IH]; intros first; [constructor |].
    cbn [seq]. rewrite bind_cons. apply StronglySorted_app_2; [| | apply IH].
    - intros x y Hx Hy. apply list_elem_of_bind in Hy as (j & Hy & Hj).
      apply elem_of_seq in Hj. rewrite (Hidx _ _ _ Hx), (Hidx _ _ _ Hy).
      right. simpl. lia.
    - specialize (Hone i first).
      destruct (body i first) as [| x [| ? ?]]; simpl in Hone;
        [constructor | repeat constructor | lia]. }
  revert start. induction count as [| count IH]; intros start; [constructor |].
  cbn [seq]. rewrite bind_cons.
  apply StronglySorted_app_2; [| apply Hrow | apply IH].
  intros x y Hx Hy. apply list_elem_of_bind in Hx as (j & Hx & Hj).
  apply list_elem_of_bind in Hy as (i' & Hy & Hi').
  apply list_elem_of_bind in Hy as (j' & Hy & Hj').
  apply elem_of_seq in Hi'. rewrite (Hidx _ _ _ Hx), (Hidx _ _ _ Hy).
  left. simpl. lia.
Qed.
End pairLoop_facts.

(** ** The scorers *)

Lemma mathRound_range (x : Q) :
  (0 <= x)%Q → (x <= 10000)%Q →
  (0 <= mathRound x / 100)%Q ∧ (mathRound x / 100 <= 100)%Q.
Proof.
  intros H0 H1. unfold mathRound.
  assert (0 ≤ Qfloor (x + (1 # 2)))%Z as Hlo
    by (apply Z_le_Qfloor; change (inject_Z 0) with 0%Q; lra).
  assert (Qfloor (x + (1 # 2)) ≤ 10000)%Z as Hhi.
  { change 10000%Z with (Qfloor (10000 + (1 # 2))).
    apply Qfloor_resp_le. lra. }
  rewrite Zle_Qle in Hlo, Hhi. change (inject_Z 0) with 0%Q in Hlo.
  change (inject_Z 10000) with 10000%Q in Hhi.
  split.
  - apply Qle_shift_div_l; [done | lra].
  - apply Qle_shift_div_r; [done | lra].
Qed.

(** The share [(maxLength - distance) / maxLength] of a distance between
    [0] and [maxLength], as a number of ten-thousandths. *)
Lemma share_range (maxLength distance : Z) :
  (0 ≤ distance ≤ maxLength)%Z → (0 < maxLength)%Z →
  let x := (inject_Z (maxLength - distance) / inject_Z maxLength * 10000)%Q in
  (0 <= x)%Q ∧ (x <= 10000)%Q.
Proof.
  intros Hd HL. cbv zeta.
  assert (0 < inject_Z maxLength)%Q as Hpos.
  { change 0%Q with (inject_Z 0). by rewrite <- Zlt_Qlt. }
  assert (0 <= inject_Z (maxLength - distance) / inject_Z maxLength)%Q as Hlo.
  { apply Qle_shift_div_l; [done |]. rewrite Qmult_0_l.
    change 0%Q with (inject_Z 0). rewrite <- Zle_Qle. lia. }
  assert (inject_Z (maxLength - distance) / inject_Z maxLength <= 1)%Q as Hhi.
  { apply Qle_shift_div_r; [done |]. rewrite Qmult_1_l, <- Zle_Qle. lia. }
  split; lra.
Qed.

(** When the thresholded scorer goes on to the formula, the distance it
    holds is the edit distance. *)
Lemma distance_within (str1 str2 : jsstring) (maxDistance : option Z) :
  overThreshold maxDistance
    (levenshteinDistanceWithThreshold str1 str2 maxDistance) = None →
  levenshteinDistanceWithThreshold str1 str2 maxDistance
  = Z.of_nat (levenshteinDistance str1 str2).
Proof.
  intros Hover. rewrite levenshteinDistance_lev.
  destruct (levenshteinDistanceWithThreshold_cases str1 str2 maxDistance)
    as [-> | (c & -> & Hr & Hc)]; [done |].
  rewrite Hr in Hover. unfold overThreshold in Hover.
  rewrite decide_True in Hover by lia. done.
Qed.

Lemma levenshteinDistance_le_max (str1 str2 : jsstring) :
  (Z.of_nat (levenshteinDistance str1 str2)
   ≤ Z.max (Z.of_nat (length str1)) (Z.of_nat (length str2)))%Z.
Proof.
  rewrite levenshteinDistance_lev. pose proof (lev_le_max str1 str2). lia.
Qed.

Lemma calculateSimilarityWithThreshold_range (str1 str2 : jsstring)
    (minSimilarity : option Q) :
  (0 <= calculateSimilarityWithThreshold str1 str2 minSimilarity)%Q
  ∧ (calculateSimilarityWithThreshold str1 str2 minSimilarity <= 100)%Q.
Proof.
  unfold calculateSimilarityWithThreshold.
  repeat case_decide; try (split; done).
  destruct (overThreshold _ _) eqn:Hover; [split; done |].
  rewrite (distance_within _ _ _ Hover).
  pose proof (levenshteinDistance_le_max str1 str2).
  destruct (share_range
              (Z.max (Z.of_nat (length str1)) (Z.of_nat (length str2)))
              (Z.of_nat (levenshteinDistance str1 str2))) as [Hlo Hhi];
    [lia | lia |].
  by apply mathRound_range.
Qed.

Lemma calculateSimilarity_range (str1 str2 : jsstring) :
  (0 <= calculateSimilarity str1 str2)%Q
  ∧ (calculateSimilarity str1 str2 <= 100)%Q.
Proof.
  unfold calculateSimilarity. repeat case_decide; try (split; done).
  pose proof (levenshteinDistance_le_max str1 str2).
  destruct (share_range
              (Z.max (Z.of_nat (length str1)) (Z.of_nat (length str2)))
              (Z.of_nat (levenshteinDistance str1 str2))) as [Hlo Hhi];
    [lia | lia |].
  apply mathRound_range.
  - eapply Qle_trans; [exact Hlo |]. apply Qle_lteq. right. ring.
  - eapply Qle_trans; [| exact Hhi]. apply Qle_lteq. right. ring.
Qed.

(** ** The driver *)

Section driver_facts.
Implicit Types (f func : ExtractedFunction)
  (functions filteredFunctions : list ExtractedFunction)
  (r : SimilarityResult) (options : ComparisonOptions).

Lemma filterByMinLines_sublist minLines functions :
  filterByMinLines minLines functions `sublist_of` functions.
Proof.
  unfold filterByMinLines. case_decide; [apply sublist_filter | done].
Qed.

Lemma elem_of_filterByMinLines minLines functions f :
  f ∈ filterByMinLines minLines functions ↔
  f ∈ functions ∧ ((0 < minLines)%Q → (minLines <= inject_Z (lineCount f))%Q).
Proof.
  unfold filterByMinLines. case_decide as Hm.
  - rewrite list_elem_of_filter. naive_solver.
  - naive_solver.
Qed.

Lemma filterByMinLines_idemp minLines functions :
  filterByMinLines minLines (filterByMinLines minLines functions)
  = filterByMinLines minLines functions.
Proof.
  unfold filterByMinLines. case_decide; [| done].
  induction functions as [| f functions IH]; [done |].
  rewrite filter_cons. case_decide; [| done].
  rewrite filter_cons, decide_True by done. by rewrite IH.
Qed.

Lemma length_scorePair minSim norm func1 func2 raw1 raw2 :
  length (scorePair minSim norm func1 func2 raw1 raw2) ≤ 1.
Proof.
  unfold scorePair. destruct (prunes _ _ _); [simpl; lia |].
  case_decide; simpl; lia.
Qed.

Lemma elem_of_scorePair r minSim norm func1 func2 raw1 raw2 :
  r ∈ scorePair minSim norm func1 func2 raw1 raw2 →
  let norm1 := if norm then normalizedCode func1 else code func1 in
  let norm2 := if norm then normalizedCode func2 else code func2 in
  prunes norm1 norm2 minSim = false
  ∧ normalizedScore r = calculateSimilarityWithThreshold norm1 norm2 (Some minSim)
  ∧ (minSim <= normalizedScore r)%Q
  ∧ similarityScore r
    = (if norm then calculateSimilarityWithThreshold raw1 raw2 (Some minSim)
       else normalizedScore r)
  ∧ function1 r = reference func1 ∧ function2 r = reference func2
  ∧ lines1 r = lineCount func1 ∧ lines2 r = lineCount func2.
Proof.
  unfold scorePair. cbv zeta. destruct (prunes _ _ _); [set_solver |].
  case_decide; [| set_solver]. intros ->%list_elem_of_singleton. done.
Qed.

(** The pairs pushed, one by one. *)
Lemma elem_of_emittedPairs excludeSelf minSim norm filteredFunctions i j r :
  (i, j, r) ∈ emittedPairs excludeSelf minSim norm filteredFunctions →
  i < j < length filteredFunctions
  ∧ ∃ func1 func2,
      filteredFunctions !! i = Some func1 ∧ filteredFunctions !! j = Some func2
      ∧ (excludeSelf = true → ¬ sameIdentity func1 func2)
      ∧ r ∈ scorePair minSim norm func1 func2 (code func1) (code func2).
Proof.
  unfold emittedPairs. rewrite elem_of_pairLoop.
  intros (i' & j' & Hi & Hj & Hr). cbv zeta in Hr.
  case_decide as Hself; [set_solver |].
  apply list_elem_of_fmap in Hr as (r' & [= <- <- <-] & Hr).
  split; [lia |].
  exists (filteredFunctions !!! i), (filteredFunctions !!! j).
  rewrite !list_lookup_lookup_total_lt by lia. naive_solver.
Qed.

Lemma emittedPairs_sorted excludeSelf minSim norm filteredFunctions :
  StronglySorted (λ p q, pairBefore p.1 q.1)
    (emittedPairs excludeSelf minSim norm filteredFunctions).
Proof.
  apply (pairLoop_sorted fst).
  - intros i j [[i' j'] r] Hx. cbv zeta in Hx. case_decide; [set_solver |].
    apply list_elem_of_fmap in Hx as (r' & [= -> -> ->] & _). done.
  - intros i j. cbv zeta. case_decide; [simpl; lia |].
    rewrite length_fmap. apply length_scorePair.
Qed.

(** [compareAll] sorts the pairs pushed with the self pairs skipped as
    [excludeSelf] says. *)
Lemma compareAll_emittedPairs functions options :
  compareAll functions options
  = (arraySort (λ p q, byScoreDescending p.2 q.2)
       (emittedPairs (default true (excludeSelf options))
          (default 0%Q (minSimilarity options))
          (default true (normalize options))
          (filterByMinLines (default 0%Q (minLines options)) functions))).*2.
Proof.
  unfold compareAll. cbv zeta.
  rewrite <- (arraySort_fmap byScoreDescending snd). f_equal.
  unfold emittedPairs. rewrite pairLoop_fmap. apply pairLoop_ext.
  intros i j Hi Hj.
  set (fs := filterByMinLines _ functions) in *.
  rewrite !(list_lookup_total_fmap code (Inhabited0 := _)) by lia.
  case_decide; [done |].
  rewrite <- list_fmap_compose. by rewrite list_fmap_id.
Qed.
End driver_facts.

(** ** The parallel layer *)

Lemma bind_singleton_fmap {X Y : Type} (f : X → Y) (l : list X) :
  (l ≫= λ x, [f x]) = f <$> l.
Proof. induction l as [| x l IH]; [done |]. by rewrite bind_cons, IH. Qed.

Lemma bind_fmap_list {X Y Z : Type} (f : X → Y) (g : Y → list Z) (l : list X) :
  (f <$> l) ≫= g = l ≫= (λ x, g (f x)).
Proof.
  induction l as [| x l IH]; [done |]. by rewrite fmap_cons, !bind_cons, IH.
Qed.

Lemma ceilDiv_cover (n numWorkers : nat) :
  1 ≤ numWorkers → n ≤ numWorkers * ceilDiv n numWorkers.
Proof.
  intros Hw. unfold ceilDiv.
  set (q := (inject_Z (Z.of_nat n) / inject_Z (Z.of_nat numWorkers))%Q).
  assert (0 < inject_Z (Z.of_nat numWorkers))%Q as Hpos.
  { change 0%Q with (inject_Z 0). rewrite <- Zlt_Qlt. lia. }
  assert (Z.of_nat n ≤ Z.of_nat numWorkers * Qceiling q)%Z as Hn.
  { rewrite Zle_Qle, inject_Z_mult.
    apply (Qle_trans _ (inject_Z (Z.of_nat numWorkers) * q)).
    - apply Qle_lteq. right. subst q. symmetry. apply Qmult_div_r.
      intros H0. rewrite H0 in Hpos. by apply Qlt_irrefl in Hpos.
    - apply Qmult_le_l; [done |]. apply Qle_ceiling. }
  assert (0 ≤ Qceiling q)%Z by nia.
  nia.
Qed.

Section chunks.
Context {B : Type} (body : nat → nat → list B) (chunkSize len : nat).

(** The strips of the workers, one after the other, are the whole
    triangle from the first row of the first worker on. *)
Lemma chunkRanges_cover k : ∀ w,
  len ≤ (w + k) * chunkSize →
  chunkRanges chunkSize len (seq w k)
    ≫= (λ '(startIdx, endIdx), pairLoop startIdx (endIdx - startIdx) len body)
  = pairLoop (w * chunkSize) (len - w * chunkSize) len body.
Proof.
  induction k as [| k IH]; intros w Hcover.
  { replace (len - w * chunkSize) with 0 by lia. done. }
  cbn [seq chunkRanges]. case_decide as Hstart.
  { replace (len - w * chunkSize) with 0 by lia. done. }
  rewrite bind_cons, IH by lia.
  destruct (decide ((w + 1) * chunkSize ≤ len)) as [Hend | Hend].
  - rewrite Nat.min_l by done.
    replace (len - w * chunkSize)
      with (((w + 1) * chunkSize - w * chunkSize) + (len - S w * chunkSize))
      by lia.
    rewrite pairLoop_app. do 2 f_equal. lia.
  - rewrite Nat.min_r by lia.
    replace (len - S w * chunkSize) with 0 by lia.
    by rewrite pairLoop_nil, app_nil_r.
Qed.
End chunks.

Section parallel_facts.
Implicit Types (functions filteredFunctions : list ExtractedFunction)
  (options : ComparisonOptions).

Lemma Worker_run_pairLoop (workerData : Worker.WorkerData) :
  Worker.run workerData
  = pairLoop (Worker.startIdx workerData)
      (Worker.endIdx workerData - Worker.startIdx workerData)
      (length (Worker.functions workerData))
      (Worker.scorePair (Worker.minSimilarity workerData)
         (Worker.normalize workerData) (Worker.functions workerData)).
Proof. done. Qed.

(** A result of the worker, converted in the merge loop, is the result
    [compareAll] pushes for the pair. *)
Lemma toSimilarityResult_scorePair minSim norm filteredFunctions i j :
  toSimilarityResult filteredFunctions
    <$> Worker.scorePair minSim norm filteredFunctions i j
  = scorePair minSim norm (filteredFunctions !!! i) (filteredFunctions !!! j)
      (code (filteredFunctions !!! i)) (code (filteredFunctions !!! j)).
Proof.
  unfold Worker.scorePair, scorePair. cbv zeta.
  destruct (prunes _ _ _); [done |]. case_decide; done.
Qed.

(** The sorted pairs, without their indices. *)
Lemma arraySort_emittedPairs excludeSelf minSim norm filteredFunctions :
  (arraySort (λ p q, byScoreDescending p.2 q.2)
     (emittedPairs excludeSelf minSim norm filteredFunctions)).*2
  = arraySort byScoreDescending
      (pairLoop 0 (length filteredFunctions) (length filteredFunctions)
         (λ i j,
            let func1 := filteredFunctions !!! i in
            let func2 := filteredFunctions !!! j in
            if decide (excludeSelf = true ∧ sameIdentity func1 func2) then []
            else scorePair minSim norm func1 func2 (code func1) (code func2))).
Proof.
  rewrite <- (arraySort_fmap byScoreDescending snd). f_equal.
  unfold emittedPairs. rewrite pairLoop_fmap. apply pairLoop_ext.
  intros i j Hi Hj. cbv zeta. case_decide; [done |].
  rewrite <- list_fmap_compose. by rewrite list_fmap_id.
Qed.

(** Below a hundred functions [compareAllParallel] is [compareAll]. *)
Lemma compareAllParallel_small numCores functions options :
  length (filterByMinLines (default 0%Q (minLines options)) functions) < 100 →
  compareAllParallel numCores functions options
  = compareAll functions options.
Proof.
  intros Hsmall. unfold compareAllParallel. cbv zeta.
  rewrite decide_True by done.
  unfold compareAll. cbv zeta. by rewrite filterByMinLines_idemp.
Qed.

(** From a hundred functions on it sorts the pairs pushed with no pair
    skipped for the identity of its functions, whatever the number of
    cores. *)
Lemma compareAllParallel_large numCores functions options :
  100 ≤ length (filterByMinLines (default 0%Q (minLines options)) functions) →
  compareAllParallel numCores functions options
  = (arraySort (λ p q, byScoreDescending p.2 q.2)
       (emittedPairs false
          (default 0%Q (minSimilarity options))
          (default true (normalize options))
          (filterByMinLines (default 0%Q (minLines options)) functions))).*2.
Proof.
  intros Hlarge. unfold compareAllParallel. cbv zeta.
  rewrite decide_False by lia.
  rewrite arraySort_emittedPairs. f_equal.
  set (fs := filterByMinLines _ functions) in *.
  set (numWorkers := Nat.max 1 (Nat.min (numCores - 1) 8)).
  rewrite bind_fmap_list.
  rewrite (bind_ext_elem _
    (λ '(startIdx, endIdx),
       pairLoop startIdx (endIdx - startIdx) (length fs)
         (λ i j, scorePair (default 0%Q (minSimilarity options))
                   (default true (normalize options))
                   (fs !!! i) (fs !!! j)
                   (code (fs !!! i)) (code (fs !!! j))))); last first.
  { intros [startIdx endIdx] _. rewrite bind_singleton_fmap.
    rewrite Worker_run_pairLoop, pairLoop_fmap. simpl.
    apply pairLoop_ext. intros i j _ _.
    apply toSimilarityResult_scorePair. }
  pose proof (ceilDiv_cover (length fs) numWorkers ltac:(lia)) as Hcover.
  rewrite (chunkRanges_cover _ _ _ numWorkers 0) by lia.
  rewrite Nat.mul_0_l, Nat.sub_0_r. apply pairLoop_ext.
  intros i j _ _. cbv zeta. rewrite decide_False by naive_solver. done.
Qed.
End parallel_facts.

(** ** The results of the two drivers *)

Lemma sublist_lookup_pair {A : Type} (l1 l2 : list A) :
  l1 `sublist_of` l2 → ∀ i j x y,
  i < j → l1 !! i = Some x → l1 !! j = Some y →
  ∃ i' j', i' < j' ∧ l2 !! i' = Some x ∧ l2 !! j' = Some y.
Proof.
  induction 1 as [| a l1 l2 Hsub IH | a l1 l2 Hsub IH]; intros i j x y Hij Hx Hy.
  - done.
  - destruct j as [| j]; [lia |]. destruct i as [| i]; simpl in *.
    + assert (y ∈ l2) as Hin.
      { eapply elem_of_sublist; [| exact Hsub]. by eapply list_elem_of_lookup_2. }
      apply list_elem_of_lookup_1 in Hin as [k Hk].
      exists 0, (S k). split; [lia | done].
    + destruct (IH i j x y) as (i' & j' & Hlt & Hx' & Hy'); [lia | done | done |].
      exists (S i'), (S j'). split; [lia | done].
  - destruct (IH i j x y) as (i' & j' & Hlt & Hx' & Hy'); [done | done | done |].
    exists (S i'), (S j'). split; [lia | done].
Qed.

Section results.
Context (excludeSelf : bool) (minSim : Q) (norm : bool)
        (filteredFunctions : list ExtractedFunction).

(** Every result of the sorted output was pushed for some pair. *)
Lemma elem_of_sorted_emittedPairs r :
  r ∈ (arraySort (λ p q, byScoreDescending p.2 q.2)
         (emittedPairs excludeSelf minSim norm filteredFunctions)).*2 →
  ∃ i j, (i, j, r) ∈ emittedPairs excludeSelf minSim norm filteredFunctions.
Proof.
  intros ([[i j] r'] & -> & Hin)%list_elem_of_fmap.
  apply elem_of_arraySort in Hin. by exists i, j.
Qed.

Lemma sorted_emittedPairs_ranked :
  StronglySorted rankedPairs
    (arraySort (λ p q, byScoreDescending p.2 q.2)
       (emittedPairs excludeSelf minSim norm filteredFunctions)).
Proof.
  apply (arraySort_ranked (λ p, normalizedScore p.2)
           (λ p q, pairBefore p.1 q.1)).
  apply emittedPairs_sorted.
Qed.

Lemma sorted_emittedPairs_descending :
  StronglySorted (λ a b, normalizedScore b <= normalizedScore a)%Q
    (arraySort (λ p q, byScoreDescending p.2 q.2)
       (emittedPairs excludeSelf minSim norm filteredFunctions)).*2.
Proof.
  eapply (StronglySorted_fmap snd
            (λ p q, normalizedScore q.2 <= normalizedScore p.2)%Q);
    [done |].
  apply (ranked_descending (λ p, normalizedScore p.2)
           (λ p q, pairBefore p.1 q.1)).
  apply sorted_emittedPairs_ranked.
Qed.
End results.

(** The output of either driver is the sorted list of the pairs pushed,
    with the self pairs skipped or not. *)
Lemma driver_outputs numCores functions options :
  let filteredFunctions :=
    filterByMinLines (default 0%Q (minLines options)) functions in
  let sorted excludeSelf :=
    (arraySort (λ p q, byScoreDescending p.2 q.2)
       (emittedPairs excludeSelf (default 0%Q (minSimilarity options))
          (default true (normalize options)) filteredFunctions)).*2 in
  compareAll functions options = sorted (default true (excludeSelf options))
  ∧ ∃ excludeSelf', compareAllParallel numCores functions options
                    = sorted excludeSelf'.
Proof.
  cbv zeta. split; [apply compareAll_emittedPairs |].
  destruct (decide (length (filterByMinLines (default 0%Q (minLines options))
                              functions) < 100)) as [Hsmall | Hlarge].
  - exists (default true (excludeSelf options)).
    rewrite compareAllParallel_small by done. apply compareAll_emittedPairs.
  - exists false. apply compareAllParallel_large. lia.
Qed.

(** Where the two drivers agree: when [excludeSelf] is off, and when no two
    of the functions compared share their identity. *)
Lemma compareAllParallel_compareAll numCores functions options :
  excludeSelf options = Some false
  ∨ (∀ i j func1 func2,
       i < j →
       filterByMinLines (default 0%Q (minLines options)) functions !! i = Some func1 →
       filterByMinLines (default 0%Q (minLines options)) functions !! j = Some func2 →
       ¬ sameIdentity func1 func2) →
  compareAllParallel numCores functions options = compareAll functions options.
Proof.
  intros Hcond.
  destruct (decide (length (filterByMinLines (default 0%Q (minLines options))
                              functions) < 100)) as [Hsmall | Hlarge].
  { by apply compareAllParallel_small. }
  rewrite compareAllParallel_large, compareAll_emittedPairs by lia.
  do 2 f_equal. unfold emittedPairs. apply pairLoop_ext.
  intros i j Hi Hj. cbv zeta.
  rewrite (decide_False (P := false = true ∧ _)) by naive_solver.
  rewrite decide_False; [done |]. intros [Hex Hsame].
  destruct Hcond as [Hoff | Hdistinct].
  - rewrite Hoff in Hex. done.
  - eapply Hdistinct; [| | | exact Hsame];
      [| apply list_lookup_lookup_total_lt; lia
       | apply list_lookup_lookup_total_lt; lia]. lia.
Qed.

(** * The claims of the specification *)

(** ** The edit-distance core *)

(** C4.  [levenshteinDistance] returns the least number of single-element
    insertions, deletions and substitutions that turn one string into the
    other; equal strings give 0, and with an empty operand the result is
    the length of the other. *)
Theorem levenshteinDistance_minimal_edits (str1 str2 : jsstring) :
  is_edit_distance (levenshteinDistance str1 str2) str1 str2
  ∧ levenshteinDistance str1 str1 = 0
  ∧ levenshteinDistance [] str2 = length str2
  ∧ levenshteinDistance str1 [] = length str1.
Proof.
  split; [apply levenshteinDistance_is_edit_distance |].
  rewrite !levenshteinDistance_lev, lev_refl, lev_nil_l, lev_nil_r. done.
Qed.


(** The same past the early exits: the last row of ["ab"] against ["cdef"]
    has a cell that is not above the ceiling 2, and the value returned is
    the distance 4, not 2 + 1. *)
Example levenshteinDistanceWithThreshold_last_row :
  levenshteinDistance (js "ab") (js "cdef") = 4
  ∧ levenshteinDistanceWithThreshold (js "ab") (js "cdef") (Some 2%Z) = 4%Z.
Proof. split; reflexivity. Qed.


(** ** The scorer *)


(** ** The pruning filters *)


(** The same with a whole threshold and the frequency filter: two strings
    of 201 code units that differ in 199 places score 1.00 after rounding,
    and with [minSimilarity = 1] the first two filters let the pair through
    and the frequency filter rejects it. *)
Example prunes_rejects_rounded_score_frequency :
  let a := js "xy" ++ replicate 199 97%N in
  let b := js "xy" ++ replicate 199 98%N in
  (1 <= calculateSimilarity a b)%Q
  ∧ failsRatioCheck 201 201 1 = false
  ∧ failsAbsDiffCheck 201 201 1 = false
  ∧ failsFrequencyFilter a b 1 = true.
Proof. cbv zeta. split; [by vm_compute |]. repeat split; by vm_compute. Qed.



(** The ceiling, read on the similarity: the distance is within the ceiling
    exactly when the similarity before rounding reaches the threshold. *)
Lemma within_ceiling_iff (maxLength distance : Z) (minSimilarity : Q) :
  (distance ≤ distanceCeiling maxLength minSimilarity)%Z
  ↔ (inject_Z distance <= inject_Z maxLength * (1 - minSimilarity / 100))%Q.
Proof. split; [apply Qfloor_le_Z | apply Z_le_Qfloor]. Qed.

(** ** The two drivers *)

(** With [excludeSelf], [compareAll] pairs no two functions of the same
    identity. *)
Lemma compareAll_excludeSelf functions options :
  default true (excludeSelf options) = true →
  Forall (λ r, ¬ sameReference (function1 r) (function2 r))
    (compareAll functions options).
Proof.
  intros Hex. rewrite Forall_forall. intros r Hr.
  rewrite compareAll_emittedPairs in Hr.
  apply elem_of_sorted_emittedPairs in Hr as (i & j & Hr).
  apply elem_of_emittedPairs in Hr as (_ & func1 & func2 & _ & _ & Hself & Hr).
  apply elem_of_scorePair in Hr as (_ & _ & _ & _ & -> & -> & _).
  by apply Hself.
Qed.

(** C6 at the failing input.  Of a hundred functions two are at the same
    line of the same file.  With the options left out, so that
    [excludeSelf] is on, [compareAll] pairs no function with one of its
    identity, and [compareAllParallel] returns the pair of the two first
    of all, whatever the number of cores. *)
Theorem compareAllParallel_pairs_self (numCores : nat) :
  Forall (λ r, ¬ sameReference (function1 r) (function2 r))
    (compareAll hundredFunctions noOptions)
  ∧ ∃ r, head (compareAllParallel numCores hundredFunctions noOptions) = Some r
         ∧ function1 r = reference (lineFunction 0)
         ∧ function2 r = reference (lineFunction 1)
         ∧ sameReference (function1 r) (function2 r).
Proof.
  split; [by apply compareAll_excludeSelf |].
  rewrite compareAllParallel_large by (vm_compute; lia).
  eexists. split; [vm_compute; reflexivity |]. by vm_compute.
Qed.

(** C1 at the failing input: on the hundred functions, with the options
    left out, [compareAll] returns 4949 results and [compareAllParallel]
    returns 4950, whatever the number of cores. *)
Theorem compareAllParallel_differs (numCores : nat) :
  length (compareAll hundredFunctions noOptions) = 4949
  ∧ length (compareAllParallel numCores hundredFunctions noOptions) = 4950
  ∧ compareAllParallel numCores hundredFunctions noOptions
    ≠ compareAll hundredFunctions noOptions.
Proof.
  assert (length (compareAll hundredFunctions noOptions) = 4949) as H1
    by (by vm_compute).
  assert (length (compareAllParallel numCores hundredFunctions noOptions) = 4950)
    as H2.
  { rewrite compareAllParallel_large by (vm_compute; lia). by vm_compute. }
  split; [done |]. split; [done |]. intros Heq. rewrite Heq in H2. lia.
Qed.

(** C7.  The list returned by [compareAll] and the list returned by
    [compareAllParallel], whatever the number of cores and so whatever the
    strips of the workers, are sorted descending by [normalizedScore], and
    results of equal [normalizedScore] are in the order of their pairs
    [(i, j)] in the sequence compared, which is the input in its order
    without the functions of too few lines. *)
Theorem outputs_sorted (numCores : nat) (functions : list ExtractedFunction)
    (options : ComparisonOptions) :
  let filteredFunctions :=
    filterByMinLines (default 0%Q (minLines options)) functions in
  filteredFunctions `sublist_of` functions
  ∧ sortedOutput filteredFunctions (compareAll functions options)
  ∧ sortedOutput filteredFunctions
      (compareAllParallel numCores functions options).
Proof.
  cbv zeta. split; [apply filterByMinLines_sublist |].
  destruct (driver_outputs numCores functions options) as [-> [b ->]].
  assert (∀ b, sortedOutput
            (filterByMinLines (default 0%Q (minLines options)) functions)
            (arraySort (λ p q, byScoreDescending p.2 q.2)
               (emittedPairs b (default 0%Q (minSimilarity options))
                  (default true (normalize options))
                  (filterByMinLines (default 0%Q (minLines options))
                     functions))).*2) as Hsorted; [| by split].
  clear b. intros b. split; [apply sorted_emittedPairs_descending |].
  eexists. split; [done |]. split; [| apply sorted_emittedPairs_ranked].
  rewrite Forall_forall. intros [[i j] r] Hp. apply elem_of_arraySort in Hp.
  apply elem_of_emittedPairs in Hp as (Hij & func1 & func2 & Hi & Hj & _ & Hr).
  apply elem_of_scorePair in Hr as (_ & _ & _ & _ & Hf1 & Hf2 & _).
  split; [simpl; lia |]. by exists func1, func2.
Qed.

(** C9.  Every result returned by [compareAll] or by [compareAllParallel]
    has a normalized score between 0 and 100 that is at least the
    threshold configured, and is made of two functions of the input, the
    first one at the lower index. *)
Theorem outputs_valid (numCores : nat) (functions : list ExtractedFunction)
    (options : ComparisonOptions) :
  Forall (validResult functions options) (compareAll functions options)
  ∧ Forall (validResult functions options)
      (compareAllParallel numCores functions options).
Proof.
  destruct (driver_outputs numCores functions options) as [-> [b ->]].
  assert (∀ b, Forall (validResult functions options)
            (arraySort (λ p q, byScoreDescending p.2 q.2)
               (emittedPairs b (default 0%Q (minSimilarity options))
                  (default true (normalize options))
                  (filterByMinLines (default 0%Q (minLines options))
                     functions))).*2) as Hvalid; [| by split].
  clear b. intros b. rewrite Forall_forall. intros r Hr.
  apply elem_of_sorted_emittedPairs in Hr as (i & j & Hr).
  apply elem_of_emittedPairs in Hr as (Hij & func1 & func2 & Hi & Hj & _ & Hr).
  apply elem_of_scorePair in Hr as (_ & Hscore & Hmin & _ & Hf1 & Hf2 & _).
  unfold validResult. rewrite Hscore in *.
  split; [apply calculateSimilarityWithThreshold_range |].
  split; [apply calculateSimilarityWithThreshold_range |].
  split; [done |].
  destruct (sublist_lookup_pair _ _
              (filterByMinLines_sublist (default 0%Q (minLines options))
                 functions) i j func1 func2) as (i' & j' & Hlt & Hi' & Hj');
    [lia | done | done |].
  by exists i', j', func1, func2.
Qed.

(** C8.  With [minLines > 0], [compareAll] compares the functions of at
    least [minLines] lines, in their order, and nothing else: it returns
    what it returns for the functions that remain with [minLines] left
    out, and no function of fewer lines is part of a result. *)
Theorem compareAll_minLines (functions : list ExtractedFunction)
    (options : ComparisonOptions) (m : Q) :
  minLines options = Some m → (0 < m)%Q →
  let kept := filter (λ f, (m <= inject_Z (lineCount f))%Q) functions in
  kept `sublist_of` functions
  ∧ compareAll functions options = compareAll kept (withoutMinLines options)
  ∧ Forall (λ r, (m <= inject_Z (lines1 r))%Q ∧ (m <= inject_Z (lines2 r))%Q
                 ∧ ∀ f, (inject_Z (lineCount f) < m)%Q →
                        function1 r ≠ reference f ∧ function2 r ≠ reference f)
      (compareAll functions options).
Proof.
  intros Hm Hpos. cbv zeta.
  assert (filterByMinLines (default 0%Q (minLines options)) functions
          = filter (λ f, (m <= inject_Z (lineCount f))%Q) functions) as Hkept.
  { rewrite Hm. unfold filterByMinLines. simpl. by rewrite decide_True. }
  split; [apply sublist_filter |].
  split.
  { unfold compareAll. cbv zeta. rewrite Hkept. simpl. done. }
  rewrite Forall_forall. intros r Hr.
  rewrite compareAll_emittedPairs in Hr.
  apply elem_of_sorted_emittedPairs in Hr as (i & j & Hr).
  apply elem_of_emittedPairs in Hr as (_ & func1 & func2 & Hi & Hj & _ & Hr).
  apply elem_of_scorePair in Hr as (_ & _ & _ & _ & Hf1 & Hf2 & -> & ->).
  apply list_elem_of_lookup_2 in Hi, Hj. rewrite Hkept in Hi, Hj.
  apply list_elem_of_filter in Hi as [Hi _], Hj as [Hj _].
  split; [done |]. split; [done |]. intros f Hf. rewrite Hf1, Hf2.
  assert (∀ func, (m <= inject_Z (lineCount func))%Q →
                  reference func ≠ reference f) as Hne.
  { intros func Hfunc Heq. apply (Qlt_not_le _ _ Hf).
    replace (lineCount f) with (lineCount func); [done |].
    unfold lineCount. injection Heq as _ _ Hstart Hend.
    by rewrite Hstart, Hend. }
  split; by apply Hne.
Qed.

Lemma compareAll_minLines_witness :
  compareAll [threeLines; tenLines; tenLines]
    {| minSimilarity := None; minLines := Some 5%Q; normalize := None;
       excludeSelf := Some false |}
  = compareAll [tenLines; tenLines]
      {| minSimilarity := None; minLines := None; normalize := None;
         excludeSelf := Some false |}.
Proof.
  apply (compareAll_minLines [threeLines; tenLines; tenLines]
           {| minSimilarity := None; minLines := Some 5%Q; normalize := None;
              excludeSelf := Some false |} 5%Q); [reflexivity | by vm_compute].
Defined.

(** C10.  [compareOne] returns no result that pairs the target with a
    function of the identity of the target, whatever [excludeSelf] is, an
    option it does not read; and with [minLines > 0] and a target of fewer
    lines than [minLines] it returns the empty list. *)
Theorem compareOne_skips_self (targetFunction : ExtractedFunction)
    (allFunctions : list ExtractedFunction) (options : ComparisonOptions) :
  Forall (λ r, function1 r = reference targetFunction
               ∧ ¬ sameReference (function2 r) (reference targetFunction)
               ∧ ∃ func, func ∈ allFunctions ∧ function2 r = reference func
                         ∧ ¬ sameIdentity func targetFunction)
    (compareOne targetFunction allFunctions options)
  ∧ (∀ b, compareOne targetFunction allFunctions (withExcludeSelf b options)
          = compareOne targetFunction allFunctions options)
  ∧ (∀ m, minLines options = Some m → (0 < m)%Q →
          (inject_Z (lineCount targetFunction) < m)%Q →
          compareOne targetFunction allFunctions options = []).
Proof.
  split; [| split].
  - rewrite Forall_forall. intros r Hr. unfold compareOne in Hr. cbv zeta in Hr.
    case_decide; [set_solver |].
    apply elem_of_arraySort, list_elem_of_bind in Hr as (func & Hr & Hfunc).
    repeat case_decide; try (by apply elem_of_nil in Hr).
    apply list_elem_of_singleton in Hr as ->. simpl.
    split; [done |]. split; [| by exists func].
    unfold sameReference, sameIdentity in *. simpl. done.
  - intros b. done.
  - intros m Hm Hpos Hlt. unfold compareOne. cbv zeta. rewrite Hm. simpl.
    by rewrite decide_True.
Qed.

(** ** Further checks of the embedding *)

(** X1.  The distance does not depend on the order of the two strings. *)
Lemma levenshteinDistance_sym (str1 str2 : jsstring) :
  levenshteinDistance str1 str2 = levenshteinDistance str2 str1.
Proof. rewrite !levenshteinDistance_lev. apply lev_sym. Qed.

Example levenshteinDistance_kitten :
  levenshteinDistance (js "kitten") (js "sitting") = 3.
Proof. reflexivity. Qed.

(** The scenario of the specification: the two one-line functions are five
    substitutions apart on 28 code units and score 82.14, and the pair is
    reported at the threshold 80. *)
Example compareAll_two_functions :
  let A := {| name := js "f"; code := js "function f(a,b){return a+b;}";
              normalizedCode := js "function f(a,b){return a+b;}";
              filePath := js "a.ts"; startLine := 1; endLine := 1 |} in
  let B := {| name := js "g"; code := js "function g(x,y){return x+y;}";
              normalizedCode := js "function g(x,y){return x+y;}";
              filePath := js "a.ts"; startLine := 2; endLine := 2 |} in
  normalizedScore
    <$> compareAll [A; B]
          {| minSimilarity := Some 80%Q; minLines := None; normalize := None;
             excludeSelf := None |}
  = [(8214 # 100)%Q].
Proof. cbv zeta. vm_compute. reflexivity. Qed.


(** * Further properties of the code *)

(** ** The distance *)

(** X2.  The distance obeys the triangle inequality: going from [a] to [c]
    costs at most going from [a] to [b] and from [b] to [c]. *)
Theorem levenshteinDistance_triangle (a b c : jsstring) :
  levenshteinDistance a c ≤ levenshteinDistance a b + levenshteinDistance b c.
Proof.
  rewrite !levenshteinDistance_lev. apply lev_lower.
  eapply edits_app; apply lev_upper.
Qed.

(** X3.  The distance is 0 for equal strings and for no others. *)
Theorem levenshteinDistance_zero_iff (a b : jsstring) :
  levenshteinDistance a b = 0 ↔ a = b.
Proof.
  rewrite levenshteinDistance_lev. split.
  - intros H0. pose proof (lev_upper a b) as Hedits. rewrite H0 in Hedits.
    by inversion Hedits.
  - intros ->. apply lev_refl.
Qed.

(** X4.  The distance is at least the difference of the two lengths and at
    most the greater length. *)
Theorem levenshteinDistance_bounds (a b : jsstring) :
  Nat.max (length a) (length b) - Nat.min (length a) (length b)
    ≤ levenshteinDistance a b
  ∧ levenshteinDistance a b ≤ Nat.max (length a) (length b).
Proof.
  rewrite levenshteinDistance_lev.
  pose proof (lev_length_diff a b). pose proof (lev_le_max a b). lia.
Qed.

(** X5.  Called without [maxDistance], the thresholded function returns
    what [levenshteinDistance] returns. *)
Theorem levenshteinDistanceWithThreshold_no_ceiling (a b : jsstring) :
  levenshteinDistanceWithThreshold a b None
  = Z.of_nat (levenshteinDistance a b).
Proof.
  rewrite levenshteinDistance_lev.
  destruct (levenshteinDistanceWithThreshold_cases a b None)
    as [-> | (c' & [=] & _)]. done.
Qed.

(** ** The scorers *)

Lemma mathRound_comp (x y : Q) : x == y → mathRound x = mathRound y.
Proof.
  intros Hxy. unfold mathRound. f_equal. apply Qfloor_comp. by rewrite Hxy.
Qed.

(** The formula of the thresholded scorer, at the edit distance, is the
    formula of the unconstrained one. *)
Lemma calculateSimilarity_formula (a b : jsstring) :
  a ≠ b → a ≠ [] → b ≠ [] →
  let maxLength := Z.max (Z.of_nat (length a)) (Z.of_nat (length b)) in
  calculateSimilarity a b
  = (mathRound (inject_Z (maxLength - Z.of_nat (levenshteinDistance a b))
                / inject_Z maxLength * 10000) / 100)%Q.
Proof.
  intros Hab Ha Hb. cbv zeta. unfold calculateSimilarity.
  rewrite decide_False by done.
  rewrite decide_False by (destruct a; [done | simpl; lia]).
  rewrite decide_False by (destruct a, b; try done; simpl; lia).
  f_equal. apply mathRound_comp. ring.
Qed.

(** X6.  The unconstrained score is a percentage with two decimals: it is
    between 0 and 100 and a whole number of hundredths. *)
Theorem calculateSimilarity_percentage (a b : jsstring) :
  (0 <= calculateSimilarity a b)%Q ∧ (calculateSimilarity a b <= 100)%Q
  ∧ ∃ k : Z, calculateSimilarity a b == inject_Z k / 100.
Proof.
  split; [apply calculateSimilarity_range |].
  split; [apply calculateSimilarity_range |].
  unfold calculateSimilarity. repeat case_decide.
  - by exists 10000%Z.
  - by exists 10000%Z.
  - by exists 0%Z.
  - eexists. unfold mathRound. reflexivity.
Qed.

Lemma calculateSimilarity_sym_eq (a b : jsstring) :
  calculateSimilarity a b = calculateSimilarity b a.
Proof.
  unfold calculateSimilarity.
  rewrite !levenshteinDistance_lev, (lev_sym a b).
  rewrite (Z.max_comm (Z.of_nat (length a))).
  repeat case_decide; try done; naive_solver.
Qed.

(** X7.  The unconstrained score does not depend on the order of the two
    strings. *)
Theorem calculateSimilarity_sym (a b : jsstring) :
  calculateSimilarity a b = calculateSimilarity b a.
Proof. apply calculateSimilarity_sym_eq. Qed.

(** The thresholded scorer against the unconstrained one. *)
Lemma thresholded_score_cases (a b : jsstring) (m : Q) :
  let maxLen := Z.max (Z.of_nat (length a)) (Z.of_nat (length b)) in
  let ceiling := Qfloor (inject_Z maxLen * (1 - m / 100))%Q in
  let d := Z.of_nat (levenshteinDistance a b) in
  calculateSimilarityWithThreshold a b None = calculateSimilarity a b
  ∧ (a = b ∨ a = [] ∨ b = [] ∨ (d ≤ ceiling)%Z →
     calculateSimilarityWithThreshold a b (Some m) = calculateSimilarity a b)
  ∧ (a ≠ b → a ≠ [] → b ≠ [] → (ceiling < d)%Z →
     calculateSimilarityWithThreshold a b (Some m) = 0%Q).
Proof.
  cbv zeta.
  change (Qfloor (inject_Z ?L * (1 - m / 100))%Q) with (distanceCeiling L m).
  assert (Hdeg : a = b ∨ a = [] ∨ b = [] →
            ∀ o, calculateSimilarityWithThreshold a b o = calculateSimilarity a b).
  { intros Hcase o. unfold calculateSimilarityWithThreshold, calculateSimilarity.
    destruct (decide (a = b)); [done |].
    case_decide; [done |]. case_decide as Hone; [done |].
    exfalso. apply Hone.
    destruct Hcase as [? | [-> | ->]]; [done | by left | by right]. }
  assert (Hgen : a ≠ b → a ≠ [] → b ≠ [] → ∀ o,
            calculateSimilarityWithThreshold a b o
            = match overThreshold
                      (distanceCeiling
                         (Z.max (Z.of_nat (length a)) (Z.of_nat (length b))) <$> o)
                      (levenshteinDistanceWithThreshold a b
                         (distanceCeiling
                            (Z.max (Z.of_nat (length a)) (Z.of_nat (length b)))
                            <$> o)) with
              | Some _ => 0%Q
              | None => calculateSimilarity a b
              end).
  { intros Hab Ha Hb o. rewrite calculateSimilarity_formula by done.
    unfold calculateSimilarityWithThreshold.
    rewrite decide_False by done.
    rewrite decide_False by (destruct a; [done | simpl; lia]).
    rewrite decide_False by (destruct a, b; try done; simpl; lia).
    destruct (overThreshold _ _) eqn:Hover; [done |].
    by rewrite (distance_within _ _ _ Hover). }
  destruct (decide (a = b ∨ a = [] ∨ b = [])) as [Hcase | Hcase].
  { split; [by apply Hdeg |]. split; [intros _; by apply Hdeg |].
    intros Hab Ha Hb. naive_solver. }
  assert (a ≠ b ∧ a ≠ [] ∧ b ≠ []) as (Hab & Ha & Hb) by naive_solver.
  split; [by rewrite Hgen |].
  pose proof (levenshteinDistanceWithThreshold_ceiling a b
                (distanceCeiling
                   (Z.max (Z.of_nat (length a)) (Z.of_nat (length b))) m))
    as [Hle Hgt].
  split.
  - intros [? | [? | [? | Hd]]]; try done.
    rewrite Hgen by done. simpl. rewrite (Hle Hd).
    unfold overThreshold. by rewrite decide_False by lia.
  - intros _ _ _ Hd. rewrite Hgen by done. simpl.
    destruct (Hgt Hd) as [Hr _].
    unfold overThreshold. by rewrite decide_True by lia.
Qed.

Lemma thresholded_None (a b : jsstring) :
  calculateSimilarityWithThreshold a b None = calculateSimilarity a b.
Proof. apply (thresholded_score_cases a b 0). Qed.

(** X8.  For strings of fewer than 20000 code units, [calculateSimilarity]
    returns 100 for equal strings only, and 0 only when the strings are as
    far apart as the longer one is long: below that length the rounding to
    two decimals reaches neither end of the scale. *)
Theorem calculateSimilarity_ends (a b : jsstring) :
  (Z.max (Z.of_nat (length a)) (Z.of_nat (length b)) < 20000)%Z →
  ((calculateSimilarity a b == 100)%Q ↔ a = b)
  ∧ ((calculateSimilarity a b == 0)%Q
     ↔ a ≠ b ∧ levenshteinDistance a b = Nat.max (length a) (length b)).
Proof.
  intros Hlen.
  destruct (decide (a = b)) as [-> | Hab].
  { unfold calculateSimilarity. rewrite decide_True by done.
    split; [done |]. split; [done | by intros [? _]]. }
  destruct (decide (a = [] ∨ b = [])) as [Hone | Hboth].
  { assert (calculateSimilarity a b = 0%Q) as ->.
    { unfold calculateSimilarity. rewrite decide_False by done.
      rewrite decide_False by (intros [? ?]; apply Hab; by destruct a, b).
      rewrite decide_True; [done |].
      destruct Hone as [-> | ->]; [by left | by right]. }
    split; [split; [done | by intros ?] |].
    split; [| done]. intros _. split; [done |].
    rewrite levenshteinDistance_lev.
    destruct Hone as [-> | ->]; [rewrite lev_nil_l | rewrite lev_nil_r];
      simpl; lia. }
  rewrite calculateSimilarity_formula by naive_solver.
  set (maxLength := Z.max (Z.of_nat (length a)) (Z.of_nat (length b))).
  set (distance := Z.of_nat (levenshteinDistance a b)).
  assert (0 < maxLength)%Z as HLpos.
  { subst maxLength. destruct a; [naive_solver | simpl; lia]. }
  assert (maxLength < 20000)%Z as HLmax by done.
  assert (1 ≤ distance)%Z as Hd1.
  { subst distance. rewrite levenshteinDistance_lev.
    destruct (lev a b) eqn:H0; [| lia].
    pose proof (lev_upper a b) as Hedits. rewrite H0 in Hedits.
    by inversion Hedits. }
  assert (distance ≤ maxLength)%Z as HdL.
  { pose proof (levenshteinDistance_le_max a b). subst distance maxLength. lia. }
  assert (0 < inject_Z maxLength)%Q as HL.
  { change 0%Q with (inject_Z 0). by rewrite <- Zlt_Qlt. }
  set (y := (inject_Z (maxLength - distance) / inject_Z maxLength * 10000)%Q).
  assert (y * inject_Z maxLength == 10000 * inject_Z (maxLength - distance))%Q
    as Hy.
  { subst y. field. intros H0. rewrite H0 in HL. by apply Qlt_irrefl in HL. }
  rewrite inject_Z_minus in Hy.
  assert (inject_Z maxLength < 20000)%Q as HLmaxQ.
  { change 20000%Q with (inject_Z 20000). by rewrite <- Zlt_Qlt. }
  assert (1 <= inject_Z distance)%Q as Hd1Q.
  { change 1%Q with (inject_Z 1). by rewrite <- Zle_Qle. }
  pose proof (Qfloor_le (y + (1 # 2))) as Hfloor.
  pose proof (Qlt_floor (y + (1 # 2))) as Hfloor'.
  split.
  - split; [| done]. intros H100. exfalso.
    assert (mathRound y == 10000)%Q as Hround.
    { unfold Qdiv in H100. change (/ 100)%Q with (1 # 100)%Q in H100. lra. }
    unfold mathRound in Hround. rewrite Hround in Hfloor.
    assert ((10000 - (1 # 2)) * inject_Z maxLength <= y * inject_Z maxLength)%Q
      as Hmul by (apply Qmult_le_compat_r; lra).
    lra.
  - split.
    + intros H0. split; [done |].
      assert (mathRound y == 0)%Q as Hround.
      { unfold Qdiv in H0. change (/ 100)%Q with (1 # 100)%Q in H0. lra. }
      unfold mathRound in Hround.
      rewrite inject_Z_plus in Hfloor'. change (inject_Z 1) with 1%Q in Hfloor'.
      assert (y * inject_Z maxLength <= (1 # 2) * inject_Z maxLength)%Q
        as Hmul by (apply Qmult_le_compat_r; lra).
      assert (inject_Z (maxLength - distance) < inject_Z 1)%Q as Hlt.
      { rewrite inject_Z_minus. change (inject_Z 1) with 1%Q. lra. }
      rewrite <- Zlt_Qlt in Hlt. subst distance maxLength. lia.
    + intros [_ Heq].
      assert (distance = maxLength) as Hfull by (subst distance maxLength; lia).
      assert (y == 0)%Q as Hy0.
      { subst y. rewrite Hfull, Z.sub_diag. unfold Qdiv. ring. }
      rewrite (mathRound_comp y 0 Hy0). done.
Qed.

Lemma calculateSimilarity_ends_witness :
  ((calculateSimilarity (js "abc") (js "abd") == 100)%Q ↔ js "abc" = js "abd")
  ∧ ((calculateSimilarity (js "abc") (js "abd") == 0)%Q
     ↔ js "abc" ≠ js "abd"
       ∧ levenshteinDistance (js "abc") (js "abd")
         = Nat.max (length (js "abc")) (length (js "abd"))).
Proof.
  apply (calculateSimilarity_ends (js "abc") (js "abd")).
  vm_compute. reflexivity.
Defined.

(** ** The frequency check *)

Lemma sumOver_zero (X : gset codeunit) (g : codeunit → Z) :
  (∀ c, c ∈ X → g c = 0%Z) → sumOver X g = 0%Z.
Proof.
  induction X as [| x X Hx IH] using set_ind_L; intros Hg.
  { apply sumOver_empty. }
  rewrite sumOver_insert, IH, Hg by set_solver. done.
Qed.

Lemma occurrences_Permutation (c : codeunit) (a b : jsstring) :
  a ≡ₚ b → occurrences c a = occurrences c b.
Proof. induction 1; simpl; lia. Qed.

Lemma occurrences_elem (c : codeunit) (str : jsstring) :
  c ∈ str → 0 < occurrences c str.
Proof.
  induction str as [| c' str IH]; [by intros ?%elem_of_nil |].
  intros [-> | Hc]%elem_of_cons; simpl.
  - rewrite decide_True by done. lia.
  - specialize (IH Hc). lia.
Qed.

Lemma minEdits_sym (a b : jsstring) : minEdits a b = minEdits b a.
Proof.
  rewrite !minEdits_sumOver, (comm_L (∪) (list_to_set a)).
  apply sumOver_ext. intros c _. unfold countDiff. lia.
Qed.

(** X9.  The map built by the counting loop holds the code units of the
    string and no others, each with the number of its occurrences, which is
    never 0. *)
Theorem charFrequencies_spec (str : jsstring) (c : codeunit) :
  (c ∈ str → charFrequencies str !! c = Some (occurrences c str)
             ∧ 0 < occurrences c str)
  ∧ (c ∉ str → charFrequencies str !! c = None).
Proof.
  pose proof (charFrequencies_lookup str c) as Hlookup.
  pose proof (charFrequencies_dom str) as Hdom.
  assert (c ∈ dom (charFrequencies str) ↔ c ∈ str) as Hin
    by (rewrite Hdom; set_solver).
  rewrite elem_of_dom in Hin. split.
  - intros Hc. pose proof (occurrences_elem c str Hc).
    apply Hin in Hc as [n Hn]. rewrite Hn in Hlookup |- *.
    simpl in Hlookup. by subst n.
  - intros Hc. destruct (charFrequencies str !! c) eqn:Hn; [| done].
    exfalso. apply Hc, Hin. by eexists.
Qed.

(** X10.  When the frequency check fails, the edit distance is above
    [maxDistance]: the check rejects no pair within the distance. *)
Theorem failsFrequencyCheck_sound (str1 str2 : jsstring) (maxDistance : Q) :
  failsFrequencyCheck str1 str2 maxDistance = true →
  (maxDistance < inject_Z (Z.of_nat (levenshteinDistance str1 str2)))%Q.
Proof.
  unfold failsFrequencyCheck. intros Hfails%bool_decide_eq_true.
  eapply Qlt_le_trans; [exact Hfails |].
  apply Qle_shift_div_r; [done |].
  change 2%Q with (inject_Z 2). rewrite <- inject_Z_mult, <- Zle_Qle.
  rewrite levenshteinDistance_lev. pose proof (minEdits_lev str1 str2). lia.
Qed.

Lemma failsFrequencyCheck_sound_witness :
  failsFrequencyCheck (js "abc") (js "xyz") 2 = true
  ∧ (2 < inject_Z (Z.of_nat (levenshteinDistance (js "abc") (js "xyz"))))%Q.
Proof.
  split; [by vm_compute |].
  apply (failsFrequencyCheck_sound (js "abc") (js "xyz") 2). by vm_compute.
Defined.

(** X11.  The frequency check does not depend on the order of the two
    strings. *)
Theorem failsFrequencyCheck_sym (str1 str2 : jsstring) (maxDistance : Q) :
  failsFrequencyCheck str1 str2 maxDistance
  = failsFrequencyCheck str2 str1 maxDistance.
Proof. unfold failsFrequencyCheck. by rewrite minEdits_sym. Qed.

(** X12.  Two strings that are made of the same code units, each as many
    times, pass the frequency check with every [maxDistance >= 0],
    whatever the order of the code units. *)
Theorem failsFrequencyCheck_anagram (str1 str2 : jsstring) (maxDistance : Q) :
  str1 ≡ₚ str2 → (0 <= maxDistance)%Q →
  failsFrequencyCheck str1 str2 maxDistance = false.
Proof.
  intros Hperm Hmax. unfold failsFrequencyCheck.
  apply bool_decide_eq_false, Qle_not_lt.
  rewrite minEdits_sumOver, sumOver_zero.
  - eapply Qle_trans; [| exact Hmax]. done.
  - intros c _. unfold countDiff.
    rewrite (occurrences_Permutation c _ _ Hperm). lia.
Qed.

Lemma failsFrequencyCheck_anagram_witness :
  failsFrequencyCheck (js "listen") (js "silent") 0 = false.
Proof.
  apply (failsFrequencyCheck_anagram (js "listen") (js "silent") 0);
    [| by vm_compute].
  apply (@bool_decide_unpack _
           (Permutation_dec (js "listen") (js "silent"))).
  by vm_compute.
Defined.

(** ** What the driver reports *)

Ltac by_hundredths :=
  unfold Qdiv in *; change (/ 100)%Q with (1 # 100)%Q in *.

(** A distance is within the ceiling when the threshold, as a share of the
    greater length, leaves room for it. *)
Lemma ceiling_room (maxLength distance : Z) (m : Q) :
  (inject_Z maxLength * m <= 100 * inject_Z (maxLength - distance))%Q →
  (distance ≤ distanceCeiling maxLength m)%Z.
Proof.
  intros Hroom. apply Z_le_Qfloor. rewrite inject_Z_minus in Hroom.
  assert (inject_Z maxLength * (1 - m / 100)
          == inject_Z maxLength - inject_Z maxLength * m * (1 # 100))%Q as ->
    by (by_hundredths; ring).
  lra.
Qed.

Lemma ceiling_room_inv (maxLength distance : Z) (m : Q) :
  (distance ≤ distanceCeiling maxLength m)%Z →
  (inject_Z maxLength * m <= 100 * inject_Z (maxLength - distance))%Q.
Proof.
  intros Hd%Qfloor_le_Z. rewrite inject_Z_minus.
  assert (inject_Z maxLength * (1 - m / 100)
          == inject_Z maxLength - inject_Z maxLength * m * (1 # 100))%Q as Heq
    by (by_hundredths; ring).
  rewrite Heq in Hd. lra.
Qed.

Lemma inject_Z_nonneg (z : Z) : (0 ≤ z)%Z → (0 <= inject_Z z)%Q.
Proof. intros Hz. change 0%Q with (inject_Z 0). by rewrite <- Zle_Qle. Qed.

Lemma distanceCeiling_anti (maxLength : Z) (m1 m2 : Q) :
  (0 ≤ maxLength)%Z → (m1 <= m2)%Q →
  (distanceCeiling maxLength m2 ≤ distanceCeiling maxLength m1)%Z.
Proof.
  intros HL Hm. apply Qfloor_resp_le.
  assert (0 <= inject_Z maxLength * (m2 - m1))%Q as Hprod
    by (apply Qmult_le_0_compat; [by apply inject_Z_nonneg | lra]).
  assert (inject_Z maxLength * (1 - m1 / 100) - inject_Z maxLength * (1 - m2 / 100)
          == inject_Z maxLength * (m2 - m1) * (1 # 100))%Q as Heq
    by (by_hundredths; ring).
  lra.
Qed.

Section scores.
Context (a b : jsstring) (m : Q).
Let maxLength := Z.max (Z.of_nat (length a)) (Z.of_nat (length b)).
Let distance := Z.of_nat (levenshteinDistance a b).

(** A thresholded score that reaches the threshold is the unconstrained
    score of a distance within the ceiling. *)
Lemma reached_threshold_within :
  (m <= calculateSimilarityWithThreshold a b (Some m))%Q →
  (distance ≤ distanceCeiling maxLength m)%Z
  ∧ calculateSimilarityWithThreshold a b (Some m) = calculateSimilarity a b.
Proof using Type.
  intros Hm.
  destruct (thresholded_score_cases a b m) as (_ & Hin & Hout).
  cbv zeta in Hin, Hout.
  change (Qfloor (inject_Z ?L * (1 - m / 100))%Q)
    with (distanceCeiling L m) in *.
  fold maxLength distance in Hin, Hout.
  enough (distance ≤ distanceCeiling maxLength m)%Z as Hd.
  { split; [done |]. apply Hin. by do 3 right. }
  pose proof (levenshteinDistance_le_max a b) as Hmax.
  fold maxLength distance in Hmax.
  assert (0 ≤ distance)%Z as Hd0 by (subst distance; lia).
  apply ceiling_room. rewrite inject_Z_minus.
  pose proof (inject_Z_nonneg maxLength ltac:(lia)) as HL.
  destruct (decide (a = b)) as [Hab | Hab].
  { rewrite Hin in Hm by (by left). unfold calculateSimilarity in Hm.
    rewrite decide_True in Hm by done.
    assert (distance = 0%Z) as ->
      by (subst distance a; rewrite levenshteinDistance_lev, lev_refl; done).
    assert (0 <= inject_Z maxLength * (100 - m))%Q as Hprod
      by (apply Qmult_le_0_compat; [done | lra]).
    change (inject_Z 0) with 0%Q.
    assert (inject_Z maxLength * (100 - m)
            == 100 * inject_Z maxLength - inject_Z maxLength * m)%Q as Heq by ring.
    lra. }
  assert (m <= 0 → inject_Z maxLength * m <= 0)%Q as Hneg.
  { intros Hm0.
    assert (0 <= inject_Z maxLength * (0 - m))%Q as Hprod
      by (apply Qmult_le_0_compat; [done | lra]).
    assert (inject_Z maxLength * (0 - m) == - (inject_Z maxLength * m))%Q as Heq
      by ring.
    lra. }
  assert (inject_Z distance <= inject_Z maxLength)%Q as HdL
    by (by rewrite <- Zle_Qle).
  destruct (decide (a = [] ∨ b = [])) as [Hone | Hboth].
  { rewrite Hin in Hm by naive_solver. unfold calculateSimilarity in Hm.
    rewrite decide_False in Hm by done.
    assert (¬ (length a = 0 ∧ length b = 0)) as Hnot.
    { intros [Ha Hb]. apply Hab. destruct a, b; done. }
    rewrite decide_False in Hm by done.
    rewrite decide_True in Hm
      by (destruct Hone as [-> | ->]; [by left | by right]).
    specialize (Hneg Hm). lra. }
  destruct (decide (distance ≤ distanceCeiling maxLength m)%Z) as [Hd | Hd].
  { by apply ceiling_room_inv in Hd; rewrite inject_Z_minus in Hd. }
  rewrite Hout in Hm;
    [| done | intros ->; apply Hboth; by left
     | intros ->; apply Hboth; by right | lia].
  specialize (Hneg Hm). lra.
Qed.

(** Within the ceiling, a threshold of whole hundredths that is at most 100
    is reached by the unconstrained score. *)
Lemma within_reaches_threshold (k : Z) :
  (m == inject_Z k / 100)%Q → (m <= 100)%Q →
  (distance ≤ distanceCeiling maxLength m)%Z →
  (m <= calculateSimilarity a b)%Q.
Proof using Type.
  intros Hk H100 Hd.
  destruct (decide (a = b)) as [Hab | Hab].
  { unfold calculateSimilarity. by rewrite decide_True. }
  pose proof (ceiling_room_inv _ _ _ Hd) as Hroom.
  rewrite inject_Z_minus in Hroom.
  assert (0 < maxLength)%Z as HLpos.
  { subst maxLength. destruct a, b; simpl; try lia. done. }
  assert (0 < inject_Z maxLength)%Q as HL.
  { change 0%Q with (inject_Z 0). by rewrite <- Zlt_Qlt. }
  destruct (decide (a = [] ∨ b = [])) as [Hone | Hboth].
  { unfold calculateSimilarity. rewrite decide_False by done.
    rewrite decide_False by (intros [? ?]; apply Hab; by destruct a, b).
    rewrite decide_True by (destruct Hone as [-> | ->]; [by left | by right]).
    assert (distance = maxLength) as Heq.
    { subst distance maxLength. rewrite levenshteinDistance_lev.
      destruct Hone as [-> | ->]; [rewrite lev_nil_l | rewrite lev_nil_r];
        simpl; lia. }
    rewrite Heq in Hroom.
    assert (inject_Z maxLength * m <= inject_Z maxLength * 0)%Q as Hle by lra.
    by apply Qmult_le_l in Hle. }
  rewrite calculateSimilarity_formula by naive_solver.
  fold maxLength distance.
  set (x := (inject_Z (maxLength - distance) / inject_Z maxLength)%Q).
  assert (m * (1 # 100) <= x)%Q as Hx.
  { subst x. apply Qle_shift_div_l; [done |]. rewrite inject_Z_minus.
    assert (m * (1 # 100) * inject_Z maxLength
            == inject_Z maxLength * m * (1 # 100))%Q as -> by ring.
    lra. }
  assert (k ≤ Qfloor (x * 10000 + (1 # 2)))%Z as Hfloor.
  { apply Z_le_Qfloor. by_hundredths. lra. }
  unfold mathRound. rewrite Hk. by_hundredths.
  rewrite Zle_Qle in Hfloor. lra.
Qed.
End scores.

Section score_pairs.
Context (minSim : Q) (norm : bool) (func1 func2 : ExtractedFunction)
        (raw1 raw2 : jsstring).
Let norm1 := comparedText norm func1.
Let norm2 := comparedText norm func2.
Let maxLength := Z.max (Z.of_nat (length norm1)) (Z.of_nat (length norm2)).
Let distance := Z.of_nat (levenshteinDistance norm1 norm2).

(** A result pushed is the pair of two texts within the ceiling, with their
    unconstrained score as normalized score. *)
Lemma scorePair_within r :
  r ∈ scorePair minSim norm func1 func2 raw1 raw2 →
  (distance ≤ distanceCeiling maxLength minSim)%Z
  ∧ normalizedScore r = calculateSimilarity norm1 norm2.
Proof using Type.
  intros (_ & Hscore & Hmin & _)%elem_of_scorePair.
  rewrite Hscore in Hmin |- *.
  fold (comparedText norm func1) (comparedText norm func2) in *.
  by apply reached_threshold_within.
Qed.

(** Two texts within the ceiling whose unconstrained score reaches the
    threshold are pushed. *)
Lemma scorePair_emits :
  (distance ≤ distanceCeiling maxLength minSim)%Z →
  (minSim <= calculateSimilarity norm1 norm2)%Q →
  ∃ r, scorePair minSim norm func1 func2 raw1 raw2 = [r]
       ∧ normalizedScore r = calculateSimilarity norm1 norm2
       ∧ function1 r = reference func1 ∧ function2 r = reference func2
       ∧ lines1 r = lineCount func1 ∧ lines2 r = lineCount func2.
Proof using Type.
  intros Hd Hmin. unfold scorePair. cbv zeta.
  fold (comparedText norm func1) (comparedText norm func2).
  fold norm1 norm2.
  rewrite (prunes_within norm1 norm2 minSim Hd).
  destruct (thresholded_score_cases norm1 norm2 minSim) as (_ & Hin & _).
  rewrite Hin by (by do 3 right).
  rewrite decide_True by done. eexists. split; [done |]. done.
Qed.
End score_pairs.

(** The results of the sorted list of the pairs pushed, and back. *)
Lemma elem_of_sorted_emittedPairs_2 excludeSelf minSim norm filteredFunctions
    i j r :
  (i, j, r) ∈ emittedPairs excludeSelf minSim norm filteredFunctions →
  r ∈ (arraySort (λ p q, byScoreDescending p.2 q.2)
         (emittedPairs excludeSelf minSim norm filteredFunctions)).*2.
Proof.
  intros Hin. apply list_elem_of_fmap. exists (i, j, r). split; [done |].
  by apply elem_of_arraySort.
Qed.

Lemma elem_of_emittedPairs_2 excludeSelf minSim norm filteredFunctions
    i j func1 func2 r :
  i < j → filteredFunctions !! i = Some func1 →
  filteredFunctions !! j = Some func2 →
  ¬ (excludeSelf = true ∧ sameIdentity func1 func2) →
  r ∈ scorePair minSim norm func1 func2 (code func1) (code func2) →
  (i, j, r) ∈ emittedPairs excludeSelf minSim norm filteredFunctions.
Proof.
  intros Hij Hi Hj Hself Hr. unfold emittedPairs. apply elem_of_pairLoop.
  pose proof (lookup_lt_Some _ _ _ Hi). pose proof (lookup_lt_Some _ _ _ Hj).
  exists i, j. split; [lia |]. split; [lia |]. cbv zeta.
  rewrite (list_lookup_total_correct _ _ _ Hi),
          (list_lookup_total_correct _ _ _ Hj).
  rewrite decide_False by done. apply list_elem_of_fmap. by exists r.
Qed.


Lemma distanceCeiling_full (maxLength : Z) (m : Q) :
  (0 ≤ maxLength)%Z → (m <= 0)%Q → (maxLength ≤ distanceCeiling maxLength m)%Z.
Proof.
  intros HL Hm.
  etrans; [| apply (distanceCeiling_anti maxLength m 0 HL Hm)].
  unfold distanceCeiling. apply Z_le_Qfloor.
  apply Qle_lteq. right. unfold Qdiv. ring.
Qed.

(** X14.  With [minSimilarity] left out, or 0, nothing is filtered:
    [compareAll] reports every pair [i < j] of the functions compared that
    it does not skip as a self pair, with the score the thresholded scorer
    gives the two texts when it is called without threshold. *)
Theorem compareAll_reports_all (functions : list ExtractedFunction)
    (options : ComparisonOptions) (i j : nat)
    (func1 func2 : ExtractedFunction) :
  let filteredFunctions :=
    filterByMinLines (default 0%Q (minLines options)) functions in
  let text1 := comparedText (default true (normalize options)) func1 in
  let text2 := comparedText (default true (normalize options)) func2 in
  (default 0%Q (minSimilarity options) <= 0)%Q →
  i < j → filteredFunctions !! i = Some func1 →
  filteredFunctions !! j = Some func2 →
  ¬ (default true (excludeSelf options) = true ∧ sameIdentity func1 func2) →
  ∃ r, r ∈ compareAll functions options
       ∧ function1 r = reference func1 ∧ function2 r = reference func2
       ∧ normalizedScore r = calculateSimilarityWithThreshold text1 text2 None
       ∧ lines1 r = lineCount func1 ∧ lines2 r = lineCount func2.
Proof.
  cbv zeta. intros Hm Hij Hi Hj Hself.
  destruct (scorePair_emits (default 0%Q (minSimilarity options))
              (default true (normalize options)) func1 func2
              (code func1) (code func2))
    as (r & Hr & Hscore & Hf1 & Hf2 & Hl1 & Hl2).
  - pose proof (levenshteinDistance_le_max
                  (comparedText (default true (normalize options)) func1)
                  (comparedText (default true (normalize options)) func2)).
    etrans; [| apply distanceCeiling_full; [lia | done]]. lia.
  - eapply Qle_trans; [exact Hm |]. apply calculateSimilarity_range.
  - exists r. split; [| repeat (split; [done |]); split; [| done]].
    + rewrite compareAll_emittedPairs.
      apply (elem_of_sorted_emittedPairs_2 _ _ _ _ i j).
      apply (elem_of_emittedPairs_2 _ _ _ _ i j func1 func2); try done.
      rewrite Hr. apply list_elem_of_here.
    + rewrite Hscore. symmetry. apply thresholded_None.
Qed.

Lemma compareAll_reports_all_witness :
  ∃ r, r ∈ compareAll [addFunction; sumFunction] noOptions
       ∧ function1 r = reference addFunction
       ∧ function2 r = reference sumFunction
       ∧ normalizedScore r
         = calculateSimilarityWithThreshold (normalizedCode addFunction)
             (normalizedCode sumFunction) None
       ∧ lines1 r = lineCount addFunction ∧ lines2 r = lineCount sumFunction.
Proof.
  apply (compareAll_reports_all [addFunction; sumFunction] noOptions 0 1
           addFunction sumFunction).
  - by vm_compute.
  - lia.
  - reflexivity.
  - reflexivity.
  - intros [_ [_ [=]]].
Defined.

(** X15.  Raising [minSimilarity] only removes pairs: what [compareAll]
    reports with the higher threshold it reports with the lower one, the
    same two functions with the same normalized score. *)
Theorem compareAll_threshold_monotone (functions : list ExtractedFunction)
    (options : ComparisonOptions) (m1 m2 : Q) :
  (m1 <= m2)%Q →
  Forall (λ r, ∃ r', r' ∈ compareAll functions (withMinSimilarity m1 options)
                     ∧ function1 r' = function1 r ∧ function2 r' = function2 r
                     ∧ normalizedScore r' = normalizedScore r
                     ∧ lines1 r' = lines1 r ∧ lines2 r' = lines2 r)
    (compareAll functions (withMinSimilarity m2 options)).
Proof.
  intros Hm. rewrite Forall_forall. intros r Hr.
  rewrite compareAll_emittedPairs in Hr. simpl in Hr.
  apply elem_of_sorted_emittedPairs in Hr as (i & j & Hr).
  apply elem_of_emittedPairs in Hr as (Hij & func1 & func2 & Hi & Hj & Hself & Hr).
  pose proof (scorePair_within _ _ _ _ _ _ _ Hr) as [Hd Hscore].
  apply elem_of_scorePair in Hr as (_ & _ & Hmin & _ & Hf1 & Hf2 & Hl1 & Hl2).
  rewrite Hscore in Hmin.
  destruct (scorePair_emits m1 (default true (normalize options)) func1 func2
              (code func1) (code func2))
    as (r' & Hr' & Hscore' & Hf1' & Hf2' & Hl1' & Hl2').
  { etransitivity; [exact Hd |]. apply distanceCeiling_anti; [lia | done]. }
  { by eapply Qle_trans. }
  exists r'. split; [| by rewrite Hscore', Hf1', Hf2', Hl1', Hl2'].
  rewrite compareAll_emittedPairs. simpl.
  apply (elem_of_sorted_emittedPairs_2 _ _ _ _ i j).
  apply (elem_of_emittedPairs_2 _ _ _ _ i j func1 func2); try done; [lia | |].
  - intros [Hex Hsame]. by apply Hself.
  - rewrite Hr'. apply list_elem_of_here.
Qed.

Lemma compareAll_threshold_monotone_witness :
  Forall (λ r, ∃ r', r' ∈ compareAll [addFunction; sumFunction]
                            (withMinSimilarity 50 noOptions)
                     ∧ function1 r' = function1 r ∧ function2 r' = function2 r
                     ∧ normalizedScore r' = normalizedScore r
                     ∧ lines1 r' = lines1 r ∧ lines2 r' = lines2 r)
    (compareAll [addFunction; sumFunction] (withMinSimilarity 80 noOptions)).
Proof.
  apply (compareAll_threshold_monotone [addFunction; sumFunction] noOptions
           50 80).
  by vm_compute.
Defined.

(** ** How many results *)

Lemma length_bind_le {X Y : Type} (f : X → list Y) (l : list X) :
  (∀ x, length (f x) ≤ 1) → length (l ≫= f) ≤ length l.
Proof.
  intros Hf. induction l as [| x l IH]; [done |].
  rewrite bind_cons, length_app. specialize (Hf x). simpl. lia.
Qed.

Lemma length_pairLoop {B : Type} (body : nat → nat → list B) (len : nat) :
  (∀ i j, length (body i j) ≤ 1) →
  ∀ count start, start + count ≤ len →
  2 * length (pairLoop start count len body) + count * (2 * start + count + 1)
  ≤ 2 * count * len.
Proof.
  intros Hbody. unfold pairLoop.
  induction count as [| count IH]; intros start Hlen; [simpl; lia |].
  cbn [seq]. rewrite bind_cons, length_app.
  pose proof (length_bind_le (λ j, body start j)
                (seq (start + 1) (len - (start + 1))) (Hbody start)) as Hrow.
  rewrite length_seq in Hrow. specialize (IH (S start) ltac:(lia)).
  revert Hrow IH. generalize (length (seq (start + 1) (len - (start + 1))
                                       ≫= λ j, body start j)).
  generalize (length (seq (S start) count
                        ≫= λ i, seq (i + 1) (len - (i + 1)) ≫= λ j, body i j)).
  intros rest row Hrow IH. nia.
Qed.

Lemma length_emittedPairs excludeSelf minSim norm filteredFunctions :
  2 * length (emittedPairs excludeSelf minSim norm filteredFunctions)
  ≤ length filteredFunctions * (length filteredFunctions - 1).
Proof.
  unfold emittedPairs.
  match goal with
  | |- context [pairLoop _ _ _ ?body] =>
      assert (∀ i j, length (body i j) ≤ 1) as Hbody
  end.
  { intros i j. cbv beta zeta.
    destruct (decide (excludeSelf = true ∧ _)); [apply Nat.le_0_l |].
    rewrite length_fmap. apply length_scorePair. }
  pose proof (length_pairLoop _ (length filteredFunctions) Hbody
                (length filteredFunctions) 0 (Nat.le_refl _)) as Hlen.
  revert Hlen.
  match goal with
  | |- context [length (pairLoop ?s ?c ?l ?body)] =>
      generalize (length (pairLoop s c l body))
  end.
  generalize (length filteredFunctions). intros [| n] x Hlen; [lia |].
  replace (S n - 1) with n by lia. nia.
Qed.

(** X16.  [compareAll] and [compareAllParallel] return at most one result
    for each of the [n (n - 1) / 2] pairs of the [n] functions handed over;
    in particular they return the empty list for fewer than two
    functions. *)
Theorem drivers_result_count (numCores : nat)
    (functions : list ExtractedFunction) (options : ComparisonOptions) :
  2 * length (compareAll functions options)
    ≤ length functions * (length functions - 1)
  ∧ 2 * length (compareAllParallel numCores functions options)
    ≤ length functions * (length functions - 1).
Proof.
  destruct (driver_outputs numCores functions options) as [-> [b ->]].
  pose proof (sublist_length _ _
                (filterByMinLines_sublist (default 0%Q (minLines options))
                   functions)) as Hsub.
  split; rewrite length_fmap, length_arraySort;
    match goal with
    | |- context [emittedPairs ?e ?m ?n ?fs] =>
        pose proof (length_emittedPairs e m n fs)
    end; nia.
Qed.

Lemma StronglySorted_NoDup {A : Type} (R : relation A) (l : list A) :
  (∀ x, ¬ R x x) → StronglySorted R l → NoDup l.
Proof.
  intros Hirr. induction 1 as [| x l Hl IH Hx]; constructor; [| done].
  intros Hin. rewrite Forall_forall in Hx. by apply (Hirr x), Hx.
Qed.

(** X17.  No pair is reported twice: the results of [compareAll] and of
    [compareAllParallel] are the results of pairs [(i, j)], [i < j], of the
    functions compared, every pair at most once. *)
Theorem drivers_report_once (numCores : nat)
    (functions : list ExtractedFunction) (options : ComparisonOptions) :
  let filteredFunctions :=
    filterByMinLines (default 0%Q (minLines options)) functions in
  let once (output : list SimilarityResult) :=
    ∃ pairs : list (nat * nat * SimilarityResult),
      pairs.*2 = output ∧ Forall (pairOf filteredFunctions) pairs
      ∧ NoDup pairs.*1 in
  once (compareAll functions options)
  ∧ once (compareAllParallel numCores functions options).
Proof.
  cbv zeta.
  destruct (driver_outputs numCores functions options) as [-> [b ->]].
  enough (∀ b', ∃ pairs : list (nat * nat * SimilarityResult),
            pairs.*2
            = (arraySort (λ p q, byScoreDescending p.2 q.2)
                 (emittedPairs b' (default 0%Q (minSimilarity options))
                    (default true (normalize options))
                    (filterByMinLines (default 0%Q (minLines options))
                       functions))).*2
            ∧ Forall (pairOf (filterByMinLines (default 0%Q (minLines options))
                                functions)) pairs
            ∧ NoDup pairs.*1) as Hall by (split; apply Hall).
  intros b'. eexists. split; [done |]. split.
  - rewrite Forall_forall. intros [[i j] r] Hp. apply elem_of_arraySort in Hp.
    apply elem_of_emittedPairs in Hp as (Hij & func1 & func2 & Hi & Hj & _ & Hr).
    apply elem_of_scorePair in Hr as (_ & _ & _ & _ & Hf1 & Hf2 & _).
    split; [simpl; lia |]. by exists func1, func2.
  - rewrite arraySort_perm.
    apply (StronglySorted_NoDup pairBefore); [unfold pairBefore; lia |].
    apply (StronglySorted_fmap fst (λ p q, pairBefore p.1 q.1)); [done |].
    apply emittedPairs_sorted.
Qed.

(** ** One function against the others *)

Lemma compareOne_unfold targetFunction allFunctions options :
  compareOne targetFunction allFunctions options
  = if decide (0 < default 0 (minLines options)
               ∧ inject_Z (lineCount targetFunction)
                 < default 0 (minLines options))%Q
    then []
    else arraySort byScoreDescending
           (allFunctions ≫= compareOneBody targetFunction options).
Proof. done. Qed.

Section indexed.
Context {A B : Type} (body : A → list B).

Lemma indexedFrom_snd (l : list A) : ∀ start,
  (indexedFrom start body l).*2 = l ≫= body.
Proof.
  induction l as [| x l IH]; intros start; [done |].
  cbn [indexedFrom]. rewrite fmap_app, IH, bind_cons. f_equal.
  rewrite <- list_fmap_compose. apply list_fmap_id.
Qed.

Lemma elem_of_indexedFrom (l : list A) : ∀ start k r,
  (k, r) ∈ indexedFrom start body l →
  start ≤ k ∧ ∃ x, l !! (k - start) = Some x ∧ r ∈ body x.
Proof.
  induction l as [| x l IH]; intros start k r Hin; [by apply elem_of_nil in Hin |].
  cbn [indexedFrom] in Hin. apply elem_of_app in Hin as [Hin | Hin].
  - apply list_elem_of_fmap in Hin as (r' & [= -> ->] & Hr).
    split; [lia |]. exists x. by rewrite Nat.sub_diag.
  - apply IH in Hin as (Hk & y & Hy & Hr). split; [lia |]. exists y.
    replace (k - start) with (S (k - S start)) by lia. done.
Qed.

Lemma indexedFrom_sorted (l : list A) :
  (∀ x, length (body x) ≤ 1) →
  ∀ start, StronglySorted (λ p q : nat * B, p.1 < q.1) (indexedFrom start body l).
Proof.
  intros Hone. induction l as [| x l IH]; intros start; [constructor |].
  cbn [indexedFrom]. apply StronglySorted_app_2; [| | apply IH].
  - intros [k r] [k' r'] Hin Hin'.
    apply list_elem_of_fmap in Hin as (? & [= -> ->] & _).
    apply elem_of_indexedFrom in Hin' as [Hk _]. simpl. lia.
  - specialize (Hone x). destruct (body x) as [| r [| ? ?]]; simpl in Hone;
      [constructor | repeat constructor | lia].
Qed.
End indexed.

Lemma length_compareOneBody targetFunction options func :
  length (compareOneBody targetFunction options func) ≤ 1.
Proof.
  unfold compareOneBody. cbv zeta.
  repeat (destruct (decide _)); simpl; lia.
Qed.

Lemma elem_of_compareOneBody targetFunction options func r :
  r ∈ compareOneBody targetFunction options func →
  let norm := default true (normalize options) in
  ¬ sameIdentity func targetFunction
  ∧ ((0 < default 0 (minLines options))%Q →
     (default 0 (minLines options) <= inject_Z (lineCount func))%Q)
  ∧ function1 r = reference targetFunction ∧ function2 r = reference func
  ∧ normalizedScore r
    = calculateSimilarity (comparedText norm targetFunction)
        (comparedText norm func)
  ∧ similarityScore r = calculateSimilarity (code targetFunction) (code func)
  ∧ (default 0 (minSimilarity options) <= normalizedScore r)%Q
  ∧ lines1 r = lineCount targetFunction ∧ lines2 r = lineCount func.
Proof.
  unfold compareOneBody, comparedText. cbv zeta.
  destruct (decide (_ ∧ _)%Q) as [Hsmall | Hsmall];
    [by intros ?%elem_of_nil |].
  destruct (decide (sameIdentity _ _)); [by intros ?%elem_of_nil |].
  destruct (decide (_ <= _)%Q); [| by intros ?%elem_of_nil].
  intros ->%list_elem_of_singleton. simpl.
  split; [done |]. split; [| by destruct (default true (normalize options))].
  intros Hpos. apply Qnot_lt_le. intros Hlt. by apply Hsmall.
Qed.

Lemma arraySort_descending {A : Type} (key : A → Q) (l : list A) :
  StronglySorted (λ a b, key b <= key a)%Q
    (arraySort (λ a b, key b - key a)%Q l).
Proof.
  apply (ranked_descending key (λ _ _, True)), arraySort_ranked.
  induction l; constructor; [done |]. by apply Forall_true.
Qed.

(** X18.  Every result of [compareOne] pairs the target with a function of
    [allFunctions] of another identity and of at least [minLines] lines;
    its normalized score is the unconstrained score of the two texts
    compared, between the threshold and 100, and its raw score the
    unconstrained score of the two raw codes.  There is at most one result
    for each function of [allFunctions]. *)
Theorem compareOne_results (targetFunction : ExtractedFunction)
    (allFunctions : list ExtractedFunction) (options : ComparisonOptions) :
  let norm := default true (normalize options) in
  let m := default 0%Q (minSimilarity options) in
  Forall (λ r, ∃ func,
            func ∈ allFunctions ∧ ¬ sameIdentity func targetFunction
            ∧ ((0 < default 0 (minLines options))%Q →
               (default 0 (minLines options) <= inject_Z (lines2 r))%Q)
            ∧ function1 r = reference targetFunction
            ∧ function2 r = reference func
            ∧ normalizedScore r
              = calculateSimilarity (comparedText norm targetFunction)
                  (comparedText norm func)
            ∧ similarityScore r
              = calculateSimilarity (code targetFunction) (code func)
            ∧ (m <= normalizedScore r)%Q ∧ (normalizedScore r <= 100)%Q
            ∧ lines1 r = lineCount targetFunction ∧ lines2 r = lineCount func)
    (compareOne targetFunction allFunctions options)
  ∧ length (compareOne targetFunction allFunctions options)
    ≤ length allFunctions.
Proof.
  cbv zeta. rewrite compareOne_unfold. case_decide; [split; [done | simpl; lia] |].
  split.
  - rewrite Forall_forall. intros r Hr.
    apply elem_of_arraySort, list_elem_of_bind in Hr as (func & Hr & Hfunc).
    apply elem_of_compareOneBody in Hr
      as (Hself & Hlines & Hf1 & Hf2 & Hscore & Hraw & Hmin & Hl1 & Hl2).
    exists func. rewrite Hl2. repeat (split; [done |]).
    split; [| done]. rewrite Hscore. apply calculateSimilarity_range.
  - rewrite length_arraySort. apply length_bind_le, length_compareOneBody.
Qed.

(** X19.  The list returned by [compareOne] is sorted descending by
    [normalizedScore], and results of equal [normalizedScore] are in the
    order of their functions in [allFunctions]. *)
Theorem compareOne_sorted (targetFunction : ExtractedFunction)
    (allFunctions : list ExtractedFunction) (options : ComparisonOptions) :
  StronglySorted (λ a b, normalizedScore b <= normalizedScore a)%Q
    (compareOne targetFunction allFunctions options)
  ∧ ∃ indexed : list (nat * SimilarityResult),
      indexed.*2 = compareOne targetFunction allFunctions options
      ∧ Forall (λ p, ∃ func, allFunctions !! p.1 = Some func
                             ∧ function2 p.2 = reference func) indexed
      ∧ StronglySorted
          (ranked (λ p, normalizedScore p.2) (λ p q, p.1 < q.1)) indexed.
Proof.
  rewrite compareOne_unfold. case_decide.
  { split; [constructor |]. exists []. repeat split; constructor. }
  split; [apply (arraySort_descending normalizedScore) |].
  exists (arraySort (λ p q, byScoreDescending p.2 q.2)
            (indexedFrom 0 (compareOneBody targetFunction options) allFunctions)).
  split; [| split].
  - rewrite <- (arraySort_fmap byScoreDescending snd). by rewrite indexedFrom_snd.
  - rewrite Forall_forall. intros [k r] Hp. apply elem_of_arraySort in Hp.
    apply elem_of_indexedFrom in Hp as (_ & func & Hk & Hr).
    rewrite Nat.sub_0_r in Hk.
    apply elem_of_compareOneBody in Hr as (_ & _ & _ & Hf2 & _).
    by exists func.
  - apply (arraySort_ranked (λ p, normalizedScore p.2) (λ p q, p.1 < q.1)).
    apply indexedFrom_sorted. apply length_compareOneBody.
Qed.

Lemma compareOneBody_emits targetFunction options func :
  ((0 < default 0 (minLines options))%Q →
   (default 0 (minLines options) <= inject_Z (lineCount func))%Q) →
  ¬ sameIdentity func targetFunction →
  (default 0 (minSimilarity options)
   <= calculateSimilarity
        (comparedText (default true (normalize options)) targetFunction)
        (comparedText (default true (normalize options)) func))%Q →
  ∃ r, r ∈ compareOneBody targetFunction options func
       ∧ function1 r = reference targetFunction ∧ function2 r = reference func
       ∧ normalizedScore r
         = calculateSimilarity
             (comparedText (default true (normalize options)) targetFunction)
             (comparedText (default true (normalize options)) func)
       ∧ lines1 r = lineCount targetFunction ∧ lines2 r = lineCount func.
Proof.
  intros Hlines Hself Hmin. unfold compareOneBody, comparedText in *. cbv zeta.
  rewrite decide_False; last first.
  { intros [Hpos Hlt]. specialize (Hlines Hpos). lra. }
  rewrite decide_False by done.
  destruct (default true (normalize options));
    (rewrite decide_True by done; eexists; split;
       [apply list_elem_of_singleton; reflexivity | done]).
Qed.

Lemma compareOne_symmetric_1 allFunctions options func1 func2 :
  let norm := default true (normalize options) in
  let result f g :=
    {| function1 := reference f; function2 := reference g;
       similarityScore := calculateSimilarity (code f) (code g);
       normalizedScore :=
         calculateSimilarity (comparedText norm f) (comparedText norm g);
       lines1 := lineCount f; lines2 := lineCount g |} in
  func1 ∈ allFunctions →
  result func1 func2 ∈ compareOne func1 allFunctions options →
  result func2 func1 ∈ compareOne func2 allFunctions options.
Proof.
  cbv zeta. intros Hin1 Hr. rewrite compareOne_unfold in Hr |- *.
  destruct (decide (0 < default 0 (minLines options)
                    ∧ inject_Z (lineCount func1)
                      < default 0 (minLines options))%Q) as [? | Hlines1];
    [by apply elem_of_nil in Hr |].
  apply elem_of_arraySort, list_elem_of_bind in Hr as (func & Hr & Hfunc).
  apply elem_of_compareOneBody in Hr
    as (Hself & Hlines & _ & Href & _ & _ & Hmin & _ & _).
  simpl in Href, Hmin.
  assert (filePath func2 = filePath func ∧ startLine func2 = startLine func
          ∧ endLine func2 = endLine func) as (Hfile & Hstart & Hend).
  { by injection Href. }
  assert (lineCount func2 = lineCount func) as Hcount.
  { unfold lineCount. by rewrite Hstart, Hend. }
  rewrite decide_False; last first.
  { rewrite Hcount. intros [Hpos Hlt]. specialize (Hlines Hpos). lra. }
  apply elem_of_arraySort, list_elem_of_bind. exists func1. split; [| done].
  unfold compareOneBody, comparedText in *. cbv zeta.
  rewrite decide_False by done.
  rewrite decide_False; last first.
  { intros [Hfile' Hstart']. apply Hself. split; congruence. }
  destruct (default true (normalize options));
    rewrite ?(calculateSimilarity_sym_eq (code func2) (code func1)),
            ?(calculateSimilarity_sym_eq (normalizedCode func2)
                (normalizedCode func1));
    rewrite decide_True by done; by apply list_elem_of_singleton.
Qed.

(** X20.  [compareOne] is symmetric: for two functions of [allFunctions],
    the first as target is reported the second exactly when the second as
    target is reported the first, with the same two scores. *)
Theorem compareOne_symmetric (allFunctions : list ExtractedFunction)
    (options : ComparisonOptions) (func1 func2 : ExtractedFunction) :
  let norm := default true (normalize options) in
  let result f g :=
    {| function1 := reference f; function2 := reference g;
       similarityScore := calculateSimilarity (code f) (code g);
       normalizedScore :=
         calculateSimilarity (comparedText norm f) (comparedText norm g);
       lines1 := lineCount f; lines2 := lineCount g |} in
  func1 ∈ allFunctions → func2 ∈ allFunctions →
  (result func1 func2 ∈ compareOne func1 allFunctions options
   ↔ result func2 func1 ∈ compareOne func2 allFunctions options)
  ∧ normalizedScore (result func1 func2) = normalizedScore (result func2 func1)
  ∧ similarityScore (result func1 func2) = similarityScore (result func2 func1).
Proof.
  cbv zeta. intros Hin1 Hin2. split; [| split].
  - split; by apply compareOne_symmetric_1.
  - apply calculateSimilarity_sym_eq.
  - apply calculateSimilarity_sym_eq.
Qed.

Lemma compareOne_symmetric_witness :
  let options := withMinSimilarity 80 noOptions in
  let result f g :=
    {| function1 := reference f; function2 := reference g;
       similarityScore := calculateSimilarity (code f) (code g);
       normalizedScore :=
         calculateSimilarity (comparedText true f) (comparedText true g);
       lines1 := lineCount f; lines2 := lineCount g |} in
  (result addFunction sumFunction
     ∈ compareOne addFunction [addFunction; sumFunction] options
   ↔ result sumFunction addFunction
       ∈ compareOne sumFunction [addFunction; sumFunction] options)
  ∧ normalizedScore (result addFunction sumFunction)
    = normalizedScore (result sumFunction addFunction)
  ∧ similarityScore (result addFunction sumFunction)
    = similarityScore (result sumFunction addFunction).
Proof.
  apply (compareOne_symmetric [addFunction; sumFunction]
           (withMinSimilarity 80 noOptions) addFunction sumFunction).
  - apply list_elem_of_here.
  - apply list_elem_of_further, list_elem_of_here.
Defined.

(** ** Duplicates *)

Lemma distanceCeiling_nonneg (maxLength : Z) (m : Q) :
  (0 ≤ maxLength)%Z → (m <= 100)%Q → (0 ≤ distanceCeiling maxLength m)%Z.
Proof.
  intros HL Hm. unfold distanceCeiling. apply Z_le_Qfloor.
  change (inject_Z 0) with 0%Q. apply Qmult_le_0_compat.
  - change 0%Q with (inject_Z 0). by rewrite <- Zle_Qle.
  - unfold Qdiv. change (/ 100)%Q with (1 # 100)%Q. lra.
Qed.

(** X21.  [findDuplicates] reports every two functions of different
    identity whose normalized codes are equal, with the score 100, for any
    threshold up to 100 and for the default threshold. *)
Theorem findDuplicates_identical (functions : list ExtractedFunction)
    (threshold : option Q) (i j : nat) (func1 func2 : ExtractedFunction) :
  i < j → functions !! i = Some func1 → functions !! j = Some func2 →
  normalizedCode func1 = normalizedCode func2 →
  ¬ sameIdentity func1 func2 →
  (default 90 threshold <= 100)%Q →
  ∃ r, r ∈ findDuplicates functions threshold
       ∧ function1 r = reference func1 ∧ function2 r = reference func2
       ∧ normalizedScore r = 100%Q.
Proof.
  intros Hij Hi Hj Hcode Hself Hm. unfold findDuplicates.
  rewrite compareAll_emittedPairs. simpl.
  assert (calculateSimilarity (normalizedCode func1) (normalizedCode func2)
          = 100%Q) as Hscore.
  { unfold calculateSimilarity. by rewrite decide_True. }
  destruct (scorePair_emits (default 90%Q threshold) true func1 func2
              (code func1) (code func2))
    as (r & Hr & Hs & Hf1 & Hf2 & _).
  - simpl. rewrite <- Hcode, levenshteinDistance_lev, lev_refl.
    apply distanceCeiling_nonneg; [lia | done].
  - simpl. by rewrite Hscore.
  - exists r. split; [| by rewrite Hs].
    apply (elem_of_sorted_emittedPairs_2 _ _ _ _ i j).
    apply (elem_of_emittedPairs_2 _ _ _ _ _ _ func1 func2); try done.
    + by intros [_ ?].
    + rewrite Hr. by apply list_elem_of_singleton.
Qed.

Lemma findDuplicates_identical_witness :
  ∃ r, r ∈ findDuplicates [lineFunction 1; lineFunction 2] None
       ∧ function1 r = reference (lineFunction 1)
       ∧ function2 r = reference (lineFunction 2)
       ∧ normalizedScore r = 100%Q.
Proof.
  apply (findDuplicates_identical [lineFunction 1; lineFunction 2] None 0 1
           (lineFunction 1) (lineFunction 2)).
  - lia.
  - reflexivity.
  - reflexivity.
  - reflexivity.
  - intros [_ [=]].
  - by vm_compute.
Defined.

(** X22.  Every result of [findDuplicates] pairs two functions of the input
    of different identity, the first at the lower index; its normalized
    score is the score the thresholded scorer gives the two normalized codes
    when it is called without threshold, and it is at least the threshold
    (90 when it is left out). *)
Theorem findDuplicates_results (functions : list ExtractedFunction)
    (threshold : option Q) :
  Forall (λ r, ∃ i j func1 func2,
            i < j ∧ functions !! i = Some func1 ∧ functions !! j = Some func2
            ∧ ¬ sameIdentity func1 func2
            ∧ function1 r = reference func1 ∧ function2 r = reference func2
            ∧ normalizedScore r
              = calculateSimilarityWithThreshold (normalizedCode func1)
                  (normalizedCode func2) None
            ∧ (default 90 threshold <= normalizedScore r)%Q)
    (findDuplicates functions threshold).
Proof.
  rewrite Forall_forall. intros r Hr. unfold findDuplicates in Hr.
  rewrite compareAll_emittedPairs in Hr. simpl in Hr.
  apply elem_of_sorted_emittedPairs in Hr as (i & j & Hr).
  apply elem_of_emittedPairs in Hr as (Hij & func1 & func2 & Hi & Hj & Hself & Hr).
  pose proof (scorePair_within _ _ _ _ _ _ _ Hr) as [_ Hscore].
  apply elem_of_scorePair in Hr as (_ & _ & Hmin & _ & Hf1 & Hf2 & _).
  exists i, j, func1, func2. split; [lia |]. do 5 (split; [by auto |]).
  split; [| done]. rewrite Hscore. symmetry. apply thresholded_None.
Qed.

(** ** The raw score of a reported pair *)

(** X23.  In a result of [compareAll] and of [compareAllParallel] the line
    counts are those of its two functions.  With [normalize] off the raw
    score is the normalized score.  With [normalize] on it is the score the
    thresholded scorer gives the two raw codes when it is called without
    threshold, or it is 0: a pair reported for its normalized codes can
    carry the raw score 0, which then stands for "below the threshold". *)
Theorem drivers_raw_score (numCores : nat)
    (functions : list ExtractedFunction) (options : ComparisonOptions) :
  let filteredFunctions :=
    filterByMinLines (default 0%Q (minLines options)) functions in
  let reported (r : SimilarityResult) :=
    ∃ i j func1 func2,
      i < j ∧ filteredFunctions !! i = Some func1
      ∧ filteredFunctions !! j = Some func2
      ∧ function1 r = reference func1 ∧ function2 r = reference func2
      ∧ lines1 r = lineCount func1 ∧ lines2 r = lineCount func2
      ∧ if default true (normalize options)
        then similarityScore r
             = calculateSimilarityWithThreshold (code func1) (code func2) None
             ∨ similarityScore r = 0%Q
        else similarityScore r = normalizedScore r in
  Forall reported (compareAll functions options)
  ∧ Forall reported (compareAllParallel numCores functions options).
Proof.
  cbv zeta.
  destruct (driver_outputs numCores functions options) as [-> [b ->]].
  enough (∀ b', Forall _ (arraySort (λ p q, byScoreDescending p.2 q.2)
                   (emittedPairs b' (default 0%Q (minSimilarity options))
                      (default true (normalize options))
                      (filterByMinLines (default 0%Q (minLines options))
                         functions))).*2) as Hall by (split; apply Hall).
  intros b'. rewrite Forall_forall. intros r Hr.
  apply elem_of_sorted_emittedPairs in Hr as (i & j & Hr).
  apply elem_of_emittedPairs in Hr as (Hij & func1 & func2 & Hi & Hj & _ & Hr).
  apply elem_of_scorePair in Hr as (_ & _ & _ & Hraw & Hf1 & Hf2 & Hl1 & Hl2).
  exists i, j, func1, func2. split; [lia |]. do 6 (split; [done |]).
  destruct (default true (normalize options)); [| done].
  destruct (thresholded_score_cases (code func1) (code func2)
              (default 0%Q (minSimilarity options))) as (Hnone & Hin & Hout).
  cbv zeta in Hin, Hout. rewrite Hraw, Hnone.
  destruct (decide (code func1 = code func2)) as [? | Hne]; [left; apply Hin; auto |].
  destruct (decide (code func1 = [])) as [? | Hne1]; [left; apply Hin; auto |].
  destruct (decide (code func2 = [])) as [? | Hne2]; [left; apply Hin; auto |].
  match type of Hout with _ → _ → _ → (?c < ?d)%Z → _ =>
    destruct (decide (d ≤ c)%Z) as [Hd | Hd] end.
  - left. apply Hin. auto.
  - right. apply Hout; try done; lia.
Qed.

(** ** The choice of the driver *)

(** X24.  When [excludeSelf] is off, and when no two of the functions
    compared share their identity, [compareAllFast] and [compareAllParallel]
    return the list [compareAll] returns, whatever the number of cores and
    the number of functions. *)
Theorem compareAllFast_compareAll (numCores : nat)
    (functions : list ExtractedFunction) (options : ComparisonOptions) :
  excludeSelf options = Some false
  ∨ (∀ i j func1 func2,
       i < j →
       filterByMinLines (default 0%Q (minLines options)) functions !! i = Some func1 →
       filterByMinLines (default 0%Q (minLines options)) functions !! j = Some func2 →
       ¬ sameIdentity func1 func2) →
  compareAllFast numCores functions options = compareAll functions options
  ∧ compareAllParallel numCores functions options = compareAll functions options.
Proof.
  intros Hcond.
  pose proof (compareAllParallel_compareAll numCores functions options Hcond)
    as Hpar.
  split; [| done]. unfold compareAllFast. cbv zeta. by case_decide.
Qed.

Lemma compareAllFast_compareAll_witness :
  compareAllFast 4 hundredFunctions (withExcludeSelf (Some false) noOptions)
  = compareAll hundredFunctions (withExcludeSelf (Some false) noOptions)
  ∧ compareAllParallel 4 hundredFunctions (withExcludeSelf (Some false) noOptions)
    = compareAll hundredFunctions (withExcludeSelf (Some false) noOptions).
Proof.
  apply (compareAllFast_compareAll 4 hundredFunctions
           (withExcludeSelf (Some false) noOptions)).
  left. reflexivity.
Defined.

(** ** The rows of the workers *)

Lemma chunkRanges_rows (chunkSize len k : nat) : ∀ w,
  len ≤ (w + k) * chunkSize →
  chunkRanges chunkSize len (seq w k)
    ≫= (λ '(startIdx, endIdx), seq startIdx (endIdx - startIdx))
  = seq (w * chunkSize) (len - w * chunkSize).
Proof.
  induction k as [| k IH]; intros w Hcover.
  { replace (len - w * chunkSize) with 0 by lia. done. }
  cbn [seq chunkRanges]. case_decide as Hstart.
  { replace (len - w * chunkSize) with 0 by lia. done. }
  rewrite bind_cons, IH by lia.
  destruct (decide ((w + 1) * chunkSize ≤ len)) as [Hend | Hend].
  - rewrite Nat.min_l by done.
    replace (len - w * chunkSize)
      with (((w + 1) * chunkSize - w * chunkSize) + (len - S w * chunkSize))
      by lia.
    rewrite seq_app. do 2 f_equal. lia.
  - rewrite Nat.min_r by lia.
    replace (len - S w * chunkSize) with 0 by lia.
    by rewrite app_nil_r.
Qed.

Lemma chunkRanges_ranges (chunkSize len : nat) (ws : list nat) :
  0 < chunkSize →
  Forall (λ range : nat * nat, range.1 < range.2 ≤ len
                               ∧ range.2 - range.1 ≤ chunkSize)
    (chunkRanges chunkSize len ws).
Proof.
  intros Hpos. induction ws as [| w ws IH]; [constructor |].
  cbn [chunkRanges]. case_decide as Hstart; [constructor |].
  constructor; [| done]. simpl.
  assert ((w + 1) * chunkSize = w * chunkSize + chunkSize) as -> by lia. lia.
Qed.

Lemma length_chunkRanges (chunkSize len : nat) (ws : list nat) :
  length (chunkRanges chunkSize len ws) ≤ length ws.
Proof.
  induction ws as [| w ws IH]; [done |].
  cbn [chunkRanges]. case_decide; simpl; lia.
Qed.

(** X25.  The row ranges [compareAllParallel] hands to its workers, for
    [len] functions on a machine of [numCores] cores: taken in the order of
    the workers they are the rows [0 .. len - 1], each row once; no range is
    empty or longer than the chunk size; and there are at most 8 of them,
    at most [numCores - 1] on a machine of two cores or more. *)
Theorem compareAllParallel_row_ranges (numCores len : nat) :
  let numWorkers := Nat.max 1 (Nat.min (numCores - 1) 8) in
  let chunkSize := ceilDiv len numWorkers in
  let ranges := chunkRanges chunkSize len (seq 0 numWorkers) in
  ranges ≫= (λ '(startIdx, endIdx), seq startIdx (endIdx - startIdx))
  = seq 0 len
  ∧ Forall (λ range : nat * nat, range.1 < range.2 ≤ len
                                 ∧ range.2 - range.1 ≤ chunkSize) ranges
  ∧ length ranges ≤ 8
  ∧ length ranges ≤ Nat.max 1 (numCores - 1).
Proof.
  cbv zeta. set (numWorkers := Nat.max 1 (Nat.min (numCores - 1) 8)).
  pose proof (ceilDiv_cover len numWorkers ltac:(lia)) as Hcover.
  pose proof (length_chunkRanges (ceilDiv len numWorkers) len (seq 0 numWorkers))
    as Hlen.
  rewrite length_seq in Hlen.
  split; [| split; [| lia]].
  - rewrite chunkRanges_rows by (simpl; lia). simpl.
    by rewrite Nat.sub_0_r.
  - destruct (decide (len = 0)) as [-> | Hne].
    + destruct numWorkers; [constructor |]. cbn [seq chunkRanges].
      rewrite decide_True by lia. constructor.
    + apply chunkRanges_ranges.
      destruct (ceilDiv len numWorkers); [lia | lia].
Qed.

(** ** The worker *)

Lemma elem_of_Worker_scorePair minSim norm functions i j result :
  result ∈ Worker.scorePair minSim norm functions i j →
  Worker.idx1 result = i ∧ Worker.idx2 result = j
  ∧ toSimilarityResult functions result
    ∈ scorePair minSim norm (functions !!! i) (functions !!! j)
        (code (functions !!! i)) (code (functions !!! j)).
Proof.
  intros Hin. split; [| split].
  - unfold Worker.scorePair in Hin. cbv zeta in Hin.
    destruct (prunes _ _ _); [by apply elem_of_nil in Hin |].
    case_decide; [| by apply elem_of_nil in Hin].
    by apply list_elem_of_singleton in Hin as ->.
  - unfold Worker.scorePair in Hin. cbv zeta in Hin.
    destruct (prunes _ _ _); [by apply elem_of_nil in Hin |].
    case_decide; [| by apply elem_of_nil in Hin].
    by apply list_elem_of_singleton in Hin as ->.
  - rewrite <- toSimilarityResult_scorePair. apply list_elem_of_fmap. by exists result.
Qed.

Lemma length_Worker_scorePair minSim norm functions i j :
  length (Worker.scorePair minSim norm functions i j) ≤ 1.
Proof.
  unfold Worker.scorePair. cbv zeta. destruct (prunes _ _ _); [simpl; lia |].
  case_decide; simpl; lia.
Qed.

(** X26.  The list a worker posts: its results come in increasing order of
    their index pairs, so no pair twice; the first index of each is a row of
    the worker and the second a later index of [functions]; and each
    carries the score the thresholded scorer gives the two texts compared
    when it is called without threshold, which reaches the threshold, and
    the line counts of its two functions. *)
Theorem Worker_run_results (workerData : Worker.WorkerData) :
  let functions := Worker.functions workerData in
  let text i := comparedText (Worker.normalize workerData) (functions !!! i) in
  StronglySorted
    (λ a b, pairBefore (Worker.idx1 a, Worker.idx2 a)
                       (Worker.idx1 b, Worker.idx2 b))
    (Worker.run workerData)
  ∧ Forall (λ result,
      Worker.startIdx workerData ≤ Worker.idx1 result
      ∧ Worker.idx1 result < Worker.endIdx workerData
      ∧ Worker.idx1 result < Worker.idx2 result
      ∧ Worker.idx2 result < length functions
      ∧ Worker.normalizedScore result
        = calculateSimilarityWithThreshold (text (Worker.idx1 result))
            (text (Worker.idx2 result)) None
      ∧ (Worker.minSimilarity workerData <= Worker.normalizedScore result)%Q
      ∧ Worker.lines1 result = lineCount (functions !!! Worker.idx1 result)
      ∧ Worker.lines2 result = lineCount (functions !!! Worker.idx2 result))
    (Worker.run workerData).
Proof.
  cbv zeta. rewrite Worker_run_pairLoop. split.
  - apply (pairLoop_sorted (λ result, (Worker.idx1 result, Worker.idx2 result))).
    + intros i j result (<- & <- & _)%elem_of_Worker_scorePair. done.
    + intros i j. apply length_Worker_scorePair.
  - rewrite Forall_forall. intros result Hin.
    apply elem_of_pairLoop in Hin as (i & j & Hi & Hj & Hin).
    apply elem_of_Worker_scorePair in Hin as (Hidx1 & Hidx2 & Hin).
    rewrite Hidx1, Hidx2.
    pose proof (scorePair_within _ _ _ _ _ _ _ Hin) as [_ Hscore].
    apply elem_of_scorePair in Hin as (_ & _ & Hmin & _ & _ & _ & Hl1 & Hl2).
    simpl in Hscore, Hmin, Hl1, Hl2.
    do 4 (split; [lia |]). split; [| done].
    rewrite Hscore. symmetry. apply thresholded_None.
Qed.

(** ** Normalization *)

Lemma slash_not_terminator : isLineTerminator slash = false.
Proof. done. Qed.

Lemma whitespace_not_slash c : isWhiteSpace c = true → c ≠ slash.
Proof. by intros Hc ->. Qed.

Lemma whitespace_not_star c : isWhiteSpace c = true → c ≠ star.
Proof. by intros Hc ->. Qed.

Lemma isWhiteSpace_space : isWhiteSpace space = true.
Proof. done. Qed.

(** *** Line comments *)

Lemma hasLineComment_removeLineComments code : ∀ inComment,
  hasLineComment (removeLineComments inComment code) = false.
Proof.
  assert (Hhead : ∀ code c,
    head (removeLineComments true code) = Some c → isLineTerminator c = true).
  { intros code'. induction code' as [| c' rest IH]; intros c; [done |].
    simpl. destruct (isLineTerminator c') eqn:Hc'; [| apply IH].
    by intros [= <-]. }
  induction code as [| c rest IH]; intros inComment; [by destruct inComment |].
  destruct inComment; simpl.
  - destruct (isLineTerminator c) eqn:Hc; [| apply IH]. simpl.
    rewrite IH, orb_false_r. apply bool_decide_eq_false.
    intros [-> _]. done.
  - case_decide as Hstart; [apply IH |]. simpl.
    rewrite IH, orb_false_r. apply bool_decide_eq_false.
    intros [-> Hnext]. apply Hstart. split; [done |].
    destruct rest as [| c' rest']; [done |]. simpl in Hnext |- *.
    case_decide as Hstart'.
    + apply Hhead in Hnext. done.
    + done.
Qed.

Lemma removeLineComments_id code :
  hasLineComment code = false → removeLineComments false code = code.
Proof.
  induction code as [| c rest IH]; [done |]. simpl.
  intros [Hstart Hrest]%orb_false_elim. apply bool_decide_eq_false in Hstart.
  rewrite decide_False by done. by rewrite IH.
Qed.

Lemma length_removeLineComments code : ∀ inComment,
  length (removeLineComments inComment code) ≤ length code.
Proof.
  induction code as [| c rest IH]; intros inComment; [by destruct inComment |].
  pose proof (IH true). pose proof (IH false).
  destruct inComment; simpl.
  - destruct (isLineTerminator c); simpl; lia.
  - case_decide; simpl; lia.
Qed.

(** *** Block comments *)

Lemma closingIndex_lt code k : closingIndex code = Some k → k + 2 ≤ length code.
Proof.
  revert k. induction code as [| c rest IH]; intros k; [done |]. simpl.
  case_decide as Hc.
  - intros [= <-]. destruct Hc as [_ Hnext]. destruct rest; [done | simpl; lia].
  - destruct (closingIndex rest) as [k' |]; [| done]. intros [= <-].
    specialize (IH k' eq_refl). lia.
Qed.

Lemma removeBlockComments_skip code : ∀ skip,
  removeBlockComments skip code = removeBlockComments 0 (drop skip code).
Proof.
  induction code as [| c rest IH]; intros skip; [by destruct skip |].
  destruct skip as [| skip]; [done |]. simpl. apply IH.
Qed.

Lemma hasLineComment_drop n code :
  hasLineComment code = false → hasLineComment (drop n code) = false.
Proof.
  revert code. induction n as [| n IH]; intros code; [done |].
  destruct code as [| c rest]; [done |]. simpl.
  intros [_ Hrest]%orb_false_elim. by apply IH.
Qed.

Lemma closingIndex_tail code :
  closingIndex code = None → closingIndex (tail code) = None.
Proof.
  destruct code as [| c rest]; [done |]. simpl.
  case_decide; [done |]. by destruct (closingIndex rest).
Qed.

Lemma not_is_Some_None {A : Type} : bool_decide (is_Some (@None A)) = false.
Proof. apply bool_decide_eq_false. by intros [? ?]. Qed.

Lemma closingIndex_None_hasBlockComment code :
  closingIndex code = None → hasBlockComment code = false.
Proof.
  induction code as [| c rest IH]; [done |]. intros Hnone.
  apply closingIndex_tail in Hnone as Hrest. simpl in Hrest.
  cbn [hasBlockComment]. rewrite IH by done.
  rewrite (closingIndex_tail rest Hrest), not_is_Some_None.
  by rewrite andb_false_r.
Qed.

Lemma removeBlockComments_id code :
  hasBlockComment code = false → removeBlockComments 0 code = code.
Proof.
  induction code as [| c rest IH]; [done |].
  cbn [hasBlockComment removeBlockComments].
  intros [Hblock Hrest]%orb_false_elim. rewrite IH; [| done].
  destruct (decide (c = slash ∧ head rest = Some star)) as [Hopen | Hopen];
    [| done].
  destruct (closingIndex (tail rest)); [| done].
  rewrite !bool_decide_eq_true_2 in Hblock by (done || by eexists). done.
Qed.

Lemma head_removeBlockComments code c :
  head (removeBlockComments 0 code) = Some c →
  head code = Some c ∨ head code = Some slash.
Proof.
  destruct code as [| c' rest]; [done |]. simpl.
  case_decide as Hopen; [destruct Hopen as [-> _]; by right |].
  by left.
Qed.

Lemma removeBlockComments_clean code :
  hasLineComment code = false →
  hasLineComment (removeBlockComments 0 code) = false
  ∧ hasBlockComment (removeBlockComments 0 code) = false.
Proof.
  remember (length code) as n eqn:Hn. revert code Hn.
  induction n as [n IH] using lt_wf_ind. intros code -> Hline.
  destruct code as [| c rest]; [done |].
  pose proof Hline as [Hstart Hrest]%orb_false_elim.
  apply bool_decide_eq_false in Hstart.
  cbn [removeBlockComments]. case_decide as Hopen.
  - destruct (closingIndex (tail rest)) as [k |] eqn:Hclose.
    + rewrite removeBlockComments_skip.
      apply (IH (length (drop (k + 3) rest))); [| done |].
      * rewrite length_drop. simpl. lia.
      * by apply hasLineComment_drop.
    + assert (hasBlockComment (c :: rest) = false) as Hblock.
      { cbn [hasBlockComment]. rewrite Hclose, not_is_Some_None.
        rewrite andb_false_r. simpl.
        destruct rest as [| c' rest']; [done |]. simpl in *.
        destruct Hopen as [_ [= ->]].
        rewrite (bool_decide_eq_false_2 (star = slash ∧ _)) by (by intros [? _]).
        simpl. by apply closingIndex_None_hasBlockComment. }
      pose proof Hblock as [_ Hblock']%orb_false_elim.
      rewrite removeBlockComments_id by done. done.
  - destruct (IH (length rest) ltac:(simpl; lia) rest eq_refl Hrest)
      as [IHline IHblock].
    split; cbn [hasLineComment hasBlockComment].
    + rewrite IHline, orb_false_r. apply bool_decide_eq_false.
      intros [-> Hnext]. apply Hstart. split; [done |].
      by apply head_removeBlockComments in Hnext as [? | ?].
    + rewrite IHblock, orb_false_r. apply andb_false_intro1.
      apply bool_decide_eq_false. intros [-> Hnext].
      apply head_removeBlockComments in Hnext as [? | ?].
      * by apply Hopen.
      * by apply Hstart.
Qed.

Lemma length_removeBlockComments code : ∀ skip,
  length (removeBlockComments skip code) ≤ length code.
Proof.
  induction code as [| c rest IH]; intros skip; [by destruct skip |].
  destruct skip as [| skip]; simpl.
  - pose proof (IH 0).
    case_decide; [| simpl; lia].
    destruct (closingIndex (tail rest)) as [k |]; [| simpl; lia].
    specialize (IH (k + 3)). lia.
  - specialize (IH skip). lia.
Qed.

(** *** White space *)

Lemma head_collapseWhitespace code c :
  head (collapseWhitespace false code) = Some c → isWhiteSpace c = false →
  head code = Some c.
Proof.
  destruct code as [| c' rest]; [done |]. simpl.
  destruct (isWhiteSpace c') eqn:Hc'; simpl; [| done].
  intros [= <-]. done.
Qed.

Lemma hasLineComment_collapseWhitespace code : ∀ inRun,
  hasLineComment code = false →
  hasLineComment (collapseWhitespace inRun code) = false.
Proof.
  induction code as [| c rest IH]; intros inRun; [done |]. simpl.
  intros [Hstart Hrest]%orb_false_elim. apply bool_decide_eq_false in Hstart.
  destruct (isWhiteSpace c) eqn:Hc.
  - destruct inRun; [by apply IH |]. simpl. by rewrite IH.
  - simpl. rewrite IH, orb_false_r by done. apply bool_decide_eq_false.
    intros [-> Hnext]. apply Hstart. split; [done |].
    by apply head_collapseWhitespace in Hnext.
Qed.

Lemma closingIndex_collapseWhitespace code : ∀ inRun,
  is_Some (closingIndex (collapseWhitespace inRun code)) →
  is_Some (closingIndex code).
Proof.
  induction code as [| c rest IH]; intros inRun; [done |]. simpl.
  destruct (isWhiteSpace c) eqn:Hc.
  - intros Hsome.
    assert (is_Some (closingIndex rest)) as [k Hk].
    { destruct inRun; [by eapply IH |]. simpl in Hsome.
      apply fmap_is_Some in Hsome. by eapply IH. }
    case_decide; [by eexists |]. rewrite Hk. by eexists.
  - simpl. case_decide as Hclose.
    + intros _. destruct Hclose as [-> Hnext].
      apply head_collapseWhitespace in Hnext; [| done].
      rewrite decide_True by done. by eexists.
    + intros Hsome%fmap_is_Some. apply IH in Hsome as [k Hk].
      case_decide; [by eexists |]. rewrite Hk. by eexists.
Qed.

Lemma hasBlockComment_collapseWhitespace code : ∀ inRun,
  hasBlockComment code = false →
  hasBlockComment (collapseWhitespace inRun code) = false.
Proof.
  induction code as [| c rest IH]; intros inRun; [done |]. simpl.
  intros [Hblock Hrest]%orb_false_elim.
  destruct (isWhiteSpace c) eqn:Hc.
  - destruct inRun; [by apply IH |]. simpl. by rewrite IH.
  - simpl. rewrite IH, orb_false_r by done.
    destruct (decide (c = slash
                      ∧ head (collapseWhitespace false rest) = Some star))
      as [[-> Hnext] | Hopen];
      [| apply andb_false_intro1; by apply bool_decide_eq_false].
    apply andb_false_intro2, bool_decide_eq_false. intros Hsome.
    apply head_collapseWhitespace in Hnext; [| done].
    destruct rest as [| c' rest']; [done |]. simpl in Hnext, Hsome, Hblock.
    injection Hnext as ->. simpl in Hsome.
    apply closingIndex_collapseWhitespace in Hsome.
    rewrite !bool_decide_eq_true_2 in Hblock by done. done.
Qed.

Lemma singleSpaces_collapseWhitespace code : ∀ inRun,
  singleSpaces (collapseWhitespace inRun code) = true
  ∧ (inRun = true →
     from_option isWhiteSpace false (head (collapseWhitespace inRun code))
     = false).
Proof.
  induction code as [| c rest IH]; intros inRun; [done |]. simpl.
  destruct (isWhiteSpace c) eqn:Hc.
  - destruct inRun; [apply IH |]. split; [| done]. simpl.
    destruct (IH true) as [-> ->]; done.
  - simpl. rewrite Hc. split; [apply IH |]. done.
Qed.

Lemma length_collapseWhitespace code : ∀ inRun,
  length (collapseWhitespace inRun code) ≤ length code.
Proof.
  induction code as [| c rest IH]; intros inRun; [done |]. simpl.
  pose proof (IH true). pose proof (IH false).
  destruct (isWhiteSpace c); [destruct inRun |]; simpl; lia.
Qed.

Lemma collapseWhitespace_id code : ∀ inRun,
  singleSpaces code = true →
  (inRun = true → from_option isWhiteSpace false (head code) = false) →
  collapseWhitespace inRun code = code.
Proof.
  induction code as [| c rest IH]; intros inRun; [done |]. simpl.
  intros [Hc Hrest]%andb_true_iff Hhead.
  destruct (isWhiteSpace c) eqn:Hws.
  - destruct inRun; [by specialize (Hhead eq_refl) |].
    apply andb_true_iff in Hc as [->%bool_decide_eq_true Hnext%negb_true_iff].
    by rewrite IH.
  - by rewrite IH.
Qed.

(** *** [trim] *)

Lemma trimStart_suffix code :
  ∃ blanks, code = blanks ++ trimStart code.
Proof.
  induction code as [| c rest [blanks IH]]; [by exists [] |]. simpl.
  destruct (isWhiteSpace c); [| by exists []].
  exists (c :: blanks). by rewrite IH at 1.
Qed.

Lemma trimEnd_prefix code :
  ∃ blanks, code = trimEnd code ++ blanks.
Proof.
  destruct (trimStart_suffix (reverse code)) as [blanks Hblanks].
  exists (reverse blanks). unfold trimEnd.
  rewrite <- reverse_app, <- Hblanks. by rewrite reverse_involutive.
Qed.

Lemma head_trimStart code :
  from_option isWhiteSpace false (head (trimStart code)) = false.
Proof.
  induction code as [| c rest IH]; [done |]. simpl.
  destruct (isWhiteSpace c) eqn:Hc; [done |]. simpl. done.
Qed.

Lemma last_trimEnd code :
  from_option isWhiteSpace false (last (trimEnd code)) = false.
Proof. unfold trimEnd. rewrite last_reverse. apply head_trimStart. Qed.

Lemma trimStart_id code :
  from_option isWhiteSpace false (head code) = false → trimStart code = code.
Proof. destruct code as [| c rest]; [done |]. simpl. by intros ->. Qed.

Lemma trimEnd_id code :
  from_option isWhiteSpace false (last code) = false → trimEnd code = code.
Proof.
  intros Hlast. unfold trimEnd. rewrite trimStart_id.
  - apply reverse_involutive.
  - by rewrite head_reverse.
Qed.

Lemma hasLineComment_app_l code1 code2 :
  hasLineComment (code1 ++ code2) = false → hasLineComment code1 = false.
Proof.
  induction code1 as [| c rest IH]; [done |]. simpl.
  intros [Hstart Hrest]%orb_false_elim. apply bool_decide_eq_false in Hstart.
  rewrite IH, orb_false_r by done. apply bool_decide_eq_false.
  intros [-> Hnext]. apply Hstart. split; [done |]. by destruct rest.
Qed.

Lemma hasLineComment_app_r code1 code2 :
  hasLineComment (code1 ++ code2) = false → hasLineComment code2 = false.
Proof.
  induction code1 as [| c rest IH]; [done |]. simpl.
  intros [_ Hrest]%orb_false_elim. by apply IH.
Qed.

Lemma closingIndex_app_l code1 code2 :
  is_Some (closingIndex code1) → is_Some (closingIndex (code1 ++ code2)).
Proof.
  induction code1 as [| c rest IH]; [by intros [? ?] |]. simpl.
  case_decide as Hclose.
  - intros _. rewrite decide_True; [by eexists |].
    destruct Hclose as [-> Hnext]. split; [done |]. by destruct rest.
  - intros Hsome%fmap_is_Some. apply IH in Hsome as [k Hk].
    case_decide; [by eexists |]. rewrite Hk. by eexists.
Qed.

Lemma hasBlockComment_app_l code1 code2 :
  hasBlockComment (code1 ++ code2) = false → hasBlockComment code1 = false.
Proof.
  induction code1 as [| c rest IH]; [done |]. simpl.
  intros [Hblock Hrest]%orb_false_elim.
  rewrite IH, orb_false_r by done.
  destruct (decide (c = slash ∧ head rest = Some star)) as [[-> Hnext] | Hopen];
    [| apply andb_false_intro1; by apply bool_decide_eq_false].
  apply andb_false_intro2, bool_decide_eq_false. intros Hsome.
  destruct rest as [| c' rest']; [done |]. simpl in *.
  injection Hnext as ->.
  apply (closingIndex_app_l _ code2) in Hsome.
  rewrite !bool_decide_eq_true_2 in Hblock by done. done.
Qed.

Lemma hasBlockComment_app_r code1 code2 :
  hasBlockComment (code1 ++ code2) = false → hasBlockComment code2 = false.
Proof.
  induction code1 as [| c rest IH]; [done |]. simpl.
  intros [_ Hrest]%orb_false_elim. by apply IH.
Qed.

Lemma singleSpaces_app_l code1 code2 :
  singleSpaces (code1 ++ code2) = true → singleSpaces code1 = true.
Proof.
  induction code1 as [| c rest IH]; [done |]. simpl.
  intros [Hc Hrest]%andb_true_iff. rewrite IH, andb_true_r by done.
  destruct (isWhiteSpace c); [| done].
  apply andb_true_iff in Hc as [-> Hnext]. simpl.
  destruct rest; [done |]. done.
Qed.

Lemma singleSpaces_app_r code1 code2 :
  singleSpaces (code1 ++ code2) = true → singleSpaces code2 = true.
Proof.
  induction code1 as [| c rest IH]; [done |]. simpl.
  intros [_ Hrest]%andb_true_iff. by apply IH.
Qed.

(** The properties that [trim] keeps, and the ends it leaves. *)
Lemma trim_keeps (keeps : jsstring → bool) (b : bool) code :
  (∀ code1 code2, keeps (code1 ++ code2) = b → keeps code1 = b) →
  (∀ code1 code2, keeps (code1 ++ code2) = b → keeps code2 = b) →
  keeps code = b → keeps (trim code) = b.
Proof.
  intros Hl Hr Hcode. unfold trim.
  destruct (trimStart_suffix code) as [blanks1 H1].
  destruct (trimEnd_prefix (trimStart code)) as [blanks2 H2].
  rewrite H1 in Hcode. apply Hr in Hcode. rewrite H2 in Hcode.
  by apply Hl in Hcode.
Qed.

Lemma head_trim code :
  from_option isWhiteSpace false (head (trim code)) = false.
Proof.
  unfold trim. pose proof (head_trimStart code) as Hhead.
  destruct (trimEnd_prefix (trimStart code)) as [blanks Hblanks].
  destruct (trimEnd (trimStart code)) as [| c rest]; [done |].
  by rewrite Hblanks in Hhead.
Qed.

Lemma length_trim code : length (trim code) ≤ length code.
Proof.
  unfold trim.
  destruct (trimStart_suffix code) as [blanks1 H1].
  destruct (trimEnd_prefix (trimStart code)) as [blanks2 H2].
  rewrite H1 at 2. rewrite H2 at 2. rewrite !length_app. lia.
Qed.

(** *** The normalized text *)

Lemma normalizeCode_clean code :
  let normalized := normalizeCode code in
  hasLineComment normalized = false ∧ hasBlockComment normalized = false
  ∧ singleSpaces normalized = true
  ∧ from_option isWhiteSpace false (head normalized) = false
  ∧ from_option isWhiteSpace false (last normalized) = false.
Proof.
  cbv zeta. unfold normalizeCode.
  pose proof (hasLineComment_removeLineComments code false) as Hline.
  apply removeBlockComments_clean in Hline as [Hline Hblock].
  apply (hasLineComment_collapseWhitespace _ false) in Hline.
  apply (hasBlockComment_collapseWhitespace _ false) in Hblock.
  set (collapsed := collapseWhitespace false _) in *.
  split; [| split; [| split; [| split]]].
  - apply (trim_keeps hasLineComment false);
      [apply hasLineComment_app_l | apply hasLineComment_app_r | done].
  - apply (trim_keeps hasBlockComment false);
      [apply hasBlockComment_app_l | apply hasBlockComment_app_r | done].
  - apply (trim_keeps singleSpaces true);
      [apply singleSpaces_app_l | apply singleSpaces_app_r |].
    apply singleSpaces_collapseWhitespace.
  - apply head_trim.
  - apply last_trimEnd.
Qed.

Lemma normalizeCode_fixed code :
  hasLineComment code = false → hasBlockComment code = false →
  singleSpaces code = true →
  from_option isWhiteSpace false (head code) = false →
  from_option isWhiteSpace false (last code) = false →
  normalizeCode code = code.
Proof.
  intros Hline Hblock Hspaces Hhead Hlast. unfold normalizeCode.
  rewrite removeLineComments_id, removeBlockComments_id by done.
  rewrite collapseWhitespace_id by done.
  unfold trim. rewrite trimStart_id by done. by apply trimEnd_id.
Qed.

Lemma hasLineComment_infix before after :
  hasLineComment (before ++ [slash; slash] ++ after) = true.
Proof.
  induction before as [| c rest IH]; [done |].
  cbn [app hasLineComment] in *. rewrite IH. apply orb_true_r.
Qed.

Lemma closingIndex_infix inside after :
  is_Some (closingIndex (inside ++ [star; slash] ++ after)).
Proof.
  induction inside as [| c rest [k IH]]; [by eexists |].
  cbn [app closingIndex] in *. destruct (decide _); [by eexists |].
  rewrite IH. by eexists.
Qed.

Lemma hasBlockComment_infix before inside after :
  hasBlockComment (before ++ [slash; star] ++ inside ++ [star; slash] ++ after)
  = true.
Proof.
  induction before as [| c rest IH].
  - cbn [app hasBlockComment head tail].
    rewrite (bool_decide_eq_true_2 (slash = slash ∧ _)) by done.
    rewrite bool_decide_eq_true_2 by apply closingIndex_infix. done.
  - cbn [app hasBlockComment] in *. rewrite IH. apply orb_true_r.
Qed.

Lemma singleSpaces_spaces code :
  singleSpaces code = true →
  Forall (λ c, isWhiteSpace c = true → c = space) code
  ∧ Forall (λ p, ¬ (isWhiteSpace p.1 = true ∧ isWhiteSpace p.2 = true))
      (zip code (tail code)).
Proof.
  induction code as [| c rest IH]; [done |]. cbn [singleSpaces].
  intros [Hc Hrest]%andb_true_iff. destruct (IH Hrest) as [IH1 IH2].
  split.
  - constructor; [| done]. intros Hws. rewrite Hws in Hc.
    by apply andb_true_iff in Hc as [?%bool_decide_eq_true _].
  - destruct rest as [| c' rest']; [constructor |]. cbn [tail zip zip_with] in *.
    constructor; [| done]. simpl. intros [Hws Hws']. rewrite Hws in Hc.
    apply andb_true_iff in Hc as [_ Hnext]. simpl in Hnext.
    by rewrite Hws' in Hnext.
Qed.

Lemma length_normalizeCode code : length (normalizeCode code) ≤ length code.
Proof.
  unfold normalizeCode.
  etrans; [apply length_trim |].
  etrans; [apply length_collapseWhitespace |].
  etrans; [apply length_removeBlockComments |].
  apply length_removeLineComments.
Qed.

(** X27.  The text [normalizeCode] returns holds no [//] and no [/*] with a
    [*/] after it; its white space is single spaces, none of them at its
    ends; and it is never longer than the code. *)
Theorem normalizeCode_normal_form (code : jsstring) :
  let normalized := normalizeCode code in
  ¬ (∃ before after, normalized = before ++ [slash; slash] ++ after)
  ∧ ¬ (∃ before inside after,
         normalized
         = before ++ [slash; star] ++ inside ++ [star; slash] ++ after)
  ∧ Forall (λ c, isWhiteSpace c = true → c = space) normalized
  ∧ Forall (λ p, ¬ (isWhiteSpace p.1 = true ∧ isWhiteSpace p.2 = true))
      (zip normalized (tail normalized))
  ∧ from_option isWhiteSpace false (head normalized) = false
  ∧ from_option isWhiteSpace false (last normalized) = false
  ∧ length normalized ≤ length code.
Proof.
  cbv zeta.
  destruct (normalizeCode_clean code)
    as (Hline & Hblock & Hspaces & Hhead & Hlast).
  destruct (singleSpaces_spaces _ Hspaces) as [Hall Hpairs].
  split; [| split].
  - intros (before & after & Heq).
    rewrite Heq, hasLineComment_infix in Hline. done.
  - intros (before & inside & after & Heq).
    rewrite Heq, hasBlockComment_infix in Hblock. done.
  - repeat (split; [done |]). apply length_normalizeCode.
Qed.

(** X28.  [normalizeCode] is idempotent, and the texts it leaves as they are
    are the texts with no match of a comment pattern whose white space is
    single spaces, none of them at the ends. *)
Theorem normalizeCode_idempotent (code : jsstring) :
  normalizeCode (normalizeCode code) = normalizeCode code
  ∧ (normalizeCode code = code
     ↔ hasLineComment code = false ∧ hasBlockComment code = false
       ∧ singleSpaces code = true
       ∧ from_option isWhiteSpace false (head code) = false
       ∧ from_option isWhiteSpace false (last code) = false).
Proof.
  split.
  - destruct (normalizeCode_clean code) as (? & ? & ? & ? & ?).
    by apply normalizeCode_fixed.
  - split.
    + intros Heq. rewrite <- Heq. apply normalizeCode_clean.
    + intros (? & ? & ? & ? & ?). by apply normalizeCode_fixed.
Qed.

Lemma removeLineComments_comment comment :
  Forall (λ c, isLineTerminator c = false) comment →
  removeLineComments true comment = [].
Proof.
  induction 1 as [| c rest Hc _ IH]; [done |]. simpl. by rewrite Hc.
Qed.

Lemma removeLineComments_trailing code comment : ∀ inComment,
  last code ≠ Some slash →
  Forall (λ c, isLineTerminator c = false) comment →
  removeLineComments inComment (code ++ [slash; slash] ++ comment)
  = removeLineComments inComment code.
Proof.
  intros inComment Hlast Hcomment. revert inComment.
  induction code as [| c rest IH]; intros inComment.
  - destruct inComment; cbn [app removeLineComments head].
    + rewrite slash_not_terminator. by apply removeLineComments_comment.
    + rewrite decide_True by done. rewrite slash_not_terminator.
      by apply removeLineComments_comment.
  - assert (last rest ≠ Some slash) as Hrest.
    { destruct rest; [done |]. done. }
    rewrite <- app_comm_cons. cbn [removeLineComments].
    rewrite !IH by done. destruct inComment; [done |].
    destruct rest as [| c' rest']; [| done].
    cbn [app head]. destruct (decide (c = slash ∧ _)) as [[-> _] | Hc].
    + by destruct Hlast.
    + rewrite decide_False; [done |]. by intros [_ ?].
Qed.

(** X29.  A line comment at the end of the code does not change the
    normalized code: for [code] that does not end with [/] and a [comment]
    without line terminator, [normalizeCode (code + "//" + comment)] is
    [normalizeCode code]. *)
Theorem normalizeCode_trailing_comment (code comment : jsstring) :
  last code ≠ Some slash →
  Forall (λ c, isLineTerminator c = false) comment →
  normalizeCode (code ++ [slash; slash] ++ comment) = normalizeCode code.
Proof.
  intros Hlast Hcomment. unfold normalizeCode.
  by rewrite removeLineComments_trailing.
Qed.

Lemma normalizeCode_trailing_comment_witness :
  normalizeCode (js "return a + b; " ++ [slash; slash] ++ js " the sum")
  = normalizeCode (js "return a + b; ").
Proof.
  apply (normalizeCode_trailing_comment (js "return a + b; ") (js " the sum")).
  - by vm_compute.
  - by vm_compute; repeat constructor.
Defined.

(** ** The full table *)

Lemma lev_cons_same a s t : lev (a :: s) (a :: t) = lev s t.
Proof.
  rewrite lev_cons, decide_True by done.
  pose proof (lev_cons_r s a t) as H2.
  pose proof (lev_cons_l a s t) as H3.
  assert (lev s t ≤ S (lev s (a :: t))) as H4.
  { rewrite (lev_sym s t), (lev_sym s (a :: t)). apply lev_uncons_l. }
  pose proof (lev_uncons_l a s t) as H5.
  unfold min3. lia.
Qed.

Section full_table.
Context (str1 str2 : jsstring).

Lemma cell_S_S_same i j :
  i < length str1 → j < length str2 → str1 !! i = str2 !! j →
  cell str1 str2 (S i) (S j) = cell str1 str2 i j.
Proof.
  intros Hi Hj Heq.
  destruct (lookup_lt_is_Some_2 str1 i Hi) as [a Ha].
  destruct (lookup_lt_is_Some_2 str2 j Hj) as [b Hb].
  unfold cell. rewrite (take_S_r str1 i a Ha), (take_S_r str2 j b Hb).
  rewrite !reverse_snoc. rewrite Ha, Hb in Heq. injection Heq as ->.
  apply lev_cons_same.
Qed.

(** A loop that writes the cells of one row of the table is a loop on the
    row. *)
Lemma foldl_setCell (dp : list (list nat)) (i : nat)
    (value : list (list nat) → nat → nat) (rowValue : list nat → nat → nat)
    (columns : list nat) :
  i < length dp →
  (∀ row j, value (<[i := row]> dp) j = rowValue row j) →
  ∀ row,
    foldl (λ dp j, FullTable.setCell dp i j (value dp j))
          (<[i := row]> dp) columns
    = <[i := foldl (λ row j, <[j := rowValue row j]> row) row columns]> dp.
Proof.
  intros Hi Hvalue. induction columns as [| j columns IH]; intros row; [done |].
  cbn [foldl]. unfold FullTable.setCell at 2.
  rewrite list_lookup_total_insert_eq by done.
  rewrite list_insert_insert_eq, Hvalue. apply IH.
Qed.

Lemma fillTableRow_filledTo i dp :
  i < length str1 → FullTable.filledTo str1 str2 i dp →
  FullTable.filledTo str1 str2 (S i) (FullTable.fillTableRow str1 str2 dp (S i)).
Proof.
  intros Hi (Hlen & Hdone & Hrest).
  destruct (lookup_lt_is_Some_2 dp (S i)) as [row Hrow]; [lia |].
  destruct (Hrest (S i) row ltac:(lia) Hrow) as [Hrowlen Hrow0].
  unfold FullTable.fillTableRow.
  set (rowValue := λ (row : list nat) (j : nat),
         if decide (str1 !! i = str2 !! (j - 1))
         then costRow str1 str2 i !!! (j - 1)
         else min3 (costRow str1 str2 i !!! j + 1) (row !!! (j - 1) + 1)
                   (costRow str1 str2 i !!! (j - 1) + 1)).
  rewrite <- (list_insert_id dp (S i) row Hrow) at 1.
  rewrite (foldl_setCell dp (S i)
             (λ dp j, FullTable.cellValue str1 str2 dp (S i) j) rowValue);
    [| lia |]; last first.
  { intros row' j. unfold FullTable.cellValue, rowValue.
    replace (S i - 1) with i by lia.
    rewrite list_lookup_total_insert_eq by lia.
    rewrite list_lookup_total_insert_ne by lia.
    by rewrite (list_lookup_total_correct dp i _ (Hdone i (Nat.le_refl i))). }
  assert (foldl (λ row j, <[j := rowValue row j]> row) row
            (seq 1 (length str2))
          = costRow str1 str2 (S i)) as ->.
  { destruct (foldl_insert_seq rowValue (cell str1 str2 (S i))
                row 1 (length str2)) as [Hl Hk].
    - lia.
    - intros cur j Hj _ Hcur. unfold rowValue.
      destruct j as [| j]; [lia |]. replace (S j - 1) with j by lia.
      rewrite !lookup_total_costRow by lia.
      rewrite (list_lookup_total_correct cur j (cell str1 str2 (S i) j))
        by (apply Hcur; lia).
      case_decide as Heq.
      + by rewrite cell_S_S_same by (done || lia).
      + rewrite cell_S_S by lia. by rewrite decide_False by done.
    - intros k Hk. replace k with 0 by lia. rewrite Hrow0, cell_0_r.
      f_equal. lia.
    - apply costRow_intro; [by rewrite Hl | intros k Hk'; apply Hk; lia]. }
  split; [by rewrite length_insert |]. split.
  - intros k Hk. destruct (decide (k = S i)) as [-> | Hne].
    + apply list_lookup_insert_eq. lia.
    + rewrite list_lookup_insert_ne by done. apply Hdone. lia.
  - intros k row' Hk. rewrite list_lookup_insert_ne by lia. apply Hrest. lia.
Qed.

Lemma fillTable_filledTo n : ∀ i dp,
  i + n ≤ length str1 → FullTable.filledTo str1 str2 i dp →
  FullTable.filledTo str1 str2 (i + n)
    (foldl (FullTable.fillTableRow str1 str2) dp (seq (S i) n)).
Proof.
  induction n as [| n IH]; intros i dp Hi Hdp.
  { by rewrite Nat.add_0_r. }
  cbn [seq foldl]. replace (i + S n) with (S i + n) by lia.
  apply IH; [lia |]. apply fillTableRow_filledTo; [lia | done].
Qed.

Lemma baseCases_filledTo :
  FullTable.filledTo str1 str2 0
    (FullTable.baseCases (length str1) (length str2)
       (FullTable.newTable (length str1) (length str2))).
Proof.
  unfold FullTable.baseCases, FullTable.newTable. cbv zeta.
  set (zeros := replicate (length str2 + 1) 0).
  assert (Hfirst : ∀ n, n ≤ length str1 + 1 →
    let dp := foldl (λ dp i, FullTable.setCell dp i 0 i)
                (replicate (length str1 + 1) zeros) (seq 0 n) in
    length dp = length str1 + 1
    ∧ ∀ k, k < length str1 + 1 →
        dp !! k = Some (if decide (k < n) then <[0 := k]> zeros else zeros)).
  { induction n as [| n IHn]; intros Hn; cbv zeta.
    - simpl. rewrite length_replicate. split; [done |]. intros k Hk.
      by apply lookup_replicate_2.
    - rewrite seq_S, foldl_snoc. destruct (IHn ltac:(lia)) as [Hl Hk].
      cbn [Nat.add]. set (dp := foldl _ _ (seq 0 n)) in *.
      unfold FullTable.setCell.
      split; [by rewrite length_insert |]. intros k Hk'.
      destruct (decide (k = n)) as [-> | Hne].
      + rewrite list_lookup_insert_eq by lia.
        rewrite (list_lookup_total_correct dp n _ (Hk n ltac:(lia))).
        rewrite decide_False, decide_True by lia. done.
      + rewrite list_lookup_insert_ne by done. rewrite Hk by done.
        repeat case_decide; try lia; done. }
  destruct (Hfirst (length str1 + 1) (Nat.le_refl _)) as [Hl Hk].
  set (dp := foldl _ _ (seq 0 (length str1 + 1))) in *.
  assert (dp !! 0 = Some zeros) as Hrow0.
  { rewrite Hk by lia. rewrite decide_True by lia. f_equal.
    apply list_insert_id. subst zeros. apply lookup_replicate_2. lia. }
  rewrite <- (list_insert_id dp 0 zeros Hrow0).
  rewrite (foldl_setCell dp 0 (λ _ j, j) (λ _ j, j)) by (lia || done).
  fold (newArray (length str2 + 1)) in zeros. subst zeros.
  fold (firstRow (length str2)). rewrite (firstRow_costRow str1 str2).
  split; [by rewrite length_insert |]. split.
  - intros k Hk0. replace k with 0 by lia. apply list_lookup_insert_eq. lia.
  - intros k row Hk0 Hrow. rewrite list_lookup_insert_ne in Hrow by lia.
    pose proof (lookup_lt_Some _ _ _ Hrow) as Hlt.
    rewrite Hk, decide_True in Hrow by lia. injection Hrow as <-.
    rewrite length_insert. unfold newArray. rewrite length_replicate.
    split; [done |]. apply list_lookup_insert_eq.
    rewrite length_replicate. lia.
Qed.

Lemma FullTable_levenshteinDistance_lev :
  FullTable.levenshteinDistance str1 str2 = lev str1 str2.
Proof.
  unfold FullTable.levenshteinDistance, FullTable.fillTable. cbv zeta.
  pose proof (fillTable_filledTo (length str1) 0 _ ltac:(lia)
                baseCases_filledTo) as (_ & Hdone & _).
  pose proof (Hdone (length str1) (Nat.le_refl _)) as Hrow.
  rewrite (list_lookup_total_correct _ _ _ Hrow).
  rewrite lookup_total_costRow by lia. apply cell_full.
Qed.
End full_table.

(** X30.  The version of [levenshteinDistance] that fills the full table
    and the version with the two rolling rows return the same number for
    every two strings: the least number of edits. *)
Theorem FullTable_levenshteinDistance_agrees (str1 str2 : jsstring) :
  FullTable.levenshteinDistance str1 str2 = levenshteinDistance str1 str2
  ∧ is_edit_distance (FullTable.levenshteinDistance str1 str2) str1 str2.
Proof.
  rewrite FullTable_levenshteinDistance_lev, levenshteinDistance_lev.
  split; [done | apply lev_is_edit_distance].
Qed.
